(** * knowmatic: tokenizer, sampling primitives, generation loop and
      suggestion acceptance, embedded from the TypeScript sources.

    Conventions of the embedding.
    - A JavaScript number that holds a logit, a probability or a penalty is
      an exact rational [Q]: finite values, no rounding.  The two places
      where the code produces a non-finite value on structural grounds
      (the maximum of no arguments, the quotient 0/0) are written out.
    - A number used as an array index or a token id is a [Z]; a length or a
      count is a [nat].
    - A [Float32Array] is a [list Q]; where identity of the array matters
      it lives in a store of arrays addressed by location.
    - A string is the list of its code points ([list N]). *)

From Stdlib Require Import ZArith NArith QArith Qminmax Qabs Qpower Lia Lqa List Sorted Permutation.
From Stdlib Require Ascii String.
From stdpp Require Import gmap list sorting strings.

(** ** Sampling primitives (sampling.ts) *)

Module Sampling.

Local Open Scope Q_scope.

(** [a > b] and [a < b] on numbers. *)
Definition Qlt_bool (a b : Q) : bool := negb (Qle_bool b a).

(** A [Map<number, number>] in insertion order: token id and its count. *)
Definition TokenCounts := list (Z * nat).

(** [penalized[id]] of a typed array: an index below zero reads
    [undefined]. *)
Definition typed_get (a : list Q) (id : Z) : option Q :=
  if (id <? 0)%Z then None else a !! Z.to_nat id.

(** [penalized[id] = v] on a typed array: a write outside the array is
    dropped. *)
Definition typed_set (a : list Q) (id : Z) (v : Q) : list Q :=
  if (id <? 0)%Z then a else <[Z.to_nat id := v]> a.

(** The body of the loop over [tokenCounts] in [applyRepetitionPenalty].
    An id below zero passes the test [id < penalized.length], reads
    [undefined] and writes outside the array, which changes nothing. *)
Definition penalize_entry (penalty : Q) (penalized : list Q) (e : Z * nat) : list Q :=
  let '(id, count) := e in
  if (id <? Z.of_nat (length penalized))%Z then
    let scaled := penalty ^ Z.of_nat count in
    match typed_get penalized id with
    | Some x =>
        typed_set penalized id (if Qlt_bool 0 x then x / scaled else x * scaled)
    | None => penalized
    end
  else penalized.

Definition applyRepetitionPenalty (logits : list Q) (tokenCounts : TokenCounts)
    (penalty : Q) : list Q :=
  if Qle_bool penalty 1 then logits
  else fold_left (penalize_entry penalty) tokenCounts logits.

Definition temperatureScale (logits : list Q) (temperature : Q) : list Q :=
  if Qle_bool temperature 0 then logits
  else map (fun x => x / temperature) logits.

(** An element of [indexed] in [topKFilter]. *)
Record Indexed := { val : Q; idx : nat }.

(** The comparator [(a, b) => b.val - a.val]. *)
Definition compareDesc (a b : Indexed) : Q := val b - val a.

(** [Array.prototype.sort] is stable: an element moves behind another only
    when the comparator is positive.  Under the comparator above the
    sorted array is unique, so stable insertion stands for the engine's
    algorithm. *)
Fixpoint sort_insert (x : Indexed) (l : list Indexed) : list Indexed :=
  match l with
  | [] => [x]
  | y :: l' =>
      if Qlt_bool 0 (compareDesc x y) then y :: sort_insert x l'
      else x :: y :: l'
  end.

Definition sortDesc (l : list Indexed) : list Indexed :=
  foldr sort_insert [] l.

Record TopK := { indices : list nat; topk_logits : list Q }.

Definition topKFilter (logits : list Q) (k : nat) : TopK :=
  let indexed := imap (fun i v => {| val := v; idx := i |}) logits in
  let sorted := sortDesc indexed in
  let topK := take k sorted in
  {| indices := map idx topK; topk_logits := map val topK |}.

(** [Math.max(...logits)] for a vector with at least one element. *)
Definition maxOf (x : Q) (l : list Q) : Q := fold_left Qmax l x.

Section WithExp.

(** [Math.exp], taken as given. *)
Variable exp : Q -> Q.

(** The loop of [softmaxMax]: the running [sumExp] and [maxExp]. *)
Fixpoint softmax_loop (maxLogit : Q) (l : list Q) (sumExp maxExp : Q) : Q * Q :=
  match l with
  | [] => (sumExp, maxExp)
  | x :: l' =>
      let e := exp (x - maxLogit) in
      softmax_loop maxLogit l' (sumExp + e) (if Qlt_bool maxExp e then e else maxExp)
  end.

(** [softmaxMax]; [None] is a non-finite quotient.  [maxExp] starts at 0
    and only grows, so when [sumExp] is 0 the quotient is [NaN] or
    [+Infinity]; over no logits both loops do nothing and it is 0/0. *)
Definition softmaxMax (logits : list Q) : option Q :=
  match logits with
  | [] => None
  | x :: l =>
      let maxLogit := maxOf x l in
      let '(sumExp, maxExp) := softmax_loop maxLogit logits 0 0 in
      if Qeq_bool sumExp 0 then None else Some (maxExp / sumExp)
  end.

(** [topProb < minConfidence]: false on a non-finite [topProb] that is
    [NaN] or [+Infinity]. *)
Definition below (topProb : option Q) (minConfidence : Q) : bool :=
  match topProb with
  | Some p => Qlt_bool p minConfidence
  | None => false
  end.

(** The second loop of [sampleFromLogits]: [Some i] is [return i]. *)
Fixpoint sample_loop (r : Q) (expScores : list Q) (i : Z) (cumulative : Q) : option Z :=
  match expScores with
  | [] => None
  | e :: rest =>
      let cumulative := cumulative + e in
      if Qle_bool r cumulative then Some i
      else sample_loop r rest (i + 1)%Z cumulative
  end.

(** [sampleFromLogits]; [u] is the value of [Math.random()]. Over no
    logits neither loop runs and the result is [0 - 1]. *)
Definition sampleFromLogits (u : Q) (logits : list Q) : Z :=
  match logits with
  | [] => (-1)%Z
  | x :: l =>
      let maxLogit := maxOf x l in
      let expScores := map (fun y => exp (y - maxLogit)) logits in
      let sumExp := fold_left Qplus expScores 0 in
      let r := u * sumExp in
      match sample_loop r expScores 0%Z 0 with
      | Some i => i
      | None => (Z.of_nat (length expScores) - 1)%Z
      end
  end.

End WithExp.

(** A positive function with value 1 at 0, to run the primitives that
    call [Math.exp] on concrete inputs. *)
Definition exp_poly (x : Q) : Q := 1 + x * x.

(** *** The primitives over a store of typed arrays

    The same three functions with the identity of every [Float32Array]
    kept: an array is a location of the store, [new Float32Array(..)]
    allocates, an indexed assignment overwrites in place.  The ordinary
    arrays [topKFilter] builds ([indexed], [topK]) are never visible
    outside of it and stay values. *)

Abbreviation store := (gmap nat (list Q)).

Definition M (A : Type) : Type := store -> A * store.

Definition ret {A} (a : A) : M A := fun h => (a, h).

Definition bind {A B} (m : M A) (f : A -> M B) : M B :=
  fun h => let '(a, h') := m h in f a h'.

Notation "x <- m ;; k" := (bind m (fun x => k))
  (at level 100, m at next level, right associativity).
Notation "m ;;; k" := (bind m (fun _ => k))
  (at level 100, right associativity).

(** [new Float32Array(contents)]. *)
Definition alloc (contents : list Q) : M nat :=
  fun h => let l := fresh (dom h) in (l, <[l := contents]> h).

(** The elements of the array at [l]. *)
Definition read (l : nat) : M (list Q) :=
  fun h => (default [] (h !! l), h).

(** [a[id] = v] on the array at [l]. *)
Definition write (l : nat) (id : Z) (v : Q) : M unit :=
  fun h =>
    match h !! l with
    | Some a => (tt, <[l := typed_set a id v]> h)
    | None => (tt, h)
    end.

Fixpoint forEach {A} (l : list A) (body : A -> M unit) : M unit :=
  match l with
  | [] => ret tt
  | x :: l' => body x ;;; forEach l' body
  end.

(** The body of [for (const [id, count] of tokenCounts)]. *)
Definition penalty_body (penalty : Q) (penalized : nat) (e : Z * nat) : M unit :=
  let '(id, count) := e in
  cur <- read penalized ;;
  if (id <? Z.of_nat (length cur))%Z then
    let scaled := penalty ^ Z.of_nat count in
    match typed_get cur id with
    | Some x =>
        write penalized id (if Qlt_bool 0 x then x / scaled else x * scaled)
    | None => ret tt
    end
  else ret tt.

Definition applyRepetitionPenalty_ref (logits : nat) (tokenCounts : TokenCounts)
    (penalty : Q) : M nat :=
  if Qle_bool penalty 1 then ret logits
  else
    src <- read logits ;;
    penalized <- alloc src ;;
    forEach tokenCounts (penalty_body penalty penalized) ;;;
    ret penalized.

(** The body of [for (let i = 0; i < logits.length; i++)]. *)
Definition scale_body (temperature : Q) (logits scaled : nat) (i : nat) : M unit :=
  cur <- read logits ;;
  match cur !! i with
  | Some x => write scaled (Z.of_nat i) (x / temperature)
  | None => ret tt
  end.

Definition temperatureScale_ref (logits : nat) (temperature : Q) : M nat :=
  if Qle_bool temperature 0 then ret logits
  else
    src <- read logits ;;
    scaled <- alloc (repeat 0 (length src)) ;;
    forEach (seq 0 (length src)) (scale_body temperature logits scaled) ;;;
    ret scaled.

Definition topKFilter_ref (logits : nat) (k : nat) : M (list nat * nat) :=
  src <- read logits ;;
  let indexed := imap (fun i v => {| val := v; idx := i |}) src in
  let sorted := sortDesc indexed in
  let topK := take k sorted in
  out <- alloc (map val topK) ;;
  ret (map idx topK, out).

(** The count a map records for an id, as [tokenCounts.get(id) || 0]. *)
Fixpoint count_of (tc : TokenCounts) (id : Z) : nat :=
  match tc with
  | [] => 0
  | (k, c) :: tc' => if (k =? id)%Z then c else count_of tc' id
  end.


Lemma Qlt_bool_iff a b : Qlt_bool a b = true <-> a < b.
Proof.
  unfold Qlt_bool. rewrite negb_true_iff.
  destruct (Qle_bool b a) eqn:E.
  - apply Qle_bool_iff in E. split; [discriminate | lra].
  - split; [intros _ | reflexivity].
    destruct (Qlt_le_dec a b) as [H | H]; [exact H |].
    apply Qle_bool_iff in H. congruence.
Qed.

Lemma Qlt_bool_false a b : Qlt_bool a b = false <-> b <= a.
Proof.
  unfold Qlt_bool. rewrite negb_false_iff. apply Qle_bool_iff.
Qed.

Lemma penalize_entry_length p l e : length (penalize_entry p l e) = length l.
Proof.
  destruct e as [id c]. unfold penalize_entry, typed_get, typed_set.
  repeat case_match; rewrite ?length_insert; reflexivity.
Qed.

Lemma penalty_fold_length p tc l :
  length (fold_left (penalize_entry p) tc l) = length l.
Proof.
  revert l. induction tc as [| e tc IH]; intros l; simpl; [reflexivity |].
  rewrite IH. apply penalize_entry_length.
Qed.

Lemma penalize_entry_other p l k c (j : nat) :
  k <> Z.of_nat j -> penalize_entry p l (k, c) !! j = l !! j.
Proof.
  intros Hne. unfold penalize_entry, typed_get, typed_set.
  destruct (k <? Z.of_nat (length l))%Z; [| reflexivity].
  destruct (Z.ltb_spec k 0); [reflexivity |].
  destruct (l !! Z.to_nat k); [| reflexivity].
  apply list_lookup_insert_ne. lia.
Qed.


Lemma penalty_fold_absent p tc l (j : nat) :
  Z.of_nat j ∉ map fst tc ->
  fold_left (penalize_entry p) tc l !! j = l !! j.
Proof.
  revert l. induction tc as [| [k c] tc IH]; intros l Hnot;
    cbn [fold_left]; [reflexivity |].
  simpl in Hnot. rewrite not_elem_of_cons in Hnot. destruct Hnot as [Hk Hrest].
  rewrite IH by exact Hrest. apply penalize_entry_other. congruence.
Qed.

Lemma count_of_absent tc id : id ∉ map fst tc -> count_of tc id = 0%nat.
Proof.
  induction tc as [| [k c] tc IH]; intros Hnot; simpl; [reflexivity |].
  simpl in Hnot. rewrite not_elem_of_cons in Hnot. destruct Hnot as [Hk Hrest].
  destruct (Z.eqb_spec k id); [congruence | auto].
Qed.







(** The order the sort leaves on [indexed]: higher score first, and among
    equal scores the lower original index first. *)
Definition before (a b : Indexed) : Prop :=
  val b < val a \/ (val a == val b /\ (idx a < idx b)%nat).

Lemma before_of_le a b : val b <= val a -> (idx a < idx b)%nat -> before a b.
Proof.
  intros Hle Hidx. unfold before.
  destruct (Qlt_le_dec (val b) (val a)) as [H | H]; [left; exact H |].
  right. split; [lra | exact Hidx].
Qed.

Lemma before_val a b : before a b -> val b <= val a.
Proof. intros [H | [H _]]; lra. Qed.

Lemma sort_insert_perm x l : sort_insert x l ≡ₚ x :: l.
Proof.
  induction l as [| y l IH]; simpl; [reflexivity |].
  destruct (Qlt_bool 0 (compareDesc x y)); [| reflexivity].
  rewrite IH. apply Permutation_swap.
Qed.

Lemma sortDesc_perm l : sortDesc l ≡ₚ l.
Proof.
  induction l as [| x l IH]; simpl; [reflexivity |].
  rewrite sort_insert_perm, IH. reflexivity.
Qed.

Lemma sort_insert_sorted x l :
  StronglySorted before l -> Forall (fun y => (idx x < idx y)%nat) l ->
  StronglySorted before (sort_insert x l).
Proof.
  induction l as [| y l IH]; intros Hs Hidx; simpl.
  - repeat constructor.
  - apply StronglySorted_inv in Hs. destruct Hs as [Hs Hy].
    apply Forall_cons in Hidx. destruct Hidx as [Hxy Hidx].
    destruct (Qlt_bool 0 (compareDesc x y)) eqn:E.
    + apply Qlt_bool_iff in E. unfold compareDesc in E.
      constructor; [apply IH; assumption |].
      rewrite sort_insert_perm. constructor; [left; lra | exact Hy].
    + apply Qlt_bool_false in E. unfold compareDesc in E.
      assert (val y <= val x) as Hle by lra.
      constructor; [constructor; assumption |].
      constructor; [apply before_of_le; assumption |].
      rewrite Forall_forall in Hy, Hidx |- *. intros z Hz.
      apply before_of_le; [| apply Hidx; exact Hz].
      pose proof (before_val _ _ (Hy z Hz)). lra.
Qed.

Lemma sortDesc_sorted l :
  StronglySorted (fun a b => (idx a < idx b)%nat) l ->
  StronglySorted before (sortDesc l).
Proof.
  induction 1 as [| x l Hs IH Hx]; simpl; [constructor |].
  apply sort_insert_sorted; [exact IH |].
  rewrite sortDesc_perm. exact Hx.
Qed.

Lemma indexed_from_sorted (n : nat) (logits : list Q) :
  StronglySorted (fun a b => (idx a < idx b)%nat)
    (imap (fun i v => {| val := v; idx := n + i |}) logits).
Proof.
  revert n. induction logits as [| v l IH]; intros n; [constructor |].
  rewrite imap_cons. constructor.
  - erewrite imap_ext; [apply (IH (S n)) |].
    intros i x _. simpl. f_equal. lia.
  - rewrite Forall_forall. intros e He.
    apply elem_of_lookup_imap in He. destruct He as (i & y & -> & _).
    simpl. lia.
Qed.

Lemma StronglySorted_lookup_lt {A} (R : A -> A -> Prop) (l : list A) i j a b :
  StronglySorted R l -> (i < j)%nat -> l !! i = Some a -> l !! j = Some b -> R a b.
Proof.
  intros Hs. revert i j. induction Hs as [| x l Hs IH Hx]; intros i j Hij Hi Hj.
  - rewrite lookup_nil in Hi. discriminate.
  - destruct j as [| j]; [lia |]. simpl in Hj.
    destruct i as [| i]; simpl in Hi.
    + injection Hi as <-. rewrite Forall_forall in Hx. apply Hx.
      eapply list_elem_of_lookup_2. exact Hj.
    + apply (IH i j); [lia | assumption | assumption].
Qed.

(** The sorted array of [topKFilter]. *)
Definition sortedIndexed (logits : list Q) : list Indexed :=
  sortDesc (imap (fun i v => {| val := v; idx := i |}) logits).

Lemma sortedIndexed_sorted logits : StronglySorted before (sortedIndexed logits).
Proof. apply sortDesc_sorted. apply (indexed_from_sorted 0). Qed.

Lemma sortedIndexed_elem logits e :
  e ∈ sortedIndexed logits <-> logits !! idx e = Some (val e).
Proof.
  unfold sortedIndexed. rewrite sortDesc_perm, elem_of_lookup_imap. split.
  - intros (i & y & -> & Hy). exact Hy.
  - intros H. exists (idx e), (val e). split; [destruct e; reflexivity | exact H].
Qed.

Lemma sortedIndexed_idx_NoDup logits : NoDup (map idx (sortedIndexed logits)).
Proof.
  unfold sortedIndexed. rewrite sortDesc_perm.
  rewrite fmap_imap. unfold compose. simpl.
  rewrite (imap_seq_0 logits (fun j => j)). rewrite list_fmap_id.
  apply NoDup_seq.
Qed.




(** C5: [topKFilter] returns [min k length] (index, value) pairs of the
    input, each index once, highest value first; every value left out is
    at most every value returned, and equal values keep the order of
    their original indices. *)
Theorem topKFilter_spec (logits : list Q) (k : nat) :
  let r := topKFilter logits k in
  length (indices r) = Nat.min k (length logits) /\
  length (topk_logits r) = Nat.min k (length logits) /\
  (forall i n, indices r !! i = Some n ->
     exists v, topk_logits r !! i = Some v /\ logits !! n = Some v) /\
  NoDup (indices r) /\
  (forall i j a b, (i < j)%nat ->
     topk_logits r !! i = Some a -> topk_logits r !! j = Some b -> b <= a) /\
  (forall n w v, logits !! n = Some w -> n ∉ indices r ->
     v ∈ topk_logits r -> w <= v) /\
  (forall i j a b m n, (i < j)%nat ->
     topk_logits r !! i = Some a -> topk_logits r !! j = Some b -> a == b ->
     indices r !! i = Some m -> indices r !! j = Some n -> (m < n)%nat).
Proof.
  intros r. subst r. unfold topKFilter. fold (sortedIndexed logits).
  set (s := sortedIndexed logits). cbn [indices topk_logits].
  assert (length s = length logits) as Hlen.
  { unfold s, sortedIndexed. rewrite sortDesc_perm. apply length_imap. }
  pose proof (sortedIndexed_sorted logits) as Hs. fold s in Hs.
  assert (StronglySorted before (take k s)) as Hst.
  { rewrite <- (take_drop k s) in Hs. eapply StronglySorted_app_1_l. exact Hs. }
  split; [by rewrite length_map, length_take, Hlen |].
  split; [by rewrite length_map, length_take, Hlen |].
  split; [| split; [| split; [| split]]].
  - intros i n Hi. rewrite list_lookup_fmap in Hi.
    destruct (take k s !! i) as [e |] eqn:He; [| discriminate].
    simpl in Hi. injection Hi as <-. exists (val e).
    rewrite list_lookup_fmap, He. split; [reflexivity |].
    apply (sortedIndexed_elem logits). fold s.
    apply lookup_take_Some in He. eapply list_elem_of_lookup_2. apply He.
  - pose proof (sortedIndexed_idx_NoDup logits) as Hnd. fold s in Hnd.
    rewrite <- (take_drop k s), fmap_app in Hnd.
    apply NoDup_app in Hnd. tauto.
  - intros i j a b Hij Ha Hb. rewrite list_lookup_fmap in Ha, Hb.
    destruct (take k s !! i) as [ea |] eqn:Hea; [| discriminate].
    destruct (take k s !! j) as [eb |] eqn:Heb; [| discriminate].
    simpl in Ha, Hb. injection Ha as <-. injection Hb as <-.
    apply before_val. eapply StronglySorted_lookup_lt; eauto.
  - intros n w v Hw Hnot Hv.
    apply list_elem_of_fmap in Hv. destruct Hv as (e' & -> & He').
    assert ({| val := w; idx := n |} ∈ s) as He.
    { apply sortedIndexed_elem. exact Hw. }
    rewrite <- (take_drop k s) in He, Hs. apply elem_of_app in He.
    destruct He as [He | He].
    + exfalso. apply Hnot. apply list_elem_of_fmap.
      exists {| val := w; idx := n |}. split; [reflexivity | exact He].
    + apply (before_val e' {| val := w; idx := n |}).
      eapply StronglySorted_app_1_elem_of; eauto.
  - intros i j a b m n Hij Ha Hb Hab Hm Hn.
    rewrite list_lookup_fmap in Ha, Hb. rewrite list_lookup_fmap in Hm, Hn.
    destruct (take k s !! i) as [ea |] eqn:Hea; [| discriminate].
    destruct (take k s !! j) as [eb |] eqn:Heb; [| discriminate].
    simpl in *. injection Ha as <-. injection Hb as <-.
    injection Hm as <-. injection Hn as <-.
    destruct (StronglySorted_lookup_lt before _ i j ea eb Hst Hij Hea Heb)
      as [Hlt | [_ Hidx]]; [lra | exact Hidx].
Qed.

(** Whatever algorithm sorts [indexed], a stable descending result is
    the one modelled here. *)
Lemma sortedIndexed_unique (logits : list Q) (s : list Indexed) :
  s ≡ₚ imap (fun i v => {| val := v; idx := i |}) logits ->
  StronglySorted before s ->
  s = sortedIndexed logits.
Proof.
  intros Hperm Hs.
  apply (StronglySorted_unique_strong before); [| exact Hs | |].
  - intros x y _ _ [Hxy | [Exy Hxy]] [Hyx | [Eyx Hyx]]; exfalso; try lra; lia.
  - apply sortedIndexed_sorted.
  - unfold sortedIndexed. rewrite sortDesc_perm. exact Hperm.
Qed.

Example topKFilter_ties :
  topKFilter [1; 5; 3; 5; 2] 3
  = {| indices := [1; 3; 2]%nat; topk_logits := [5; 5; 3] |}.
Proof. reflexivity. Qed.

Section SampleIndex.

Variable exp : Q -> Q.

Lemma sample_loop_range r l i c k :
  sample_loop r l i c = Some k -> (i <= k < i + Z.of_nat (length l))%Z.
Proof.
  revert i c. induction l as [| e l IH]; intros i c H; simpl in H; [discriminate |].
  destruct (Qle_bool r (c + e)).
  - injection H as <-. simpl length. lia.
  - apply IH in H. simpl length. lia.
Qed.

(** The running sums the loop compares the draw with. *)
Fixpoint cumulative_sums (c : Q) (l : list Q) : list Q :=
  match l with
  | [] => []
  | e :: l' => (c + e) :: cumulative_sums (c + e) l'
  end.

Lemma sample_loop_none r l i c :
  sample_loop r l i c = None <->
  Forall (fun s => ~ r <= s) (cumulative_sums c l).
Proof.
  revert i c. induction l as [| e l IH]; intros i c; simpl.
  - split; [constructor | reflexivity].
  - destruct (Qle_bool r (c + e)) eqn:E.
    + apply Qle_bool_iff in E. split; [discriminate |].
      intros H. apply Forall_cons in H. tauto.
    + rewrite IH. split.
      * intros H. constructor; [| exact H].
        intros Hle. apply Qle_bool_iff in Hle. congruence.
      * intros H. apply Forall_cons in H. tauto.
Qed.

(** C6 (amended): on a vector with at least one logit, whatever the draw,
    the result is an index of the vector, and it is the last index when
    no running sum reaches the drawn threshold. *)
Theorem sampleFromLogits_valid_index (u : Q) (logits : list Q) :
  logits <> [] ->
  (0 <= sampleFromLogits exp u logits < Z.of_nat (length logits))%Z /\
  (forall x l, logits = x :: l ->
     let expScores := map (fun y => exp (y - maxOf x l)) logits in
     let r := u * fold_left Qplus expScores 0 in
     Forall (fun s => ~ r <= s) (cumulative_sums 0 expScores) ->
     sampleFromLogits exp u logits = (Z.of_nat (length logits) - 1)%Z).
Proof.
  intros Hne. destruct logits as [| x l]; [congruence |]. split.
  - unfold sampleFromLogits.
    destruct (sample_loop _ _ _ _) as [k |] eqn:E.
    + apply sample_loop_range in E. rewrite length_map in E. lia.
    + rewrite length_map. simpl length. lia.
  - intros x' l' Heq expScores r Hall. injection Heq as <- <-.
    unfold sampleFromLogits. fold expScores. fold r.
    apply sample_loop_none with (i := 0%Z) in Hall. rewrite Hall.
    unfold expScores. rewrite length_map. reflexivity.
Qed.

End SampleIndex.

(** C6, as the claim states it, fails on the vector without elements:
    the result is [-1], and no index is valid there. *)
Lemma sampleFromLogits_empty_counterexample :
  sampleFromLogits exp_poly (1 # 2) [] = (-1)%Z /\
  ~ (0 <= sampleFromLogits exp_poly (1 # 2)%Q [] < Z.of_nat (length (@nil Q)))%Z.
Proof.
  split; [reflexivity |]. simpl. lia.
Qed.

Lemma sampleFromLogits_valid_index_witness :
  [2; 1] <> [] /\
  (0 <= sampleFromLogits exp_poly (1 # 2)%Q [2%Q; 1%Q] < Z.of_nat (length [2%Q; 1%Q]))%Z.
Proof.
  split; [discriminate |].
  apply (sampleFromLogits_valid_index exp_poly (1 # 2) [2; 1]).
  discriminate.
Defined.

(** *** The store model against the value model *)

Lemma penalty_loop_run penalty tc (p : nat) (h : store) (a : list Q) :
  forEach tc (penalty_body penalty p) (<[p := a]> h)
  = (tt, <[p := fold_left (penalize_entry penalty) tc a]> h).
Proof.
  revert a. induction tc as [| [id c] tc IH]; intros a; cbn [forEach fold_left].
  - reflexivity.
  - assert (penalty_body penalty p (id, c) (<[p := a]> h)
            = (tt, <[p := penalize_entry penalty a (id, c)]> h)) as Hbody.
    { unfold penalty_body, bind, read, penalize_entry.
      rewrite lookup_insert_eq. simpl.
      destruct (id <? Z.of_nat (length a))%Z; [| reflexivity].
      destruct (typed_get a id) as [x |]; [| reflexivity].
      unfold write. rewrite lookup_insert_eq, insert_insert_eq. reflexivity. }
    unfold bind at 1. rewrite Hbody. apply IH.
Qed.

(** The array the scaling loop has filled up to index [m]. *)
Definition scale_step (temperature : Q) (src : list Q) (cur : list Q) (i : nat) : list Q :=
  match src !! i with
  | Some x => typed_set cur (Z.of_nat i) (x / temperature)
  | None => cur
  end.

Lemma scale_loop_run temperature (l s : nat) (h : store) (src : list Q) ixs cur :
  l <> s -> h !! l = Some src ->
  forEach ixs (scale_body temperature l s) (<[s := cur]> h)
  = (tt, <[s := fold_left (scale_step temperature src) ixs cur]> h).
Proof.
  intros Hne Hl. revert cur.
  induction ixs as [| i ixs IH]; intros cur; cbn [forEach fold_left].
  - reflexivity.
  - assert (scale_body temperature l s i (<[s := cur]> h)
            = (tt, <[s := scale_step temperature src cur i]> h)) as Hbody.
    { unfold scale_body, bind, read, scale_step.
      rewrite lookup_insert_ne by congruence. rewrite Hl. simpl.
      destruct (src !! i) as [x |]; [| reflexivity].
      unfold write. rewrite lookup_insert_eq, insert_insert_eq. reflexivity. }
    unfold bind at 1. rewrite Hbody. apply IH.
Qed.

Lemma scale_fold_lookup temperature src ixs cur (j : nat) :
  length cur = length src ->
  fold_left (scale_step temperature src) ixs cur !! j
  = if decide (j ∈ ixs) then (fun x => x / temperature) <$> src !! j else cur !! j.
Proof.
  intros Hlen. revert cur Hlen.
  induction ixs as [| i ixs IH]; intros cur Hlen; cbn [fold_left].
  - rewrite decide_False by apply not_elem_of_nil. reflexivity.
  - assert (length (scale_step temperature src cur i) = length src) as Hlen'.
    { unfold scale_step, typed_set. destruct (src !! i); [| exact Hlen].
      destruct (Z.of_nat i <? 0)%Z; rewrite ?length_insert; exact Hlen. }
    rewrite IH by exact Hlen'.
    destruct (decide (j ∈ ixs)) as [Hin | Hnin].
    + rewrite decide_True by (apply elem_of_cons; right; exact Hin). reflexivity.
    + destruct (decide (j = i)) as [-> | Hji].
      * rewrite decide_True by (apply elem_of_cons; left; reflexivity).
        unfold scale_step, typed_set.
        destruct (src !! i) as [x |] eqn:Hx.
        -- destruct (Z.ltb_spec (Z.of_nat i) 0); [lia |].
           rewrite Nat2Z.id. simpl. apply list_lookup_insert_eq.
           rewrite Hlen. eapply lookup_lt_Some. exact Hx.
        -- simpl. apply lookup_ge_None. rewrite Hlen.
           apply lookup_ge_None. exact Hx.
      * rewrite decide_False by (rewrite elem_of_cons; tauto).
        unfold scale_step, typed_set. destruct (src !! i); [| reflexivity].
        destruct (Z.ltb_spec (Z.of_nat i) 0); [reflexivity |].
        apply list_lookup_insert_ne. lia.
Qed.

Lemma scale_fold_all temperature src :
  fold_left (scale_step temperature src) (seq 0 (length src)) (repeat 0 (length src))
  = map (fun x => x / temperature) src.
Proof.
  apply list_eq. intros j.
  rewrite scale_fold_lookup by apply repeat_length.
  rewrite list_lookup_fmap.
  destruct (decide (j ∈ seq 0 (length src))) as [Hin | Hnin]; [reflexivity |].
  rewrite elem_of_seq in Hnin.
  rewrite (proj2 (lookup_ge_None src j)) by lia.
  simpl. apply lookup_ge_None. rewrite repeat_length. lia.
Qed.

Lemma applyRepetitionPenalty_ref_run (h : store) l a tc penalty :
  h !! l = Some a ->
  applyRepetitionPenalty_ref l tc penalty h
  = if Qle_bool penalty 1 then (l, h)
    else (fresh (dom h), <[fresh (dom h) := applyRepetitionPenalty a tc penalty]> h).
Proof.
  intros Hl. unfold applyRepetitionPenalty_ref, applyRepetitionPenalty.
  destruct (Qle_bool penalty 1); [reflexivity |].
  unfold bind at 1. unfold read at 1. rewrite Hl. cbn [default].
  unfold bind at 1. unfold alloc at 1. cbv zeta.
  unfold bind at 1. rewrite penalty_loop_run. reflexivity.
Qed.

Lemma temperatureScale_ref_run (h : store) l a temperature :
  h !! l = Some a ->
  temperatureScale_ref l temperature h
  = if Qle_bool temperature 0 then (l, h)
    else (fresh (dom h), <[fresh (dom h) := temperatureScale a temperature]> h).
Proof.
  intros Hl. unfold temperatureScale_ref, temperatureScale.
  destruct (Qle_bool temperature 0); [reflexivity |].
  unfold bind at 1. unfold read at 1. rewrite Hl. cbn [default].
  unfold bind at 1. unfold alloc at 1. cbv zeta.
  unfold bind at 1.
  assert (l <> fresh (dom h)) as Hne.
  { intros ->. apply (is_fresh (dom h)). apply elem_of_dom. eauto. }
  rewrite (scale_loop_run temperature l (fresh (dom h)) h a) by assumption.
  rewrite scale_fold_all. reflexivity.
Qed.

Lemma topKFilter_ref_run (h : store) l a k :
  h !! l = Some a ->
  topKFilter_ref l k h
  = ((indices (topKFilter a k), fresh (dom h)),
     <[fresh (dom h) := topk_logits (topKFilter a k)]> h).
Proof.
  intros Hl. unfold topKFilter_ref, topKFilter.
  unfold bind at 1. unfold read at 1. rewrite Hl. reflexivity.
Qed.

Lemma fresh_frame (h : store) (v : list Q) l0 a0 :
  h !! l0 = Some a0 -> <[fresh (dom h) := v]> h !! l0 = Some a0.
Proof.
  intros H0. rewrite lookup_insert_ne; [exact H0 |].
  intros E. apply (is_fresh (dom h)). rewrite E. apply elem_of_dom. eauto.
Qed.

(** C10: none of [applyRepetitionPenalty], [temperatureScale] and
    [topKFilter] changes the array it is given, nor any other array of
    the store: the result is a newly allocated array that holds the
    value the function computes, or, when [penalty <= 1] or
    [temperature <= 0], the input array itself with the store as it
    was. *)
Theorem sampling_primitives_frame (h : store) (l : nat) (a : list Q)
    (tc : TokenCounts) (penalty temperature : Q) (k : nat) :
  h !! l = Some a ->
  let '(r1, h1) := applyRepetitionPenalty_ref l tc penalty h in
  let '(r2, h2) := temperatureScale_ref l temperature h in
  let '(r3, h3) := topKFilter_ref l k h in
  (forall l0 a0, h !! l0 = Some a0 ->
     h1 !! l0 = Some a0 /\ h2 !! l0 = Some a0 /\ h3 !! l0 = Some a0) /\
  (penalty <= 1 -> r1 = l /\ h1 = h) /\
  (1 < penalty ->
     (r1 ∉ dom h) /\ h1 !! r1 = Some (applyRepetitionPenalty a tc penalty)) /\
  (temperature <= 0 -> r2 = l /\ h2 = h) /\
  (0 < temperature ->
     (r2 ∉ dom h) /\ h2 !! r2 = Some (temperatureScale a temperature)) /\
  (r3.2 ∉ dom h) /\
  r3.1 = indices (topKFilter a k) /\
  h3 !! r3.2 = Some (topk_logits (topKFilter a k)).
Proof.
  intros Hl.
  rewrite (applyRepetitionPenalty_ref_run h l a tc penalty Hl).
  rewrite (temperatureScale_ref_run h l a temperature Hl).
  rewrite (topKFilter_ref_run h l a k Hl).
  pose proof (is_fresh (dom h)) as Hfresh.
  assert (forall v l0 a0, h !! l0 = Some a0 ->
            <[fresh (dom h) := v]> h !! l0 = Some a0) as Hframe
    by (intros; by apply fresh_frame).
  destruct (Qlt_le_dec 1 penalty) as [Hp | Hp];
    destruct (Qlt_le_dec 0 temperature) as [Ht | Ht].
  all: pose proof Hp as Ep; pose proof Ht as Et.
  all: first [apply Qle_bool_iff in Ep | apply Qlt_bool_iff in Ep];
       first [apply Qle_bool_iff in Et | apply Qlt_bool_iff in Et].
  all: unfold Qlt_bool in *; rewrite ?negb_true_iff in *; rewrite Ep, Et.
  all: cbn [fst snd].
  all: repeat match goal with |- _ /\ _ => split end.
  all: intros; try reflexivity; try assumption; try apply lookup_insert_eq;
       try (exfalso; lra); auto.
  all: split; [exact Hfresh | apply lookup_insert_eq].
Qed.

Lemma sampling_primitives_frame_witness :
  let h : store := {[ 5%nat := [3; -1] ]} in
  h !! 5%nat = Some [3; -1] /\
  (let '(_, h1) := applyRepetitionPenalty_ref 5 [(0%Z, 1%nat)] 2 h in
   h1 !! 5%nat = Some [3; -1]) /\
  (let '(_, h2) := temperatureScale_ref 5 (1 # 2) h in
   h2 !! 5%nat = Some [3; -1]) /\
  (let '(_, h3) := topKFilter_ref 5 1 h in
   h3 !! 5%nat = Some [3; -1]).
Proof.
  intros h. split; [reflexivity |].
  pose proof (sampling_primitives_frame h 5 [3; -1] [(0%Z, 1%nat)] 2 (1 # 2) 1 eq_refl)
    as H.
  destruct (applyRepetitionPenalty_ref 5 [(0%Z, 1%nat)] 2 h) as [r1 h1].
  destruct (temperatureScale_ref 5 (1 # 2) h) as [r2 h2].
  destruct (topKFilter_ref 5 1 h) as [r3 h3].
  destruct H as [Hframe _].
  destruct (Hframe 5%nat [3; -1] eq_refl) as (H1 & H2 & H3).
  repeat split; assumption.
Defined.

(** *** Further properties of the primitives *)

(** The ids a vector of length [n] has a slot for. *)
Definition in_range (n : nat) (e : Z * nat) : bool :=
  ((0 <=? e.1) && (e.1 <? Z.of_nat n))%Z.

Lemma penalize_entry_out_of_range p l e :
  in_range (length l) e = false -> penalize_entry p l e = l.
Proof.
  destruct e as [id c]. unfold in_range, penalize_entry, typed_get. cbn [fst].
  intros H. apply andb_false_iff in H.
  rewrite Z.leb_gt, Z.ltb_ge in H.
  destruct (Z.ltb_spec id (Z.of_nat (length l))); [| reflexivity].
  destruct (Z.ltb_spec id 0); [reflexivity | lia].
Qed.

Lemma penalty_fold_in_range p tc l n :
  length l = n ->
  fold_left (penalize_entry p) (filter (fun e => in_range n e = true) tc) l
  = fold_left (penalize_entry p) tc l.
Proof.
  revert l. induction tc as [| e tc IH]; intros l Hn; [reflexivity |].
  cbn [fold_left]. rewrite filter_cons. destruct (in_range n e) eqn:E.
  - rewrite decide_True by reflexivity. cbn [fold_left].
    apply IH. rewrite penalize_entry_length. exact Hn.
  - rewrite decide_False by discriminate.
    rewrite (penalize_entry_out_of_range p l e) by (rewrite Hn; exact E).
    apply IH. exact Hn.
Qed.

(** X1: [applyRepetitionPenalty] returns a vector of the length of its
    input, leaves every slot whose index is not a key of the count map
    as it was, and ignores the entries whose id has no slot (below zero
    or at or past the length): with or without them the result is the
    same. *)
Theorem applyRepetitionPenalty_frame (logits : list Q) (tc : TokenCounts) (penalty : Q) :
  length (applyRepetitionPenalty logits tc penalty) = length logits /\
  (forall j : nat, Z.of_nat j ∉ map fst tc ->
     applyRepetitionPenalty logits tc penalty !! j = logits !! j) /\
  applyRepetitionPenalty logits
    (filter (fun e => in_range (length logits) e = true) tc) penalty
  = applyRepetitionPenalty logits tc penalty.
Proof.
  unfold applyRepetitionPenalty. destruct (Qle_bool penalty 1).
  - repeat split; reflexivity.
  - split; [apply penalty_fold_length |].
    split; [intros j Hj; apply penalty_fold_absent; exact Hj |].
    apply penalty_fold_in_range. reflexivity.
Qed.







Section Probabilities.

Variable exp : Q -> Q.
Hypothesis exp_pos : forall x, 0 < exp x.



End Probabilities.

Lemma exp_poly_pos (x : Q) : 0 < exp_poly x.
Proof. unfold exp_poly. nra. Qed.


(** X4: over at least one logit and with [k >= 1], the first index
    [topKFilter] returns is the first position of the maximum: no logit
    is greater, and no earlier position holds an equal one.  With [k]
    at least the length nothing is filtered out: the indices returned
    are all positions, each once. *)
Theorem topKFilter_first_is_argmax (logits : list Q) (k : nat) :
  (logits <> [] -> (1 <= k)%nat ->
   exists i0 v0,
     indices (topKFilter logits k) !! 0%nat = Some i0 /\
     logits !! i0 = Some v0 /\
     forall j w, logits !! j = Some w ->
       w <= v0 /\ (w == v0 -> (i0 <= j)%nat)) /\
  ((length logits <= k)%nat ->
   indices (topKFilter logits k) ≡ₚ seq 0 (length logits)).
Proof.
  unfold topKFilter. cbn [indices]. fold (sortedIndexed logits).
  pose proof (sortedIndexed_sorted logits) as Hs.
  assert (length (sortedIndexed logits) = length logits) as Hlen.
  { unfold sortedIndexed. rewrite sortDesc_perm. apply length_imap. }
  split.
  - intros Hne Hk.
    destruct (sortedIndexed logits) as [| e0 s] eqn:Es.
    { destruct logits; [congruence | discriminate]. }
    destruct k as [| k]; [lia |]. cbn [take map].
    exists (idx e0), (val e0). split; [reflexivity |].
    assert (logits !! idx e0 = Some (val e0)) as H0.
    { apply sortedIndexed_elem. rewrite Es. left. }
    split; [exact H0 |]. intros j w Hw.
    assert ({| val := w; idx := j |} ∈ e0 :: s) as Hin.
    { rewrite <- Es. apply sortedIndexed_elem. exact Hw. }
    apply elem_of_cons in Hin. destruct Hin as [<- | Hin].
    { cbn. split; [lra | intros _; lia]. }
    apply StronglySorted_inv in Hs. destruct Hs as [_ Hall].
    rewrite Forall_forall in Hall. specialize (Hall _ Hin).
    destruct Hall as [Hlt | [Heq Hidx]]; cbn [val idx] in *.
    + split; [lra | intros Hc; lra].
    + split; [lra | intros _; lia].
  - intros Hk. rewrite take_ge by lia.
    unfold sortedIndexed. rewrite sortDesc_perm, fmap_imap.
    unfold compose. cbn [idx].
    rewrite (imap_seq_0 logits (fun j => j)), list_fmap_id. reflexivity.
Qed.

End Sampling.

(** ** Generation engine (autocomplete.ts) *)

Module Generation.

Import Sampling.
Local Open Scope Q_scope.

(** An element of the working sequence [ids]: a number, or the
    [undefined] an out-of-range [indices[sampledIdx]] reads. *)
Inductive Token := Tok (id : Z) | Undefined.

Record GenerationDefaults := {
  max_new_tokens : nat;
  default_temperature : Q;
  top_k : nat
}.

Record GenerativeMetadata := {
  vocab_size : nat;
  generation_defaults : GenerationDefaults;
  eos : Z
}.

(** [GenerateOptions] without the signal, which is read once per step and
    is given to the run as the sequence of what those reads return. *)
Record GenerateOptions := {
  maxNewTokens : option nat;
  temperature : option Q;
  topK : option nat;
  minConfidence : option Q;
  repetitionPenalty : option Q
}.

(** The engine: [session.run] maps the ids to the flat logits of every
    position, or fails; both fields are [None] before [load]. *)
Record AutocompleteEngine := {
  session : option (list Z -> option (list Q));
  metadata : option GenerativeMetadata
}.

(** [Array.prototype.slice(start, end)]: a negative bound counts from the
    end, both are clamped to the array. *)
Definition rel_index (len : nat) (i : Z) : nat :=
  if (i <? 0)%Z then Z.to_nat (Z.max (Z.of_nat len + i) 0)
  else Z.to_nat (Z.min i (Z.of_nat len)).

Definition js_slice {A} (a : list A) (start stop : Z) : list A :=
  let s := rel_index (length a) start in
  let e := rel_index (length a) stop in
  take (e - s) (drop s a).

(** [ids.map(BigInt)]: [BigInt(undefined)] throws. *)
Fixpoint to_bigints (ids : list Token) : option (list Z) :=
  match ids with
  | [] => Some []
  | Tok z :: ids' => option_map (cons z) (to_bigints ids')
  | Undefined :: _ => None
  end.

(** [tokenCounts.set(id, (tokenCounts.get(id) || 0) + 1)]: a key keeps the
    place of its first insertion. *)
Fixpoint count_token (tc : TokenCounts) (id : Z) : TokenCounts :=
  match tc with
  | [] => [(id, 1%nat)]
  | (k, c) :: tc' =>
      if (k =? id)%Z then (k, S c) :: tc' else (k, c) :: count_token tc' id
  end.

(** [indices[sampledIdx]]. *)
Definition index_token (indices : list nat) (sampledIdx : Z) : Token :=
  if (sampledIdx <? 0)%Z then Undefined
  else match indices !! Z.to_nat sampledIdx with
       | Some n => Tok (Z.of_nat n)
       | None => Undefined
       end.

Definition token_is (t : Token) (id : Z) : bool :=
  match t with
  | Tok z => (z =? id)%Z
  | Undefined => false
  end.

Inductive Ending := Completed | Aborted | Faulted.

(** What one pass through the loop body does: [yield nextToken] with the
    grown sequence, or leave the generator. *)
Inductive StepResult :=
| Yield (nextToken : Token) (ids : list Token)
| Stop (e : Ending).

Section Run.

Variable exp : Q -> Q.
Variable run : list Z -> option (list Q).
Variable meta : GenerativeMetadata.

(** The options after destructuring with their defaults; [maxNewTokens]
    is the number of passes the loop is given. *)
Variable temperature_ : Q.
Variable topK_ : nat.
Variable minConfidence_ : Q.
Variable repetitionPenalty_ : Q.

(** From the logits of the session to the filtered candidates. *)
Definition candidates (ids : list Z) (logits : list Q) : TopK :=
  let vocabSize := Z.of_nat (vocab_size meta) in
  let lastPositionOffset := ((Z.of_nat (length ids) - 1) * vocabSize)%Z in
  let lastLogits :=
    js_slice logits lastPositionOffset (lastPositionOffset + vocabSize)%Z in
  let tokenCounts := fold_left count_token ids [] in
  let penalizedLogits :=
    applyRepetitionPenalty lastLogits tokenCounts repetitionPenalty_ in
  let scaled := temperatureScale penalizedLogits temperature_ in
  topKFilter scaled topK_.

(** The loop body; [aborted] is [signal?.aborted] as read at the top of
    the step and [u] the value [Math.random()] returns in it. *)
Definition gen_step (aborted : bool) (u : Q) (ids : list Token) : StepResult :=
  if aborted then Stop Aborted
  else
    match to_bigints ids with
    | None => Stop Faulted
    | Some zs =>
        match run zs with
        | None => Stop Faulted
        | Some logits =>
            let c := candidates zs logits in
            if Qlt_bool 0 minConfidence_
               && below (softmaxMax exp (topk_logits c)) minConfidence_
            then Stop Completed
            else
              let sampledIdx := sampleFromLogits exp u (topk_logits c) in
              let nextToken := index_token (indices c) sampledIdx in
              if token_is nextToken (eos meta) then Stop Completed
              else Yield nextToken (ids ++ [nextToken])
        end
    end.

(** The [for] loop from [step] on with [remaining = maxNewTokens - step]
    passes left: the tokens it yields and how it ends. *)
Fixpoint run_steps (aborted : nat -> bool) (draw : nat -> Q)
    (remaining step : nat) (ids : list Token) : list Token * Ending :=
  match remaining with
  | O => ([], Completed)
  | S remaining' =>
      match gen_step (aborted step) (draw step) ids with
      | Stop e => ([], e)
      | Yield nextToken ids' =>
          let '(rest, e) := run_steps aborted draw remaining' (S step) ids' in
          (nextToken :: rest, e)
      end
  end.


End Run.

(** [generate]: the stream as the list of what it yields, and its end. *)
Definition generate (exp : Q -> Q) (engine : AutocompleteEngine)
    (aborted : nat -> bool) (draw : nat -> Q)
    (inputIds : list Z) (options : GenerateOptions) : list Token * Ending :=
  match session engine, metadata engine with
  | Some run, Some meta =>
      let defaults := generation_defaults meta in
      run_steps exp run meta
        (default (default_temperature defaults) (temperature options))
        (default (top_k defaults) (topK options))
        (default 0 (minConfidence options))
        (default 1 (repetitionPenalty options))
        aborted draw
        (default (max_new_tokens defaults) (maxNewTokens options))
        0%nat (map Tok inputIds)
  | _, _ => ([], Faulted)
  end.

Section RunFacts.

Variable exp : Q -> Q.
Variable run : list Z -> option (list Q).
Variable meta : GenerativeMetadata.
Variables (temperature_ : Q) (topK_ : nat) (minConfidence_ repetitionPenalty_ : Q).

Let steps := run_steps exp run meta temperature_ topK_ minConfidence_ repetitionPenalty_.
Let step1 := gen_step exp run meta temperature_ topK_ minConfidence_ repetitionPenalty_.






(** A signal raised before the top of pass [k] and never lowered. *)
Definition raised_before (k : nat) : nat -> bool := fun step => (k <=? step)%nat.

Definition never_raised : nat -> bool := fun _ => false.

Lemma run_steps_aborted_at aborted draw remaining step ids :
  aborted step = true ->
  steps aborted draw remaining step ids
  = ([], match remaining with O => Completed | S _ => Aborted end).
Proof.
  intros Ha. subst steps. destruct remaining; simpl; [reflexivity |].
  unfold gen_step. rewrite Ha. reflexivity.
Qed.

Lemma run_steps_cut_at draw k remaining step ids :
  (step <= k)%nat ->
  (steps (raised_before k) draw remaining step ids).1
  = take (k - step) (steps never_raised draw remaining step ids).1.
Proof.
  subst steps. revert step ids.
  induction remaining as [| r IH]; intros step ids Hle; cbn [run_steps fst].
  - rewrite take_nil. reflexivity.
  - unfold raised_before at 1, never_raised at 1.
    destruct (Nat.leb_spec k step) as [Hk | Hk].
    + replace (k - step)%nat with 0%nat by lia. reflexivity.
    + destruct (gen_step _ _ _ _ _ _ _ false _ _) as [t ids' | e].
      * specialize (IH (S step) ids' ltac:(lia)).
        destruct (run_steps _ _ _ _ _ _ _ (raised_before k) _ _ _ _) as [rest e].
        destruct (run_steps _ _ _ _ _ _ _ never_raised _ _ _ _) as [rest' e'].
        cbn [fst] in *. replace (k - step)%nat with (S (k - S step)) by lia.
        cbn [take]. rewrite IH. reflexivity.
      * cbn [fst]. rewrite take_nil. reflexivity.
Qed.

Lemma run_steps_stop_by aborted draw remaining step ids k :
  (step <= k)%nat -> aborted k = true ->
  (length (steps aborted draw remaining step ids).1 <= k - step)%nat.
Proof.
  subst steps. revert step ids.
  induction remaining as [| r IH]; intros step ids Hle Hk; cbn [run_steps fst];
    [simpl; lia |].
  destruct (decide (step = k)) as [-> | Hne].
  - rewrite Hk. simpl. lia.
  - destruct (gen_step _ _ _ _ _ _ _ _ _ _) as [t ids' | e]; [| simpl; lia].
    specialize (IH (S step) ids' ltac:(lia) Hk).
    destruct (run_steps _ _ _ _ _ _ _ _ _ _ _ _) as [rest e].
    cbn [fst length] in *. lia.
Qed.

End RunFacts.


(** A session over a vocabulary of three that scores every position
    alike, for running the loop. *)
Definition demo_run (zs : list Z) : option (list Q) :=
  Some (concat (map (fun _ => [1; 3; 2]) zs)).

Definition demo_meta : GenerativeMetadata :=
  {| vocab_size := 3;
     generation_defaults :=
       {| max_new_tokens := 2; default_temperature := 1; top_k := 2 |};
     eos := 0 |}.

Definition demo_engine : AutocompleteEngine :=
  {| session := Some demo_run; metadata := Some demo_meta |}.

Definition no_options : GenerateOptions :=
  {| maxNewTokens := None; temperature := None; topK := None;
     minConfidence := None; repetitionPenalty := None |}.

Example generate_demo :
  generate exp_poly demo_engine never_raised (fun _ => 1 # 2) [2%Z] no_options
  = ([Tok 2; Tok 2], Completed).
Proof. vm_compute. reflexivity. Qed.

Example generate_demo_confident :
  generate exp_poly demo_engine never_raised (fun _ => 1 # 2) [2%Z]
    {| maxNewTokens := Some 5%nat; temperature := None; topK := None;
       minConfidence := Some (9 # 10); repetitionPenalty := None |}
  = ([], Completed).
Proof. vm_compute. reflexivity. Qed.


(** C7: a signal set before the run starts leaves the stream empty; a
    signal set before the top of pass [k] leaves exactly the first [k]
    tokens of the run that is never cancelled, so the pass in progress
    when the signal is set still yields its token and no later pass
    does; and whenever the signal reads as set at the top of pass [k],
    the stream holds at most [k] tokens. *)
Theorem generate_cancellation (exp : Q -> Q) (engine : AutocompleteEngine)
    (draw : nat -> Q) (inputIds : list Z) (options : GenerateOptions) :
  (generate exp engine (raised_before 0) draw inputIds options).1 = [] /\
  (forall k,
     (generate exp engine (raised_before k) draw inputIds options).1
     = take k (generate exp engine never_raised draw inputIds options).1) /\
  (forall aborted k, aborted k = true ->
     (length (generate exp engine aborted draw inputIds options).1 <= k)%nat).
Proof.
  assert (forall k,
     (generate exp engine (raised_before k) draw inputIds options).1
     = take k (generate exp engine never_raised draw inputIds options).1) as Hcut.
  { intros k. unfold generate.
    destruct (session engine) as [run |]; [| cbn [fst]; by rewrite take_nil].
    destruct (metadata engine) as [meta |]; [| cbn [fst]; by rewrite take_nil].
    rewrite run_steps_cut_at by lia. rewrite Nat.sub_0_r. reflexivity. }
  split; [rewrite Hcut; reflexivity |]. split; [exact Hcut |].
  intros aborted k Hk. unfold generate.
  destruct (session engine) as [run |]; [| simpl; lia].
  destruct (metadata engine) as [meta |]; [| simpl; lia].
  pose proof (run_steps_stop_by exp run meta
    (default (default_temperature (generation_defaults meta)) (temperature options))
    (default (top_k (generation_defaults meta)) (topK options))
    (default 0 (minConfidence options))
    (default 1 (repetitionPenalty options))
    aborted draw
    (default (max_new_tokens (generation_defaults meta)) (maxNewTokens options))
    0%nat (map Tok inputIds) k ltac:(lia) Hk) as H.
  lia.
Qed.

Example generate_cancelled_midstream :
  (generate exp_poly demo_engine (raised_before 1) (fun _ => 1 # 2) [2%Z]
     no_options)
  = ([Tok 2], Aborted).
Proof. vm_compute. reflexivity. Qed.

(** *** Further properties of the generation loop *)

Lemma count_token_keys tc id :
  map fst (count_token tc id)
  = if bool_decide (id ∈ map fst tc) then map fst tc else map fst tc ++ [id].
Proof.
  induction tc as [| [k c] tc IH]; cbn [count_token map fst].
  - rewrite bool_decide_eq_false_2 by apply not_elem_of_nil. reflexivity.
  - destruct (Z.eqb_spec k id) as [-> | Hne]; cbn [map fst].
    + rewrite bool_decide_eq_true_2 by left. reflexivity.
    + rewrite IH. destruct (bool_decide (id ∈ map fst tc)) eqn:E.
      * apply bool_decide_eq_true in E.
        rewrite bool_decide_eq_true_2 by (right; exact E). reflexivity.
      * apply bool_decide_eq_false in E.
        rewrite bool_decide_eq_false_2; [reflexivity |].
        rewrite not_elem_of_cons. split; [congruence | exact E].
Qed.

Lemma count_token_count tc id id' :
  count_of (count_token tc id) id'
  = (count_of tc id' + if (id =? id')%Z then 1 else 0)%nat.
Proof.
  induction tc as [| [k c] tc IH]; cbn [count_token count_of].
  - destruct (Z.eqb_spec id id'); reflexivity.
  - destruct (Z.eqb_spec k id) as [-> | Hne]; cbn [count_of].
    + destruct (Z.eqb_spec id id'); lia.
    + destruct (Z.eqb_spec k id') as [-> | Hne'].
      * destruct (Z.eqb_spec id id'); [congruence | lia].
      * exact IH.
Qed.

(** The number of times [id] occurs in [ids]. *)
Fixpoint occurrences (id : Z) (ids : list Z) : nat :=
  match ids with
  | [] => 0
  | x :: ids' => ((if (x =? id)%Z then 1 else 0) + occurrences id ids')%nat
  end.

Lemma count_fold_spec ids tc :
  NoDup (map fst tc) ->
  NoDup (map fst (fold_left count_token ids tc)) /\
  forall id, count_of (fold_left count_token ids tc) id
             = (count_of tc id + occurrences id ids)%nat.
Proof.
  revert tc. induction ids as [| x ids IH]; intros tc Hnd; cbn [fold_left occurrences].
  - split; [exact Hnd | intros; lia].
  - destruct (IH (count_token tc x)) as [H1 H2].
    + rewrite count_token_keys. destruct (bool_decide (x ∈ map fst tc)) eqn:E;
        [exact Hnd |].
      apply bool_decide_eq_false in E. apply NoDup_app. split; [exact Hnd |].
      split; [| apply NoDup_singleton].
      intros y Hy Hy'. apply list_elem_of_singleton in Hy'. congruence.
    + split; [exact H1 |]. intros id. rewrite H2, count_token_count. lia.
Qed.

(** X5: the count map a pass builds from the working sequence has each
    id as a key once, and records for every id the number of times it
    occurs in the sequence (ids that do not occur have no entry). *)
Theorem tokenCounts_spec (ids : list Z) :
  NoDup (map fst (fold_left count_token ids [])) /\
  (forall id, count_of (fold_left count_token ids []) id = occurrences id ids) /\
  (forall id, id ∈ map fst (fold_left count_token ids []) <-> id ∈ ids).
Proof.
  destruct (count_fold_spec ids [] ltac:(constructor)) as [H1 H2].
  split; [exact H1 |]. split; [intros id; rewrite H2; reflexivity |].
  intros id. clear H1 H2.
  assert (forall tc, id ∈ map fst (fold_left count_token ids tc)
                     <-> id ∈ map fst tc \/ id ∈ ids) as H.
  { induction ids as [| x ids IH]; intros tc; cbn [fold_left].
    - rewrite elem_of_nil. tauto.
    - rewrite IH, count_token_keys, elem_of_cons.
      destruct (bool_decide (x ∈ map fst tc)) eqn:E.
      + apply bool_decide_eq_true in E. split; [tauto |].
        intros [H | [-> | H]]; tauto.
      + rewrite elem_of_app, list_elem_of_singleton. tauto. }
  rewrite H. cbn [map]. rewrite elem_of_nil. tauto.
Qed.

Lemma rel_index_nonneg (len : nat) (i : Z) :
  (0 <= i)%Z -> rel_index len i = Nat.min (Z.to_nat i) len.
Proof.
  intros Hi. unfold rel_index. destruct (Z.ltb_spec i 0); lia.
Qed.

(** X6: when the session returns the logits of all positions, [vocabSize]
    for each of the ids, the slice of a pass is the block of the last
    position: the last [vocabSize] logits. *)
Theorem lastLogits_is_last_block (logits : list Q) (n V : nat) :
  (1 <= n)%nat ->
  length logits = (n * V)%nat ->
  let lastPositionOffset := ((Z.of_nat n - 1) * Z.of_nat V)%Z in
  js_slice logits lastPositionOffset (lastPositionOffset + Z.of_nat V)%Z
  = drop ((n - 1) * V) logits /\
  length (js_slice logits lastPositionOffset (lastPositionOffset + Z.of_nat V)%Z) = V.
Proof.
  intros Hn Hlen off. unfold js_slice.
  assert (off = Z.of_nat ((n - 1) * V)) as Hoff by (unfold off; nia).
  assert (((n - 1) * V + V)%nat = length logits) as Hsum by nia.
  set (m := ((n - 1) * V)%nat) in *. clearbody m off. subst off.
  rewrite !rel_index_nonneg by lia.
  rewrite Z2Nat.inj_add, !Nat2Z.id by lia.
  rewrite Hsum, Nat.min_id, (Nat.min_l m) by lia.
  assert (take (length logits - m) (drop m logits) = drop m logits) as ->.
  { apply take_ge. rewrite length_drop. lia. }
  split; [reflexivity |]. rewrite length_drop. lia.
Qed.

Lemma lastLogits_is_last_block_witness :
  js_slice [1; 2; 3; 4; 5; 6] ((Z.of_nat 2 - 1) * Z.of_nat 3)
    ((Z.of_nat 2 - 1) * Z.of_nat 3 + Z.of_nat 3) = [4; 5; 6].
Proof.
  apply (lastLogits_is_last_block [1; 2; 3; 4; 5; 6] 2 3); [lia | reflexivity].
Defined.

Lemma sampleFromLogits_single exp u u' (l : list Q) :
  (length l <= 1)%nat -> sampleFromLogits exp u l = sampleFromLogits exp u' l.
Proof.
  intros Hl. destruct l as [| x [| y l]]; [reflexivity | | cbn [length] in Hl; lia].
  unfold sampleFromLogits. cbn [map sample_loop length].
  destruct (Qle_bool _ _); destruct (Qle_bool _ _); reflexivity.
Qed.

Section MoreRunFacts.

Variable exp : Q -> Q.
Variable run : list Z -> option (list Q).
Variable meta : GenerativeMetadata.
Variables (temperature_ : Q) (topK_ : nat) (minConfidence_ repetitionPenalty_ : Q).

Let steps := run_steps exp run meta temperature_ topK_ minConfidence_ repetitionPenalty_.
Let step1 := gen_step exp run meta temperature_ topK_ minConfidence_ repetitionPenalty_.
Let cands := candidates meta temperature_ topK_ repetitionPenalty_.

Lemma candidates_length zs logits :
  (length (topk_logits (cands zs logits)) <= topK_)%nat /\
  length (indices (cands zs logits)) = length (topk_logits (cands zs logits)).
Proof.
  subst cands. unfold candidates, topKFilter. cbn [indices topk_logits].
  rewrite !length_map, length_take. lia.
Qed.

Lemma gen_step_greedy aborted u u' ids :
  (topK_ <= 1)%nat -> step1 aborted u ids = step1 aborted u' ids.
Proof.
  intros Hk. subst step1. unfold gen_step.
  destruct aborted; [reflexivity |].
  destruct (to_bigints ids) as [zs |]; [| reflexivity].
  destruct (run zs) as [logits |]; [| reflexivity].
  destruct (_ && _); [reflexivity |]. cbv zeta.
  rewrite (sampleFromLogits_single exp u u'); [reflexivity |].
  pose proof (candidates_length zs logits) as [H _]. subst cands. lia.
Qed.

Lemma run_steps_greedy aborted draw draw' remaining step ids :
  (topK_ <= 1)%nat ->
  steps aborted draw remaining step ids = steps aborted draw' remaining step ids.
Proof.
  intros Hk. subst steps. revert step ids.
  induction remaining as [| r IH]; intros step ids; cbn [run_steps]; [reflexivity |].
  fold step1. rewrite (gen_step_greedy (aborted step) (draw step) (draw' step) ids Hk).
  destruct (step1 _ _ _) as [t ids' | e]; [| reflexivity].
  rewrite IH. reflexivity.
Qed.

Lemma run_steps_prefix aborted draw n m step ids :
  (steps aborted draw n step ids).1
  = take n (steps aborted draw (n + m) step ids).1.
Proof.
  subst steps. revert step ids.
  induction n as [| n IH]; intros step ids; cbn [run_steps Nat.add fst].
  - rewrite take_0. reflexivity.
  - destruct (gen_step _ _ _ _ _ _ _ _ _ _) as [t ids' | e].
    + specialize (IH (S step) ids').
      destruct (run_steps _ _ _ _ _ _ _ _ _ n _ _) as [rest e].
      destruct (run_steps _ _ _ _ _ _ _ _ _ (n + m)%nat _ _) as [rest' e'].
      cbn [fst take] in *. rewrite IH. reflexivity.
    + cbn [fst]. rewrite take_nil. reflexivity.
Qed.







End MoreRunFacts.

(** X7: with [topK] at most 1 the stream does not depend on the random
    draws: two runs that differ only in what [Math.random()] returns
    yield the same tokens and end the same way. *)
Theorem generate_greedy_deterministic (exp : Q -> Q) (engine : AutocompleteEngine)
    (aborted : nat -> bool) (draw draw' : nat -> Q)
    (inputIds : list Z) (options : GenerateOptions) :
  (forall meta, metadata engine = Some meta ->
     (default (top_k (generation_defaults meta)) (topK options) <= 1)%nat) ->
  generate exp engine aborted draw inputIds options
  = generate exp engine aborted draw' inputIds options.
Proof.
  intros Hk. unfold generate.
  destruct (session engine) as [run |]; [| reflexivity].
  destruct (metadata engine) as [meta |]; [| reflexivity].
  apply run_steps_greedy. apply Hk. reflexivity.
Qed.

Lemma generate_greedy_deterministic_witness :
  let options := {| maxNewTokens := None; temperature := None; topK := Some 1%nat;
                    minConfidence := None; repetitionPenalty := None |} in
  generate exp_poly demo_engine never_raised (fun _ => 1 # 2) [2%Z] options
  = generate exp_poly demo_engine never_raised (fun _ => 0) [2%Z] options.
Proof.
  intros options.
  apply (generate_greedy_deterministic exp_poly demo_engine never_raised
           (fun _ => 1 # 2) (fun _ => 0) [2%Z] options).
  intros meta H. injection H as <-. cbn. lia.
Defined.

(** The options with [maxNewTokens] set. *)
Definition with_maxNewTokens (n : nat) (options : GenerateOptions) : GenerateOptions :=
  {| maxNewTokens := Some n; temperature := temperature options;
     topK := topK options; minConfidence := minConfidence options;
     repetitionPenalty := repetitionPenalty options |}.

(** X8: a larger [maxNewTokens] only extends the stream: under the same
    signal reads and draws, the stream for [n] is the first [n] tokens of
    the stream for [n + m]. *)
Theorem generate_prefix (exp : Q -> Q) (engine : AutocompleteEngine)
    (aborted : nat -> bool) (draw : nat -> Q)
    (inputIds : list Z) (options : GenerateOptions) (n m : nat) :
  (generate exp engine aborted draw inputIds (with_maxNewTokens n options)).1
  = take n
      (generate exp engine aborted draw inputIds
         (with_maxNewTokens (n + m) options)).1.
Proof.
  unfold generate.
  destruct (session engine) as [run |]; [| cbn [fst]; by rewrite take_nil].
  destruct (metadata engine) as [meta |]; [| cbn [fst]; by rewrite take_nil].
  cbn [with_maxNewTokens maxNewTokens temperature topK minConfidence
       repetitionPenalty default from_option id].
  apply run_steps_prefix.
Qed.



Example generate_no_candidates :
  generate exp_poly demo_engine never_raised (fun _ => 1 # 2) [2%Z]
    {| maxNewTokens := Some 4%nat; temperature := None; topK := Some 0%nat;
       minConfidence := None; repetitionPenalty := None |}
  = ([Undefined], Faulted).
Proof. vm_compute. reflexivity. Qed.

End Generation.

(** ** Strings and the character classes of the regular expressions *)

Module Text.

(** The code points of a string literal. *)
Definition str (s : String.string) : list N :=
  map Ascii.N_of_ascii (String.list_ascii_of_string s).

Arguments str s%_string.

(** [\s]: white space and line terminators. *)
Definition is_space (c : N) : bool :=
  ((9 <=? c) && (c <=? 13) || (c =? 32) || (c =? 160) || (c =? 5760)
   || (8192 <=? c) && (c <=? 8202) || (c =? 8232) || (c =? 8233)
   || (c =? 8239) || (c =? 8287) || (c =? 12288) || (c =? 65279))%N.

(** [[\r\n]]. *)
Definition is_newline (c : N) : bool := ((c =? 13) || (c =? 10))%N.

(** The longest prefix of characters in a class, and what follows it. *)
Fixpoint span (p : N -> bool) (s : list N) : list N * list N :=
  match s with
  | [] => ([], [])
  | c :: s' =>
      if p c then let '(a, b) := span p s' in (c :: a, b) else ([], s)
  end.

(** [s.replace(/[\r\n]+/g, " ")]: one space for each run of line
    breaks; [in_run] tells that the character before was one of the run. *)
Fixpoint flatten_from (in_run : bool) (s : list N) : list N :=
  match s with
  | [] => []
  | c :: s' =>
      if is_newline c then
        if in_run then flatten_from true s' else 32%N :: flatten_from true s'
      else c :: flatten_from false s'
  end.

Definition flatten_newlines (s : list N) : list N := flatten_from false s.

(** [s.replace(/\s+$/, "")]. *)
Fixpoint trim_end (s : list N) : list N :=
  match s with
  | [] => []
  | c :: s' =>
      match trim_end s' with
      | [] => if is_space c then [] else [c]
      | t => c :: t
      end
  end.

(** [s.trim()]. *)
Definition trim (s : list N) : list N := trim_end (span is_space s).2.

Definition endsWith_space (s : list N) : bool :=
  match last s with Some c => (c =? 32)%N | None => false end.

Definition startsWith_space (s : list N) : bool :=
  match s with c :: _ => (c =? 32)%N | [] => false end.

End Text.

(** ** Suggestion acceptance of the terminal client (index.ts) *)

Module Coordinator.

Import Text.

(** The module-level variables the Tab key touches.  [autocompleteTimer]
    holds the text a generation is scheduled for, [isGenerating] stands
    for a run in flight with its abort controller. *)
Record State := {
  input : list N;
  suggestion : list N;
  autocompleteTimer : option (list N);
  isGenerating : bool;
  engineLoaded : bool
}.

Definition set_suggestion (s : list N) (st : State) : State :=
  {| input := input st; suggestion := s;
     autocompleteTimer := autocompleteTimer st;
     isGenerating := isGenerating st; engineLoaded := engineLoaded st |}.

Definition set_input (s : list N) (st : State) : State :=
  {| input := s; suggestion := suggestion st;
     autocompleteTimer := autocompleteTimer st;
     isGenerating := isGenerating st; engineLoaded := engineLoaded st |}.

Definition cancelAutocomplete (st : State) : State :=
  {| input := input st; suggestion := suggestion st;
     autocompleteTimer := None; isGenerating := false;
     engineLoaded := engineLoaded st |}.

Definition requestAutocomplete (text : list N) (st : State) : State :=
  let st := set_suggestion [] (cancelAutocomplete st) in
  let trimmed := trim text in
  match trimmed with
  | [] => st
  | _ =>
      if engineLoaded st then
        {| input := input st; suggestion := suggestion st;
           autocompleteTimer := Some trimmed;
           isGenerating := isGenerating st; engineLoaded := engineLoaded st |}
      else st
  end.

(** [suggestion.match(/^\s*\S+\s*/)]: the text matched, if any.  Each of
    the three greedy runs takes all it can, and the match fails exactly
    when no character outside [\s] follows the leading run. *)
Definition match_next_word (s : list N) : option (list N) :=
  let '(lead, rest) := span is_space s in
  let '(word, rest') := span (fun c => negb (is_space c)) rest in
  match word with
  | [] => None
  | _ => Some (lead ++ word ++ (span is_space rest').1)
  end.

(** [acceptSuggestion]: the text to append, and the state with the
    suggestion shortened. *)
Definition acceptSuggestion (st : State) : list N * State :=
  match suggestion st with
  | [] => ([], st)
  | _ =>
      let rawAccepted := default (suggestion st) (match_next_word (suggestion st)) in
      let remaining := drop (length rawAccepted) (suggestion st) in
      let st' := set_suggestion remaining st in
      let accepted := trim_end (flatten_newlines rawAccepted) in
      match accepted with
      | [] => ([], st')
      | _ =>
          if (0 <? length remaining)%nat then (accepted ++ [32%N], st')
          else (accepted, st')
      end
  end.

(** The Tab branch of [handleKey]. *)
Definition handleTab (st : State) : State :=
  match suggestion st with
  | [] => st
  | _ =>
      let '(accepted, st1) := acceptSuggestion st in
      let accepted :=
        if endsWith_space (input st1) && startsWith_space accepted
        then drop 1 accepted else accepted in
      let st2 := set_input (input st1 ++ accepted) st1 in
      match suggestion st2 with
      | [] => requestAutocomplete (input st2) st2
      | _ => st2
      end
  end.

Lemma span_app (p : N -> bool) (s : list N) :
  s = (span p s).1 ++ (span p s).2 /\
  Forall (fun c => p c = true) (span p s).1 /\
  (forall c rest, (span p s).2 = c :: rest -> p c = false).
Proof.
  induction s as [| c s IH]; cbn [span].
  - repeat split; [constructor | discriminate].
  - destruct (p c) eqn:E.
    + destruct (span p s) as [a b]. cbn [fst snd] in *.
      destruct IH as (Hs & Ha & Hb). repeat split.
      * cbn [app]. congruence.
      * constructor; assumption.
      * exact Hb.
    + cbn [fst snd app]. repeat split; [constructor |].
      intros c' rest H. injection H as <- _. exact E.
Qed.

(** What [acceptSuggestion] takes off the suggestion is a prefix of it
    that ends where the white space after the first word ends: what
    remains is empty or starts with a character that is not white
    space. *)
Lemma match_next_word_prefix (s m : list N) :
  match_next_word s = Some m ->
  exists rest, s = m ++ rest /\
    (forall c rest', rest = c :: rest' -> is_space c = false).
Proof.
  unfold match_next_word. intros H.
  pose proof (span_app is_space s) as (Hs & _ & _).
  destruct (span is_space s) as [lead rest]. cbn [fst snd] in Hs.
  pose proof (span_app (fun c => negb (is_space c)) rest) as (Hr & _ & _).
  destruct (span (fun c => negb (is_space c)) rest) as [word rest'].
  cbn [fst snd] in Hr.
  pose proof (span_app is_space rest') as (Hr' & _ & Hnext).
  destruct word as [| c word]; [discriminate |]. injection H as <-.
  exists (span is_space rest').2. split; [| exact Hnext].
  rewrite Hs, Hr, Hr' at 1.
  rewrite <- !app_assoc. cbn [app]. rewrite <- ?app_assoc. reflexivity.
Qed.

(** C8, as the claim states it, fails when the input does not end with a
    space: the text appended is [" world "], with its leading space. *)
Lemma accept_word_counterexample :
  let st := {| input := str "hello"; suggestion := str " world peace now";
               autocompleteTimer := None; isGenerating := false;
               engineLoaded := true |} in
  input (handleTab st) = str "hello world " /\
  input (handleTab st) <> input st ++ str "world ".
Proof.
  split; [reflexivity |]. vm_compute. discriminate.
Qed.

(** C8 (amended): with the pending suggestion [" world peace now"],
    accepting one word leaves the pending suggestion ["peace now"] and
    appends [" world "] to the input, or ["world "] when the input
    already ends with a space; the suggestion is not empty afterwards, so
    no generation is scheduled by the acceptance. *)
Theorem accept_word_example (st : State) :
  suggestion st = str " world peace now" ->
  suggestion (handleTab st) = str "peace now" /\
  input (handleTab st)
  = input st ++ (if endsWith_space (input st) then str "world " else str " world ") /\
  (acceptSuggestion st).1 = str " world " /\
  autocompleteTimer (handleTab st) = autocompleteTimer st.
Proof.
  intros Hs.
  assert (acceptSuggestion st
          = (str " world ", set_suggestion (str "peace now") st)) as Hacc.
  { unfold acceptSuggestion. rewrite Hs. reflexivity. }
  unfold handleTab. rewrite Hacc, Hs.
  change (input (set_suggestion (str "peace now") st)) with (input st).
  change (startsWith_space (str " world ")) with true.
  destruct (endsWith_space (input st)); repeat split; reflexivity.
Qed.

Lemma accept_word_example_witness :
  let st := {| input := str "hello "; suggestion := str " world peace now";
               autocompleteTimer := None; isGenerating := false;
               engineLoaded := true |} in
  suggestion st = str " world peace now" /\
  suggestion (handleTab st) = str "peace now" /\
  input (handleTab st) = str "hello world ".
Proof.
  intros st. split; [reflexivity |].
  destruct (accept_word_example st eq_refl) as (H1 & H2 & _).
  split; [exact H1 | exact H2].
Defined.

End Coordinator.

(** ** UTF-8 as [TextEncoder] and [TextDecoder] implement it *)

Module Utf8.

Local Open Scope N_scope.

Definition is_surrogate (c : N) : bool := (55296 <=? c) && (c <=? 57343).

(** A code point a string can hold that is not a lone surrogate. *)
Definition is_scalar (c : N) : bool := (c <? 1114112) && negb (is_surrogate c).

(** The bytes of one code point; a lone surrogate is written as U+FFFD. *)
Definition encode_cp (c : N) : list N :=
  let c := if is_surrogate c then 65533 else c in
  if c <? 128 then [c]
  else if c <? 2048 then [192 + c / 64; 128 + c mod 64]
  else if c <? 65536 then
    [224 + c / 4096; 128 + (c / 64) mod 64; 128 + c mod 64]
  else
    [240 + c / 262144; 128 + (c / 4096) mod 64; 128 + (c / 64) mod 64;
     128 + c mod 64].

(** [new TextEncoder().encode(text)]. *)
Definition encode (text : list N) : list N := concat (map encode_cp text).

(** The state of the decoder between bytes: the code point under
    construction, the continuation bytes still needed, and the range the
    next byte must lie in. *)
Record Pending := {
  code_point : N;
  bytes_needed : nat;
  lower : N;
  upper : N
}.

(** A byte met while no sequence is open: a code point, an opened
    sequence, or an error. *)
Definition lead (b : N) : list N * option Pending :=
  if b <=? 127 then ([b], None)
  else if (194 <=? b) && (b <=? 223) then
    ([], Some {| code_point := b - 192; bytes_needed := 1; lower := 128; upper := 191 |})
  else if (224 <=? b) && (b <=? 239) then
    ([], Some {| code_point := b - 224; bytes_needed := 2;
                 lower := if b =? 224 then 160 else 128;
                 upper := if b =? 237 then 159 else 191 |})
  else if (240 <=? b) && (b <=? 244) then
    ([], Some {| code_point := b - 240; bytes_needed := 3;
                 lower := if b =? 240 then 144 else 128;
                 upper := if b =? 244 then 143 else 191 |})
  else ([65533], None).

(** The decoder over the rest of the input: a byte outside the expected
    range closes the open sequence with U+FFFD and is read again as a
    lead byte; the end of input inside a sequence gives U+FFFD. *)
Fixpoint decode_from (st : option Pending) (bytes : list N) : list N :=
  match bytes with
  | [] => match st with None => [] | Some _ => [65533] end
  | b :: rest =>
      match st with
      | None =>
          let '(out, st') := lead b in out ++ decode_from st' rest
      | Some p =>
          if (lower p <=? b) && (b <=? upper p) then
            let cp := code_point p * 64 + (b - 128) in
            match bytes_needed p with
            | 1%nat | 0%nat => cp :: decode_from None rest
            | S n =>
                decode_from
                  (Some {| code_point := cp; bytes_needed := n;
                           lower := 128; upper := 191 |}) rest
            end
          else
            let '(out, st') := lead b in
            65533 :: out ++ decode_from st' rest
      end
  end.

(** [new TextDecoder().decode(bytes)]: a byte order mark at the start is
    dropped. *)
Definition decode (bytes : list N) : list N :=
  match bytes with
  | b0 :: b1 :: b2 :: rest =>
      if (b0 =? 239) && (b1 =? 187) && (b2 =? 191) then decode_from None rest
      else decode_from None bytes
  | _ => decode_from None bytes
  end.

Example decode_euro : decode [226; 130; 172; 33] = [8364; 33].
Proof. reflexivity. Qed.

Example encode_euro : encode [8364; 33] = [226; 130; 172; 33].
Proof. reflexivity. Qed.

Example decode_truncated : decode [97; 226; 130] = [97; 65533].
Proof. reflexivity. Qed.

Example decode_overlong : decode [192; 128] = [65533; 65533].
Proof. reflexivity. Qed.

Lemma digits2 (c : N) :
  exists q r, c = 64 * q + r /\ r < 64 /\ c / 64 = q /\ c mod 64 = r.
Proof.
  exists (c / 64), (c mod 64). repeat split.
  - apply N.div_mod. discriminate.
  - apply N.mod_lt. discriminate.
Qed.

Lemma digits3 (c : N) :
  exists a b d, c = 4096 * a + 64 * b + d /\ b < 64 /\ d < 64 /\
    c / 4096 = a /\ (c / 64) mod 64 = b /\ c mod 64 = d.
Proof.
  destruct (digits2 c) as (q & d & Hc & Hd & Eq & Ed).
  destruct (digits2 q) as (a & b & Hq & Hb & Ea & Eb).
  exists a, b, d. rewrite Eq, Ed, Eb.
  change 4096 with (64 * 64) at 2. rewrite <- N.Div0.div_div, Eq, Ea.
  repeat split; try assumption. lia.
Qed.

Lemma digits4 (c : N) :
  exists a b d e, c = 262144 * a + 4096 * b + 64 * d + e /\
    b < 64 /\ d < 64 /\ e < 64 /\
    c / 262144 = a /\ (c / 4096) mod 64 = b /\ (c / 64) mod 64 = d /\
    c mod 64 = e.
Proof.
  destruct (digits3 c) as (q & d & e & Hc & Hd & He & Eq & Ed & Ee).
  destruct (digits2 q) as (a & b & Hq & Hb & Ea & Eb).
  exists a, b, d, e. rewrite Eq, Ed, Ee, Eb.
  change 262144 with (4096 * 64) at 2. rewrite <- N.Div0.div_div, Eq, Ea.
  repeat split; try assumption. lia.
Qed.

Ltac resolve_test :=
  match goal with
  | |- context [N.eqb ?a ?b] =>
      first [ rewrite (proj2 (N.eqb_eq a b)) by lia
            | rewrite (proj2 (N.eqb_neq a b)) by lia ]
  | |- context [N.leb ?a ?b] =>
      first [ rewrite (proj2 (N.leb_le a b)) by lia
            | rewrite (proj2 (N.leb_gt a b)) by lia ]
  end.

Ltac run_decoder :=
  repeat (cbn [app decode_from andb code_point bytes_needed lower upper];
          unfold lead; repeat resolve_test).

Lemma is_scalar_spec (c : N) :
  is_scalar c = true <-> c < 1114112 /\ is_surrogate c = false.
Proof.
  unfold is_scalar. rewrite andb_true_iff, negb_true_iff, N.ltb_lt. reflexivity.
Qed.

Lemma decode_encode_cp (c : N) (rest : list N) :
  is_scalar c = true ->
  decode_from None (encode_cp c ++ rest) = c :: decode_from None rest.
Proof.
  intros Hc. apply is_scalar_spec in Hc. destruct Hc as [Hlt Hsur].
  unfold encode_cp. rewrite Hsur.
  unfold is_surrogate in Hsur. apply andb_false_iff in Hsur.
  rewrite N.leb_gt, N.leb_gt in Hsur.
  destruct (N.ltb_spec c 128) as [L1 | L1];
    [ | destruct (N.ltb_spec c 2048) as [L2 | L2];
        [ | destruct (N.ltb_spec c 65536) as [L3 | L3] ] ].
  - run_decoder. reflexivity.
  - destruct (digits2 c) as (q & r & Hc & Hr & -> & ->).
    run_decoder. f_equal. lia.
  - destruct (digits3 c) as (a & b & d & Hc & Hb & Hd & -> & -> & ->).
    assert (a = 0 \/ a = 13 \/ (a <> 0 /\ a <> 13)) as [-> | [-> | [H0 H13]]] by lia;
      run_decoder; f_equal; lia.
  - destruct (digits4 c) as (a & b & d & e & Hc & Hb & Hd & He & -> & -> & -> & ->).
    assert (a = 0 \/ a = 4 \/ (a <> 0 /\ a <> 4)) as [-> | [-> | [H0 H4]]] by lia;
      run_decoder; f_equal; lia.
Qed.

Lemma decode_from_encode (text : list N) :
  Forall (fun c => is_scalar c = true) text ->
  decode_from None (encode text) = text.
Proof.
  induction 1 as [| c text Hc _ IH]; [reflexivity |].
  unfold encode. cbn [map concat]. fold (encode text).
  rewrite decode_encode_cp by exact Hc. rewrite IH. reflexivity.
Qed.

(** Only U+FEFF is written as the three bytes of the byte order mark. *)
Lemma encode_cp_no_mark (c : N) (rest : list N) :
  is_scalar c = true -> c <> 65279 ->
  decode (encode_cp c ++ rest) = decode_from None (encode_cp c ++ rest).
Proof.
  intros Hc Hne. apply is_scalar_spec in Hc. destruct Hc as [Hlt Hsur].
  unfold encode_cp. rewrite Hsur. unfold decode.
  destruct (N.ltb_spec c 128) as [L1 | L1];
    [ | destruct (N.ltb_spec c 2048) as [L2 | L2];
        [ | destruct (N.ltb_spec c 65536) as [L3 | L3] ] ].
  - cbn [app]. destruct rest as [| b1 [| b2 rest]]; try reflexivity.
    rewrite (proj2 (N.eqb_neq c 239)) by lia. reflexivity.
  - destruct (digits2 c) as (q & r & Hc & Hr & -> & ->). cbn [app].
    destruct rest as [| b2 rest]; [reflexivity |].
    rewrite (proj2 (N.eqb_neq (192 + q) 239)) by lia. reflexivity.
  - destruct (digits3 c) as (a & b & d & Hc & Hb & Hd & -> & -> & ->). cbn [app].
    destruct (N.eqb_spec (224 + a) 239) as [Ha | Ha]; [| reflexivity].
    destruct (N.eqb_spec (128 + b) 187) as [Hb' | Hb']; [| reflexivity].
    destruct (N.eqb_spec (128 + d) 191) as [Hd' | Hd']; [| reflexivity].
    exfalso. lia.
  - destruct (digits4 c) as (a & b & d & e & Hc & Hb & Hd & He & -> & -> & -> & ->).
    cbn [app]. rewrite (proj2 (N.eqb_neq (240 + a) 239)) by lia. reflexivity.
Qed.

(** Decoding what the encoder wrote gives the text back, unless the text
    starts with U+FEFF, which the decoder takes for a byte order mark. *)
Lemma decode_encode (text : list N) :
  Forall (fun c => is_scalar c = true) text ->
  head text <> Some 65279 ->
  decode (encode text) = text.
Proof.
  intros Hall Hhead. destruct text as [| c text].
  - reflexivity.
  - pose proof (decode_from_encode (c :: text) Hall) as Hd.
    unfold encode in *. cbn [map concat] in *.
    rewrite encode_cp_no_mark; [exact Hd | |].
    + apply Forall_cons in Hall. tauto.
    + intros ->. apply Hhead. reflexivity.
Qed.

Example decode_mark : decode (encode [65279; 97]) = [97].
Proof. reflexivity. Qed.

End Utf8.

(** ** Tokenizer (tokenizer.ts) *)

Module Tokenizer.

Import Text.

(** *** The byte-to-character table *)

(** [for (let i = a; i <= b; i++)]. *)
Definition range (a b : nat) : list N := map N.of_nat (seq a (S b - a)).

Definition initial_bs : list N := range 33 126 ++ range 161 172 ++ range 174 255.

(** The body of [for (let b = 0; b < 256; b++)] over [(bs, cs, n)]. *)
Definition add_missing (acc : list N * list N * N) (b : N) : list N * list N * N :=
  let '(bs, cs, n) := acc in
  if bool_decide (b ∈ bs) then acc
  else (bs ++ [b], cs ++ [256 + n]%N, (n + 1)%N).

Definition byte_lists : list N * list N :=
  let '(bs, cs, _) := fold_left add_missing (range 0 255) (initial_bs, initial_bs, 0%N) in
  (bs, cs).

(** [BYTE_TO_UNICODE] and [UNICODE_TO_BYTE] after [initByteToUnicode]; a
    character of the table is a single code unit and is kept as its number. *)
Definition BYTE_TO_UNICODE : gmap N N :=
  fold_left (fun m '(b, c) => <[b := c]> m) (zip byte_lists.1 byte_lists.2) ∅.

Definition UNICODE_TO_BYTE : gmap N N :=
  fold_left (fun m '(b, c) => <[c := b]> m) (zip byte_lists.1 byte_lists.2) ∅.

(** *** The tokenizer object *)

Record SpecialTokens := { pad : Z; unk : Z; bos : Z; eos : Z }.

Record Tokenizer := {
  vocab : gmap (list N) Z;
  reverseVocab : gmap Z (list N);
  merges : gmap (list N) nat;
  specialTokens : SpecialTokens;
  loaded : bool
}.

(** [new Tokenizer()]. *)
Definition new_tokenizer : Tokenizer :=
  {| vocab := ∅; reverseVocab := ∅; merges := ∅;
     specialTokens := {| pad := 0; unk := 1; bos := 2; eos := 3 |};
     loaded := false |}.

(** The parsed tokenizer file: the entries of [model.vocab], the pairs of
    [model.merges], and content and id of each added token. *)
Record TokenizerData := {
  model_vocab : option (list (list N * Z));
  model_merges : option (list (list N * list N));
  added_tokens : list (list N * Z)
}.

(** The key [`${a} ${b}`] of a pair in [merges]. *)
Definition merge_key (a b : list N) : list N := a ++ 32%N :: b.

Definition add_special (st : SpecialTokens) (token : list N * Z) : SpecialTokens :=
  let '(content, id) := token in
  let st := if bool_decide (content = str "<pad>")
            then {| pad := id; unk := unk st; bos := bos st; eos := eos st |} else st in
  let st := if bool_decide (content = str "<unk>")
            then {| pad := pad st; unk := id; bos := bos st; eos := eos st |} else st in
  let st := if bool_decide (content = str "<bos>")
            then {| pad := pad st; unk := unk st; bos := id; eos := eos st |} else st in
  if bool_decide (content = str "<eos>")
  then {| pad := pad st; unk := unk st; bos := bos st; eos := id |} else st.

(** [load], from the parsed file on. *)
Definition load (data : TokenizerData) (tk : Tokenizer) : Tokenizer :=
  if loaded tk then tk
  else
    let entries := default [] (model_vocab data) in
    let pairs := default [] (model_merges data) in
    {| vocab := fold_left (fun m '(token, id) => <[token := id]> m) entries (vocab tk);
       reverseVocab :=
         fold_left (fun m '(token, id) => <[id := token]> m) entries (reverseVocab tk);
       merges :=
         fold_left (fun m '(index, (a, b)) => <[merge_key a b := index]> m)
           (imap (fun index p => (index, p)) pairs) (merges tk);
       specialTokens := fold_left add_special (added_tokens data) (specialTokens tk);
       loaded := true |}.

(** *** Byte-pair merging *)

(** [textToBytes]: a byte without an entry would join as the empty
    string. *)
Definition textToBytes (text : list N) : list N :=
  omap (fun b => BYTE_TO_UNICODE !! b) (Utf8.encode text).

Definition getPairs (word : list (list N)) : list (list N * list N) :=
  zip word (drop 1 word).

(** The body of [for (const pair of pairs)] over [(minPair, minRank)];
    the rank [None] is [Infinity]. *)
Definition min_step (merges : gmap (list N) nat)
    (acc : option (list N * list N) * option nat) (pair : list N * list N) :
    option (list N * list N) * option nat :=
  match merges !! merge_key pair.1 pair.2 with
  | Some rank =>
      if match acc.2 with Some m => (rank <? m)%nat | None => true end
      then (Some pair, Some rank) else acc
  | None => acc
  end.

Definition find_min_pair (merges : gmap (list N) nat)
    (pairs : list (list N * list N)) : option (list N * list N) :=
  (fold_left (min_step merges) pairs (None, None)).1.

(** [word.indexOf(x, i)]; [None] is [-1]. *)
Definition indexOf (x : list N) (word : list (list N)) (i : nat) : option nat :=
  (fun r => (i + r.1)%nat) <$> list_find (fun y => y = x) (drop i word).

(** The loop [while (i < word.length)] that merges one pair; [None] is
    an exhausted iteration budget. *)
Fixpoint merge_loop (fuel : nat) (first second : list N)
    (word newWord : list (list N)) (i : nat) : option (list (list N)) :=
  match fuel with
  | O => None
  | S fuel' =>
      if (i <? length word)%nat then
        match indexOf first word i with
        | None => Some (newWord ++ drop i word)
        | Some j =>
            let newWord := newWord ++ take (j - i) (drop i word) in
            if (j <? length word - 1)%nat
               && bool_decide (word !! (j + 1)%nat = Some second)
            then merge_loop fuel' first second word
                   (newWord ++ [first ++ second]) (j + 2)
            else merge_loop fuel' first second word
                   (newWord ++ [default first (word !! j)]) (j + 1)
        end
      else Some newWord
  end.

Definition merge_pass (first second : list N) (word : list (list N)) :
    option (list (list N)) :=
  merge_loop (S (length word)) first second word [] 0.

(** The loop [while (true)] of [bpe]; [None] is an exhausted iteration
    budget. *)
Fixpoint bpe_loop (merges : gmap (list N) nat) (fuel : nat)
    (word : list (list N)) (pairs : list (list N * list N)) :
    option (list (list N)) :=
  match fuel with
  | O => None
  | S fuel' =>
      match find_min_pair merges pairs with
      | None => Some word
      | Some (first, second) =>
          match merge_pass first second word with
          | None => None
          | Some newWord =>
              if (length newWord =? 1)%nat then Some newWord
              else bpe_loop merges fuel' newWord (getPairs newWord)
          end
      end
  end.

Definition bpe (tk : Tokenizer) (token : list N) : option (list (list N)) :=
  if bool_decide (is_Some (vocab tk !! token)) then Some [token]
  else
    let word := map (fun c => [c]) token in
    if (length word =? 0)%nat then Some []
    else
      let pairs := getPairs word in
      if (length pairs =? 0)%nat then Some [token]
      else bpe_loop (merges tk) (length word) word pairs.

Definition tokenizeWord (tk : Tokenizer) (word : list N) : option (list Z) :=
  bpeTokens ← bpe tk (textToBytes word);
  Some (map (fun token => default (unk (specialTokens tk)) (vocab tk !! token))
          bpeTokens).

(** *** Pre-tokenization

    The pattern
    ['(?:[sdmt]|ll|ve|re)| ?\p{L}+| ?\p{N}+| ?[^\s\p{L}\p{N}]+|[\r\n]\s{0,3}|\s+$]
    with the flags [g] and [u], over the code points of the text.  The
    tables behind [\p{L}] and [\p{N}] belong to the engine and are taken
    as given. *)

Section Pattern.

Variable isL : N -> bool.
Variable isN : N -> bool.

(** [C+] at the start of [s]: the longest run, if not empty. *)
Definition run_of (p : N -> bool) (s : list N) : option (list N) :=
  match (span p s).1 with
  | [] => None
  | run => Some run
  end.

(** [ ?C+] at the start of [s]: with the space taken first, then
    without it. *)
Definition opt_space_run (p : N -> bool) (s : list N) : option (list N) :=
  match s with
  | c :: rest =>
      if (c =? 32)%N then
        match run_of p rest with
        | Some run => Some (c :: run)
        | None => run_of p s
        end
      else run_of p s
  | [] => None
  end.

(** ['(?:[sdmt]|ll|ve|re)]. *)
Definition contraction (s : list N) : option (list N) :=
  match s with
  | q :: c :: rest =>
      if (q =? 39)%N then
        if ((c =? 115) || (c =? 100) || (c =? 109) || (c =? 116))%N
        then Some [q; c]
        else
          match rest with
          | d :: _ =>
              if ((c =? 108) && (d =? 108) || (c =? 118) && (d =? 101)
                  || (c =? 114) && (d =? 101))%N
              then Some [q; c; d] else None
          | [] => None
          end
      else None
  | _ => None
  end.

(** [[^\s\p{L}\p{N}]]. *)
Definition is_other (c : N) : bool := negb (is_space c || isL c || isN c).

(** [[\r\n]\s{0,3}]. *)
Definition newline_run (s : list N) : option (list N) :=
  match s with
  | c :: rest =>
      if is_newline c then Some (c :: take 3 (span is_space rest).1) else None
  | [] => None
  end.

(** [\s+$]: white space up to the end of the text. *)
Definition trailing_space (s : list N) : option (list N) :=
  match span is_space s with
  | (c :: run, []) => Some (c :: run)
  | _ => None
  end.

(** The first alternative that matches at the start of [s]. *)
Definition match_at (s : list N) : option (list N) :=
  match contraction s with
  | Some m => Some m
  | None =>
  match opt_space_run isL s with
  | Some m => Some m
  | None =>
  match opt_space_run isN s with
  | Some m => Some m
  | None =>
  match opt_space_run is_other s with
  | Some m => Some m
  | None =>
  match newline_run s with
  | Some m => Some m
  | None => trailing_space s
  end end end end end.

(** [text.match(pattern)]: [skip] counts the characters of the current
    match still to pass over; where nothing matches the search moves on
    by one character. *)
Fixpoint scan (s : list N) (skip : nat) : list (list N) :=
  match s with
  | [] => []
  | _ :: s' =>
      match skip with
      | S k => scan s' k
      | O =>
          match match_at s with
          | Some m => m :: scan s' (length m - 1)
          | None => scan s' 0
          end
      end
  end.

Definition pretokenize (text : list N) : list (list N) := scan text 0.

(** The loop [while (tokens.length < maxLength)], entered with
    [n = maxLength - tokens.length] rounds to go. *)
Fixpoint pad_loop (n : nat) (padId : Z) (tokens attentionMask : list Z) :
    list Z * list Z :=
  match n with
  | O => (tokens, attentionMask)
  | S n' => pad_loop n' padId (tokens ++ [padId]) (attentionMask ++ [0%Z])
  end.

(** [encode]: [inputIds] and [attentionMask]. *)
Definition encode (tk : Tokenizer) (text : list N) (maxLength : nat) :
    option (list Z * list Z) :=
  words ← mapM (tokenizeWord tk) (pretokenize text);
  let tokens := bos (specialTokens tk) :: concat words ++ [eos (specialTokens tk)] in
  let tokens :=
    if (maxLength <? length tokens)%nat then take maxLength tokens else tokens in
  let attentionMask := replicate (length tokens) 1%Z in
  Some (pad_loop (maxLength - length tokens) (pad (specialTokens tk))
          tokens attentionMask).

Definition encodeForGeneration (tk : Tokenizer) (text : list N) : option (list Z) :=
  words ← mapM (tokenizeWord tk) (pretokenize text);
  Some (bos (specialTokens tk) :: concat words).

End Pattern.

Definition is_special (st : SpecialTokens) (id : Z) : bool :=
  ((id =? pad st) || (id =? bos st) || (id =? eos st) || (id =? unk st))%Z.

(** [decode]. *)
Definition decode (tk : Tokenizer) (tokenIds : list Z) : list N :=
  let tokens :=
    omap (fun id => if is_special (specialTokens tk) id then None
                    else reverseVocab tk !! id) tokenIds in
  let byteValues :=
    concat (map (fun token => omap (fun char => UNICODE_TO_BYTE !! char) token)
              tokens) in
  Utf8.decode byteValues.

(** [\p{L}] and [\p{N}] on ASCII text: the letters and the digits. *)
Definition ascii_letter (c : N) : bool :=
  ((65 <=? c) && (c <=? 90) || (97 <=? c) && (c <=? 122))%N.

Definition ascii_digit (c : N) : bool := ((48 <=? c) && (c <=? 57))%N.

(** A tokenizer file with the symbols of a few ASCII words and two
    merges. *)
Definition demo_data : TokenizerData :=
  {| model_vocab :=
       Some [(str "<pad>", 0%Z); (str "<unk>", 1%Z); (str "<bos>", 2%Z);
             (str "<eos>", 3%Z); (str "a", 4%Z); (str "b", 5%Z);
             ([288%N], 6%Z); (str "ab", 7%Z); ([288%N; 98%N], 8%Z);
             (str "c", 9%Z)];
     model_merges := Some [(str "a", str "b"); ([288%N], str "b")];
     added_tokens :=
       [(str "<pad>", 0%Z); (str "<unk>", 1%Z); (str "<bos>", 2%Z);
        (str "<eos>", 3%Z)] |}.

Definition demo_tokenizer : Tokenizer := load demo_data new_tokenizer.

Example pretokenize_demo :
  pretokenize ascii_letter ascii_digit (str "don't  stop 42!")
  = [str "don"; str "'t"; str " stop"; str " 42"; str "!"].
Proof. vm_compute. reflexivity. Qed.

Example bpe_demo : bpe demo_tokenizer (str "aabc") = Some [str "a"; str "ab"; str "c"].
Proof. vm_compute. reflexivity. Qed.

Example encode_demo :
  encode ascii_letter ascii_digit demo_tokenizer (str "ab b") 6
  = Some ([2; 7; 8; 3; 0; 0]%Z, [1; 1; 1; 1; 0; 0]%Z).
Proof. vm_compute. reflexivity. Qed.

Example decode_demo :
  decode demo_tokenizer [2; 7; 8; 3; 0; 0]%Z = str "ab b".
Proof. vm_compute. reflexivity. Qed.

(** *** Termination of the merge loops *)

Lemma indexOf_Some x word i j :
  indexOf x word i = Some j ->
  (i <= j < length word)%nat /\ word !! j = Some x.
Proof.
  unfold indexOf. intros H.
  destruct (list_find _ _) as [[k y] |] eqn:E; [| discriminate].
  injection H as <-. apply list_find_Some in E. destruct E as (Hk & -> & _).
  rewrite lookup_drop in Hk. cbn [fst]. split; [| exact Hk].
  apply lookup_lt_Some in Hk. lia.
Qed.

Lemma indexOf_None x word i k :
  indexOf x word i = None -> (i <= k)%nat -> word !! k <> Some x.
Proof.
  unfold indexOf. intros H Hik Hk.
  destruct (list_find _ _) as [[k' y] |] eqn:E; [discriminate |].
  apply list_find_None in E. rewrite Forall_forall in E.
  apply (E x); [| reflexivity].
  apply list_elem_of_lookup. exists (k - i)%nat.
  rewrite lookup_drop. replace (i + (k - i))%nat with k by lia. exact Hk.
Qed.

Lemma indexOf_first x word i j k :
  indexOf x word i = Some j -> (i <= k < j)%nat -> word !! k <> Some x.
Proof.
  unfold indexOf. intros H Hk Hx.
  destruct (list_find _ _) as [[k' y] |] eqn:E; [| discriminate].
  injection H as <-. cbn [fst] in Hk.
  apply list_find_Some in E. destruct E as (_ & _ & Hmin).
  apply (Hmin (k - i)%nat x); [| lia | reflexivity].
  rewrite lookup_drop. replace (i + (k - i))%nat with k by lia. exact Hx.
Qed.

(** The pair occurs in [word] at some position from [i] on. *)
Definition adjacent_from (first second : list N) (word : list (list N)) (i : nat) : Prop :=
  exists p, (i <= p)%nat /\ word !! p = Some first /\ word !! S p = Some second.

(** With more rounds than symbols left the inner loop returns; it keeps
    the characters, never loses a symbol it has pushed, and ends shorter
    than it began if the pair is still to come. *)
Lemma merge_loop_spec first second word fuel newWord i :
  (length word - i < fuel)%nat ->
  exists result,
    merge_loop fuel first second word newWord i = Some result /\
    concat result = concat newWord ++ concat (drop i word) /\
    (length newWord <= length result <= length newWord + (length word - i))%nat /\
    ((i < length word)%nat -> (length newWord < length result)%nat) /\
    (adjacent_from first second word i ->
       (length result < length newWord + (length word - i))%nat).
Proof.
  revert newWord i. induction fuel as [| fuel IH]; intros newWord i Hfuel; [lia |].
  cbn [merge_loop]. destruct (Nat.ltb_spec i (length word)) as [Hi | Hi].
  2: { exists newWord. split; [reflexivity |].
       rewrite drop_ge by lia. rewrite app_nil_r.
       split; [reflexivity |]. split; [lia |]. split; [lia |].
       intros (p & Hp & Hf & _). apply lookup_lt_Some in Hf. lia. }
  destruct (indexOf first word i) as [j |] eqn:Ej.
  2: { exists (newWord ++ drop i word). split; [reflexivity |].
       rewrite concat_app. split; [reflexivity |].
       rewrite length_app, length_drop. split; [lia |]. split; [lia |].
       intros (p & Hp & Hf & _). exfalso.
       exact (indexOf_None _ _ _ p Ej Hp Hf). }
  pose proof (indexOf_Some _ _ _ _ Ej) as [[Hij Hj] Hwj].
  assert (drop i word = take (j - i) (drop i word) ++ first :: drop (S j) word) as Hsplit.
  { rewrite <- (take_drop (j - i) (drop i word)) at 1. f_equal.
    rewrite drop_drop. replace (i + (j - i))%nat with j by lia.
    apply drop_S. exact Hwj. }
  assert (length (take (j - i) (drop i word)) = (j - i)%nat) as Htake.
  { rewrite length_take, length_drop. lia. }
  set (pre := take (j - i) (drop i word)) in *. clearbody pre.
  destruct ((j <? length word - 1)%nat
            && bool_decide (word !! (j + 1)%nat = Some second)) eqn:Em.
  - apply andb_true_iff in Em. destruct Em as [Hj1 Hsec].
    apply Nat.ltb_lt in Hj1. apply bool_decide_eq_true in Hsec.
    replace (j + 1)%nat with (S j) in Hsec by lia.
    destruct (IH ((newWord ++ pre) ++ [first ++ second])
                (j + 2)%nat ltac:(lia))
      as (result & Hr & Hcat & Hlen & _ & _).
    exists result. split; [exact Hr |].
    rewrite !length_app, Htake in Hlen. cbn [length] in Hlen.
    split; [| split; [lia | split; lia]].
    rewrite Hcat, Hsplit. rewrite (drop_S word second (S j)) by exact Hsec.
    replace (j + 2)%nat with (S (S j)) by lia.
    rewrite !concat_app. cbn [concat]. rewrite app_nil_r, <- !app_assoc.
    reflexivity.
  - rewrite Hwj. cbn [default].
    destruct (IH ((newWord ++ pre) ++ [first])
                (j + 1)%nat ltac:(lia))
      as (result & Hr & Hcat & Hlen & _ & Hadj).
    exists result. split; [exact Hr |].
    rewrite !length_app, Htake in Hlen, Hadj. cbn [length] in Hlen, Hadj.
    split; [| split; [lia | split; [lia |]]].
    + rewrite Hcat, Hsplit. replace (j + 1)%nat with (S j) by lia.
      rewrite !concat_app. cbn [concat]. rewrite app_nil_r, <- !app_assoc.
      reflexivity.
    + intros (p & Hp & Hf & Hs).
      assert (j <= p)%nat as Hjp.
      { destruct (Nat.le_gt_cases j p) as [H | H]; [exact H |].
        exfalso. exact (indexOf_first _ _ _ _ p Ej ltac:(lia) Hf). }
      assert (p <> j) as Hne.
      { intros ->. apply andb_false_iff in Em. destruct Em as [Em | Em].
        - apply Nat.ltb_ge in Em. apply lookup_lt_Some in Hs. lia.
        - apply bool_decide_eq_false in Em. apply Em.
          replace (j + 1)%nat with (S j) by lia. exact Hs. }
      assert (adjacent_from first second word (j + 1)) as Hadj'.
      { exists p. split; [lia | split; assumption]. }
      specialize (Hadj Hadj'). lia.
Qed.

Lemma merge_pass_spec first second word :
  exists newWord,
    merge_pass first second word = Some newWord /\
    concat newWord = concat word /\
    (length newWord <= length word)%nat /\
    (word <> [] -> newWord <> []) /\
    (adjacent_from first second word 0 -> (length newWord < length word)%nat).
Proof.
  unfold merge_pass.
  destruct (merge_loop_spec first second word (S (length word)) [] 0 ltac:(lia))
    as (r & Hr & Hcat & Hlen & Hpos & Hadj).
  exists r. split; [exact Hr |]. cbn [length concat app] in *.
  rewrite drop_0 in Hcat. rewrite Nat.sub_0_r in *.
  split; [exact Hcat |]. split; [lia |]. split; [| exact Hadj].
  intros Hne ->. destruct word; [congruence |]. cbn [length] in Hpos. lia.
Qed.

Lemma getPairs_adjacent first second word :
  (first, second) ∈ getPairs word -> adjacent_from first second word 0.
Proof.
  unfold getPairs. intros H. apply list_elem_of_lookup in H. destruct H as [p Hp].
  apply lookup_zip_with_Some in Hp.
  destruct Hp as (x & y & Heq & Hx & Hy). injection Heq as <- <-.
  rewrite lookup_drop in Hy. exists p. split; [lia |]. split; assumption.
Qed.

Lemma min_fold_spec merges pairs acc :
  match (fold_left (min_step merges) pairs acc).1 with
  | Some pq =>
      (acc.1 = Some pq \/ pq ∈ pairs) /\
      (acc.1 = Some pq \/ is_Some (merges !! merge_key pq.1 pq.2))
  | None =>
      acc.1 = None /\
      (acc.2 = None ->
       forall pq, pq ∈ pairs -> merges !! merge_key pq.1 pq.2 = None)
  end.
Proof.
  revert acc. induction pairs as [| pr pairs IH]; intros acc; cbn [fold_left].
  - destruct acc.1; [tauto |]. split; [reflexivity |].
    intros _ pq Hin. apply elem_of_nil in Hin. contradiction.
  - specialize (IH (min_step merges acc pr)).
    destruct ((fold_left (min_step merges) pairs (min_step merges acc pr)).1)
      as [pq |].
    + destruct IH as [H1 H2]. unfold min_step in H1, H2.
      destruct (merges !! merge_key pr.1 pr.2) as [rank |] eqn:Er.
      * destruct (match acc.2 with Some m => (rank <? m)%nat | None => true end);
          cbn [fst] in *.
        -- split.
           ++ destruct H1 as [H1 | H1]; [injection H1 as <-; right; left |
                right; right; exact H1].
           ++ destruct H2 as [H2 | H2]; [injection H2 as <-; right; eauto |
                right; exact H2].
        -- split; [destruct H1; [left | right; right]; assumption | exact H2].
      * split; [destruct H1; [left | right; right]; assumption | exact H2].
    + destruct IH as [H1 H2]. unfold min_step in H1, H2.
      destruct (merges !! merge_key pr.1 pr.2) as [rank |] eqn:Er.
      * destruct acc as [mp [m |]]; cbn [fst snd] in *.
        -- destruct (rank <? m)%nat; cbn [fst snd] in *; [discriminate |].
           split; [exact H1 | discriminate].
        -- discriminate.
      * split; [exact H1 |]. intros Hnone pq Hin.
        apply elem_of_cons in Hin. destruct Hin as [-> | Hin]; [exact Er |].
        apply H2; assumption.
Qed.

Lemma find_min_pair_Some merges pairs first second :
  find_min_pair merges pairs = Some (first, second) ->
  (first, second) ∈ pairs /\ is_Some (merges !! merge_key first second).
Proof.
  unfold find_min_pair. intros H.
  pose proof (min_fold_spec merges pairs (None, None)) as Hs.
  rewrite H in Hs. cbn [fst snd] in Hs. destruct Hs as [[H1 | H1] [H2 | H2]];
    try discriminate. split; assumption.
Qed.

Lemma find_min_pair_None merges pairs :
  find_min_pair merges pairs = None <->
  forall pq, pq ∈ pairs -> merges !! merge_key pq.1 pq.2 = None.
Proof.
  unfold find_min_pair.
  pose proof (min_fold_spec merges pairs (None, None)) as Hs. split.
  - intros H. rewrite H in Hs. apply Hs. reflexivity.
  - intros Hall. destruct ((fold_left (min_step merges) pairs (None, None)).1)
      as [pq |]; [| reflexivity].
    cbn [fst] in Hs. destruct Hs as [[H1 | H1] [H2 | H2]]; try discriminate.
    rewrite (Hall pq H1) in H2. destruct H2 as [? H2]. discriminate.
Qed.

(** With as many rounds as symbols the outer loop returns, and what it
    returns spells the same characters. *)
Lemma bpe_loop_spec merges fuel word :
  (length word <= fuel)%nat -> word <> [] ->
  exists result,
    bpe_loop merges fuel word (getPairs word) = Some result /\
    concat result = concat word.
Proof.
  revert word. induction fuel as [| fuel IH]; intros word Hfuel Hne.
  - destruct word; [congruence | cbn [length] in Hfuel; lia].
  - cbn [bpe_loop].
    destruct (find_min_pair merges (getPairs word)) as [[first second] |] eqn:Emin.
    2: { exists word. split; reflexivity. }
    apply find_min_pair_Some in Emin. destruct Emin as [Hin _].
    apply getPairs_adjacent in Hin.
    destruct (merge_pass_spec first second word)
      as (newWord & -> & Hcat & _ & Hnonempty & Hshort).
    specialize (Hshort Hin). specialize (Hnonempty Hne).
    destruct (Nat.eqb_spec (length newWord) 1) as [H1 | H1].
    + exists newWord. split; [reflexivity | exact Hcat].
    + destruct (IH newWord ltac:(lia) Hnonempty) as (result & Hr & Hcat').
      exists result. split; [exact Hr | congruence].
Qed.

Lemma concat_singletons (token : list N) : concat (map (fun c => [c]) token) = token.
Proof. induction token as [| c token IH]; [reflexivity |]. cbn. by rewrite IH. Qed.

Lemma bpe_spec tk token :
  exists symbols, bpe tk token = Some symbols /\ concat symbols = token.
Proof.
  unfold bpe. destruct (bool_decide _).
  { exists [token]. split; [reflexivity |]. cbn [concat]. apply app_nil_r. }
  rewrite length_map.
  destruct token as [| c token]; [exists []; split; reflexivity |].
  cbn [length Nat.eqb].
  destruct (Nat.eqb_spec (length (getPairs (map (fun c => [c]) (c :: token)))) 0).
  { exists [c :: token]. split; [reflexivity |]. cbn [concat]. apply app_nil_r. }
  destruct (bpe_loop_spec (merges tk) (S (length token))
              (map (fun c => [c]) (c :: token))) as (result & Hr & Hcat).
  - rewrite length_map. reflexivity.
  - discriminate.
  - exists result. split; [exact Hr |]. rewrite Hcat. apply concat_singletons.
Qed.

(** C9: [bpe] returns for every input; every round of its loop that goes
    on has found an adjacent pq with a merge rank, and its merge pass
    returns a strictly shorter symbol sequence; the loop is left when no
    adjacent pq has a rank or one symbol remains. *)
Theorem bpe_terminates (tk : Tokenizer) (token : list N) :
  (exists symbols, bpe tk token = Some symbols) /\
  (forall word first second,
     find_min_pair (merges tk) (getPairs word) = Some (first, second) ->
     exists newWord,
       merge_pass first second word = Some newWord /\
       (length newWord < length word)%nat) /\
  (forall fuel word,
     find_min_pair (merges tk) (getPairs word) = None ->
     bpe_loop (merges tk) (S fuel) word (getPairs word) = Some word) /\
  (forall word,
     find_min_pair (merges tk) (getPairs word) = None <->
     forall pq, pq ∈ getPairs word ->
       merges tk !! merge_key pq.1 pq.2 = None) /\
  (forall fuel word first second newWord,
     find_min_pair (merges tk) (getPairs word) = Some (first, second) ->
     merge_pass first second word = Some newWord ->
     length newWord = 1%nat ->
     bpe_loop (merges tk) (S fuel) word (getPairs word) = Some newWord) /\
  (forall fuel word,
     (length word <= fuel)%nat -> word <> [] ->
     is_Some (bpe_loop (merges tk) fuel word (getPairs word))).
Proof.
  split; [| split; [| split; [| split; [| split]]]].
  - destruct (bpe_spec tk token) as (symbols & H & _). eauto.
  - intros word first second Hmin.
    apply find_min_pair_Some in Hmin. destruct Hmin as [Hin _].
    apply getPairs_adjacent in Hin.
    destruct (merge_pass_spec first second word) as (newWord & Hm & _ & _ & _ & Hs).
    exists newWord. split; [exact Hm | exact (Hs Hin)].
  - intros fuel word Hmin. cbn [bpe_loop]. rewrite Hmin. reflexivity.
  - intros word. apply find_min_pair_None.
  - intros fuel word first second newWord Hmin Hm H1.
    cbn [bpe_loop]. rewrite Hmin, Hm, H1. reflexivity.
  - intros fuel word Hfuel Hne.
    destruct (bpe_loop_spec (merges tk) fuel word Hfuel Hne) as (r & Hr & _).
    eauto.
Qed.

(** *** The fixed-length encoding *)

Lemma tokenizeWord_total tk w : is_Some (tokenizeWord tk w).
Proof.
  unfold tokenizeWord. destruct (bpe_spec tk (textToBytes w)) as (symbols & -> & _).
  cbn. eauto.
Qed.

Lemma words_total isL isN tk text :
  is_Some (mapM (tokenizeWord tk) (pretokenize isL isN text)).
Proof.
  apply mapM_is_Some. apply Forall_forall. intros w _. apply tokenizeWord_total.
Qed.

Lemma pad_loop_spec n padId tokens attentionMask :
  pad_loop n padId tokens attentionMask
  = (tokens ++ replicate n padId, attentionMask ++ replicate n 0%Z).
Proof.
  revert tokens attentionMask. induction n as [| n IH]; intros tokens attentionMask.
  - cbn. by rewrite !app_nil_r.
  - cbn [pad_loop replicate]. rewrite IH, <- !app_assoc. reflexivity.
Qed.

(** C3: [encode(text, L)] returns two sequences of length [L]; the
    first holds the begin token, the word tokens and the end token cut
    to [L], followed by the pad id up to [L]; the mask is 1 exactly on
    the positions before the padding and 0 on every padded position. *)
Theorem encode_padding (isL isN : N -> bool) (tk : Tokenizer) (text : list N) (L : nat) :
  exists words inputIds attentionMask,
    mapM (tokenizeWord tk) (pretokenize isL isN text) = Some words /\
    encode isL isN tk text L = Some (inputIds, attentionMask) /\
    let tokens :=
      bos (specialTokens tk) :: concat words ++ [eos (specialTokens tk)] in
    let real := Nat.min L (length tokens) in
    length inputIds = L /\ length attentionMask = L /\
    inputIds = take L tokens ++ replicate (L - real) (pad (specialTokens tk)) /\
    attentionMask = replicate real 1%Z ++ replicate (L - real) 0%Z /\
    (forall i, (i < L)%nat ->
       (attentionMask !! i = Some 1%Z <-> (i < real)%nat) /\
       ((i < real)%nat -> inputIds !! i = tokens !! i) /\
       ((real <= i)%nat ->
          attentionMask !! i = Some 0%Z /\
          inputIds !! i = Some (pad (specialTokens tk)))).
Proof.
  destruct (words_total isL isN tk text) as [words Hw].
  unfold encode. rewrite Hw. cbn [mbind option_bind].
  set (tokens := bos (specialTokens tk) :: concat words ++ [eos (specialTokens tk)]).
  set (real := Nat.min L (length tokens)).
  set (cut := if (L <? length tokens)%nat then take L tokens else tokens).
  assert (cut = take L tokens) as Hcut.
  { unfold cut. destruct (Nat.ltb_spec L (length tokens)); [reflexivity |].
    symmetry. apply take_ge. lia. }
  assert (length cut = real) as Hlen.
  { rewrite Hcut, length_take. reflexivity. }
  rewrite pad_loop_spec, Hlen.
  eexists words, _, _. split; [reflexivity |]. split; [reflexivity |].
  cbv zeta. fold tokens. fold real. rewrite Hcut.
  assert (length (take L tokens) = real) as Hlt by (rewrite <- Hcut; exact Hlen).
  split; [rewrite length_app, Hlt, length_replicate; lia |].
  split; [rewrite length_app, !length_replicate; lia |].
  split; [reflexivity |]. split; [reflexivity |].
  intros i Hi. split; [| split].
  - destruct (Nat.lt_ge_cases i real) as [Hr | Hr].
    + rewrite lookup_app_l by (rewrite length_replicate; exact Hr).
      split; [intros _; exact Hr | intros _].
      apply lookup_replicate_2. exact Hr.
    + rewrite lookup_app_r by (rewrite length_replicate; exact Hr).
      rewrite length_replicate. split; [| lia].
      intros H. apply lookup_replicate_1 in H. destruct H as [H _]. discriminate.
  - intros Hr. rewrite lookup_app_l by (rewrite Hlt; exact Hr).
    apply lookup_take_lt. lia.
  - intros Hr. split.
    + rewrite lookup_app_r by (rewrite length_replicate; exact Hr).
      rewrite length_replicate. apply lookup_replicate_2. lia.
    + rewrite lookup_app_r by (rewrite Hlt; exact Hr).
      rewrite Hlt. apply lookup_replicate_2. lia.
Qed.

(** *** Encoding for generation, then decoding *)

(** The table is a bijection on the 256 byte values: every byte has a
    character, and the character leads back to the byte. *)
Definition table_inverts (b : N) : bool :=
  match BYTE_TO_UNICODE !! b with
  | Some c => bool_decide (UNICODE_TO_BYTE !! c = Some b)
  | None => false
  end.

Lemma table_inverts_all : forallb table_inverts (range 0 255) = true.
Proof. vm_compute. reflexivity. Qed.

Lemma table_inverse (b : N) :
  (b < 256)%N ->
  exists c, BYTE_TO_UNICODE !! b = Some c /\ UNICODE_TO_BYTE !! c = Some b.
Proof.
  intros Hb. pose proof table_inverts_all as Hall.
  rewrite forallb_forall in Hall. specialize (Hall b).
  assert (In b (range 0 255)) as Hin.
  { unfold range. apply in_map_iff. exists (N.to_nat b).
    split; [apply N2Nat.id |]. apply in_seq. lia. }
  specialize (Hall Hin). unfold table_inverts in Hall.
  destruct (BYTE_TO_UNICODE !! b) as [c |]; [| discriminate].
  exists c. split; [reflexivity |]. apply bool_decide_eq_true in Hall. exact Hall.
Qed.

Lemma encode_cp_bytes (c : N) :
  Utf8.is_scalar c = true -> Forall (fun b => (b < 256)%N) (Utf8.encode_cp c).
Proof.
  intros Hc. apply Utf8.is_scalar_spec in Hc. destruct Hc as [Hlt Hsur].
  unfold Utf8.encode_cp. rewrite Hsur.
  destruct (N.ltb_spec c 128) as [L1 | L1];
    [ | destruct (N.ltb_spec c 2048) as [L2 | L2];
        [ | destruct (N.ltb_spec c 65536) as [L3 | L3] ] ].
  - repeat constructor. lia.
  - destruct (Utf8.digits2 c) as (q & r & Hc & Hr & -> & ->).
    repeat constructor; lia.
  - destruct (Utf8.digits3 c) as (a & b & d & Hc & Hb & Hd & -> & -> & ->).
    repeat constructor; lia.
  - destruct (Utf8.digits4 c) as (a & b & d & e & Hc & Hb & Hd & He & -> & -> & -> & ->).
    repeat constructor; lia.
Qed.

Lemma encode_bytes (text : list N) :
  Forall (fun c => Utf8.is_scalar c = true) text ->
  Forall (fun b => (b < 256)%N) (Utf8.encode text).
Proof.
  induction 1 as [| c text Hc _ IH]; [constructor |].
  unfold Utf8.encode. cbn [map concat]. apply Forall_app. split; [| exact IH].
  apply encode_cp_bytes. exact Hc.
Qed.

Lemma omap_cons_Some {A B} (f : A -> option B) x y l :
  f x = Some y -> omap f (x :: l) = y :: omap f l.
Proof. intros H. simpl. rewrite H. reflexivity. Qed.

Lemma omap_cons_None {A B} (f : A -> option B) x l :
  f x = None -> omap f (x :: l) = omap f l.
Proof. intros H. simpl. rewrite H. reflexivity. Qed.

Lemma table_back (bytes : list N) :
  Forall (fun b => (b < 256)%N) bytes ->
  omap (fun char => UNICODE_TO_BYTE !! char)
    (omap (fun b => BYTE_TO_UNICODE !! b) bytes) = bytes.
Proof.
  induction 1 as [| b bytes Hb _ IH]; [reflexivity |].
  destruct (table_inverse b Hb) as (c & Hc & Hback).
  rewrite (omap_cons_Some _ b c) by exact Hc.
  rewrite (omap_cons_Some _ c b) by exact Hback.
  rewrite IH. reflexivity.
Qed.

Lemma textToBytes_back (w : list N) :
  Forall (fun c => Utf8.is_scalar c = true) w ->
  omap (fun char => UNICODE_TO_BYTE !! char) (textToBytes w) = Utf8.encode w.
Proof. intros Hw. apply table_back. apply encode_bytes. exact Hw. Qed.

Lemma omap_concat {A B} (g : A -> option B) (ls : list (list A)) :
  omap g (concat ls) = concat (map (omap g) ls).
Proof.
  induction ls as [| l ls IH]; [reflexivity |].
  cbn [concat map]. rewrite omap_app, IH. reflexivity.
Qed.

Lemma encode_concat (ws : list (list N)) :
  Utf8.encode (concat ws) = concat (map Utf8.encode ws).
Proof.
  unfold Utf8.encode. induction ws as [| w ws IH]; [reflexivity |].
  cbn [concat map]. rewrite map_app, concat_app, IH. reflexivity.
Qed.

(** Every symbol the text is cut into has an id of its own that is not
    one of the four special ids and that the reverse vocabulary maps
    back. *)
Definition symbols_invertible (tk : Tokenizer) (ws : list (list N)) : Prop :=
  forall w symbols s,
    w ∈ ws -> bpe tk (textToBytes w) = Some symbols -> s ∈ symbols ->
    exists id, vocab tk !! s = Some id /\
               is_special (specialTokens tk) id = false /\
               reverseVocab tk !! id = Some s.

(** The tokens [decode] keeps. *)
Definition kept (tk : Tokenizer) (id : Z) : option (list N) :=
  if is_special (specialTokens tk) id then None else reverseVocab tk !! id.

Lemma kept_symbols tk (symbols : list (list N)) :
  (forall s, s ∈ symbols ->
     exists id, vocab tk !! s = Some id /\
                is_special (specialTokens tk) id = false /\
                reverseVocab tk !! id = Some s) ->
  omap (kept tk)
    (map (fun token => default (unk (specialTokens tk)) (vocab tk !! token)) symbols)
  = symbols.
Proof.
  induction symbols as [| s symbols IH]; intros H; [reflexivity |].
  destruct (H s ltac:(left)) as (id & Hv & Hsp & Hr).
  cbn [map]. rewrite (omap_cons_Some _ _ s).
  - rewrite IH; [reflexivity |]. intros s' Hs'. apply H. right. exact Hs'.
  - rewrite Hv. simpl. unfold kept. rewrite Hsp. exact Hr.
Qed.

Lemma decode_words tk (ws : list (list N)) (words : list (list Z)) :
  Forall (Forall (fun c => Utf8.is_scalar c = true)) ws ->
  symbols_invertible tk ws ->
  Forall2 (fun w ids => tokenizeWord tk w = Some ids) ws words ->
  concat (map (omap (fun char => UNICODE_TO_BYTE !! char))
            (omap (kept tk) (concat words)))
  = Utf8.encode (concat ws).
Proof.
  intros Hsc Hinv Hall. induction Hall as [| w ids ws words Hw _ IH].
  - reflexivity.
  - apply Forall_cons in Hsc. destruct Hsc as [Hscw Hsc].
    cbn [concat]. rewrite omap_app, map_app, concat_app.
    rewrite IH; [| exact Hsc |].
    2: { intros w' symbols s Hin. apply Hinv. right. exact Hin. }
    unfold Utf8.encode at 2. rewrite map_app, concat_app.
    fold (Utf8.encode w). fold (Utf8.encode (concat ws)). f_equal.
    unfold tokenizeWord in Hw.
    destruct (bpe_spec tk (textToBytes w)) as (symbols & Hb & Hcat).
    rewrite Hb in Hw. cbn in Hw. injection Hw as <-.
    rewrite kept_symbols.
    + rewrite <- omap_concat, Hcat. apply textToBytes_back. exact Hscw.
    + intros s Hs. apply (Hinv w symbols s); [left | exact Hb | exact Hs].
Qed.

(** The matches depend on the tables only through the characters of the
    text. *)
Lemma span_ext (p q : N -> bool) (s : list N) :
  (forall c, c ∈ s -> p c = q c) -> span p s = span q s.
Proof.
  induction s as [| c s IH]; intros H; [reflexivity |].
  cbn [span]. rewrite <- (H c) by left.
  destruct (p c); [| reflexivity].
  rewrite IH; [reflexivity |]. intros d Hd. apply H. right. exact Hd.
Qed.

Lemma opt_space_run_ext (p q : N -> bool) (s : list N) :
  (forall c, c ∈ s -> p c = q c) -> opt_space_run p s = opt_space_run q s.
Proof.
  intros H. unfold opt_space_run, run_of. destruct s as [| c rest]; [reflexivity |].
  rewrite (span_ext p q (c :: rest)) by exact H.
  rewrite (span_ext p q rest); [reflexivity |].
  intros d Hd. apply H. right. exact Hd.
Qed.

Section Tables.

Variables isL isN isL' isN' : N -> bool.

Definition tables_agree (s : list N) : Prop :=
  forall c, c ∈ s -> isL c = isL' c /\ isN c = isN' c.

Lemma match_at_ext (s : list N) :
  tables_agree s -> match_at isL isN s = match_at isL' isN' s.
Proof.
  intros H. unfold match_at.
  rewrite (opt_space_run_ext isL isL' s) by (intros c Hc; apply H; exact Hc).
  rewrite (opt_space_run_ext isN isN' s) by (intros c Hc; apply H; exact Hc).
  rewrite (opt_space_run_ext (is_other isL isN) (is_other isL' isN') s);
    [reflexivity |].
  intros c Hc. unfold is_other. destruct (H c Hc) as [-> ->]. reflexivity.
Qed.

Lemma scan_ext (s : list N) (skip : nat) :
  tables_agree s -> scan isL isN s skip = scan isL' isN' s skip.
Proof.
  revert skip. induction s as [| c s IH]; intros skip H; [reflexivity |].
  assert (tables_agree s) as Hs by (intros d Hd; apply H; right; exact Hd).
  cbn [scan]. destruct skip as [| k]; [| apply IH; exact Hs].
  rewrite (match_at_ext (c :: s) H).
  destruct (match_at isL' isN' (c :: s)); rewrite IH by exact Hs; reflexivity.
Qed.

Lemma encodeForGeneration_ext tk (text : list N) :
  tables_agree text ->
  encodeForGeneration isL isN tk text = encodeForGeneration isL' isN' tk text.
Proof.
  intros H. unfold encodeForGeneration, pretokenize.
  rewrite (scan_ext text 0 H). reflexivity.
Qed.

End Tables.

(** The text of the counterexample below is cut the same way under any
    tables that know [a] and [b] as letters and the space as neither a
    letter nor a number. *)
Lemma two_spaces_any_tables (isL isN : N -> bool) :
  isL 97%N = true -> isL 98%N = true -> isL 32%N = false ->
  isN 97%N = false -> isN 98%N = false -> isN 32%N = false ->
  encodeForGeneration isL isN demo_tokenizer (str "a  b") = Some [2; 4; 8]%Z.
Proof.
  intros La Lb Ls Na Nb Ns.
  rewrite (encodeForGeneration_ext isL isN ascii_letter ascii_digit).
  - vm_compute. reflexivity.
  - intros c Hc. change (str "a  b") with [97; 32; 32; 98]%N in Hc.
    rewrite !elem_of_cons in Hc. rewrite elem_of_nil in Hc.
    destruct Hc as [-> | [-> | [-> | [-> | []]]]]; split;
      first [ rewrite La | rewrite Lb | rewrite Ls
            | rewrite Na | rewrite Nb | rewrite Ns ]; reflexivity.
Qed.

(** After [load] from a file whose ids are all different, the reverse
    vocabulary inverts the vocabulary. *)
Lemma load_maps_inverse (entries : list (list N * Z))
    (m : gmap (list N) Z) (r : gmap Z (list N)) :
  NoDup (map snd entries) ->
  (forall s i, m !! s = Some i -> r !! i = Some s /\ i ∉ map snd entries) ->
  forall s i,
    fold_left (fun m '(token, id) => <[token := id]> m) entries m !! s = Some i ->
    fold_left (fun m '(token, id) => <[id := token]> m) entries r !! i = Some s.
Proof.
  revert m r. induction entries as [| [t id] entries IH]; intros m r Hnd Hinv s i.
  - cbn [fold_left]. intros H. apply Hinv. exact H.
  - cbn [fold_left]. cbn [map snd] in Hnd, Hinv.
    apply NoDup_cons in Hnd. destruct Hnd as [Hid Hnd].
    apply IH; [exact Hnd |]. intros s' i' H.
    destruct (decide (t = s')) as [-> | Hne].
    + rewrite lookup_insert_eq in H. injection H as <-.
      rewrite lookup_insert_eq. split; [reflexivity | exact Hid].
    + rewrite lookup_insert_ne in H by exact Hne.
      destruct (Hinv s' i' H) as [Hr Hnot]. rewrite not_elem_of_cons in Hnot.
      destruct Hnot as [Hi Hnot]. rewrite lookup_insert_ne by congruence.
      split; [exact Hr | exact Hnot].
Qed.

Lemma load_reverse (data : TokenizerData) (s : list N) (i : Z) :
  NoDup (map snd (default [] (model_vocab data))) ->
  vocab (load data new_tokenizer) !! s = Some i ->
  reverseVocab (load data new_tokenizer) !! i = Some s.
Proof.
  intros Hnd. cbn [load new_tokenizer loaded vocab reverseVocab].
  apply load_maps_inverse; [exact Hnd |].
  intros s' i' H. rewrite lookup_empty in H. discriminate.
Qed.

(** The condition of the round trip, for a loaded file with ids all
    different: every symbol is in the vocabulary under an id that is not
    special. *)
Lemma loaded_symbols_invertible (data : TokenizerData) (ws : list (list N)) :
  NoDup (map snd (default [] (model_vocab data))) ->
  (forall w symbols s,
     w ∈ ws -> bpe (load data new_tokenizer) (textToBytes w) = Some symbols ->
     s ∈ symbols ->
     exists id, vocab (load data new_tokenizer) !! s = Some id /\
                is_special (specialTokens (load data new_tokenizer)) id = false) ->
  symbols_invertible (load data new_tokenizer) ws.
Proof.
  intros Hnd H w symbols s Hw Hb Hs.
  destruct (H w symbols s Hw Hb Hs) as (id & Hv & Hsp).
  exists id. split; [exact Hv |]. split; [exact Hsp |].
  apply load_reverse; assumption.
Qed.

(** A vocabulary of the three characters that stand for the bytes of
    U+FEFF. *)
Definition mark_tokenizer : Tokenizer :=
  load {| model_vocab := Some [([239%N], 4%Z); ([187%N], 5%Z); ([191%N], 6%Z)];
          model_merges := None; added_tokens := [] |} new_tokenizer.

(** A text that starts with U+FEFF comes back without it: [TextDecoder]
    takes its bytes for a byte order mark. *)
Example roundtrip_loses_mark :
  encodeForGeneration ascii_letter ascii_digit mark_tokenizer [65279%N]
  = Some [2; 4; 5; 6]%Z /\
  decode mark_tokenizer [2; 4; 5; 6]%Z = [].
Proof. split; vm_compute; reflexivity. Qed.

(** A symbol whose vocabulary id is a special id is dropped by [decode]. *)
Example roundtrip_loses_special :
  let tk := load {| model_vocab := Some [(str "a", 3%Z); (str "b", 4%Z)];
                    model_merges := None; added_tokens := [] |} new_tokenizer in
  encodeForGeneration ascii_letter ascii_digit tk (str "ab") = Some [2; 3; 4]%Z /\
  decode tk [2; 3; 4]%Z = str "b".
Proof. split; vm_compute; reflexivity. Qed.

(** C1, as the claim states it, fails on a text with two spaces in a
    row: the pattern matches ["a"] and [" b"] and leaves the first space
    out, all symbols are in the vocabulary, and the text decoded has one
    space. *)
Lemma roundtrip_counterexample :
  pretokenize ascii_letter ascii_digit (str "a  b") = [str "a"; str " b"] /\
  bpe demo_tokenizer (textToBytes (str "a")) = Some [str "a"] /\
  bpe demo_tokenizer (textToBytes (str " b")) = Some [[288%N; 98%N]] /\
  vocab demo_tokenizer !! str "a" = Some 4%Z /\
  vocab demo_tokenizer !! [288%N; 98%N] = Some 8%Z /\
  encodeForGeneration ascii_letter ascii_digit demo_tokenizer (str "a  b")
  = Some [2; 4; 8]%Z /\
  decode demo_tokenizer [2; 4; 8]%Z = str "a b" /\
  decode demo_tokenizer [2; 4; 8]%Z <> str "a  b".
Proof.
  repeat split; try (vm_compute; reflexivity).
  vm_compute. discriminate.
Qed.

(** C1 (amended): for a text of scalar values that does not start with
    U+FEFF, whose pre-tokenization matches joined give the text back,
    and whose byte-pair symbols each have a vocabulary id that is not a
    special id and that the reverse vocabulary maps back to the symbol,
    [encodeForGeneration] returns the begin token followed by the word
    tokens, and [decode] of it is the text. *)
Theorem decode_encode_roundtrip (isL isN : N -> bool) (tk : Tokenizer) (text : list N) :
  Forall (fun c => Utf8.is_scalar c = true) text ->
  head text <> Some 65279%N ->
  concat (pretokenize isL isN text) = text ->
  symbols_invertible tk (pretokenize isL isN text) ->
  exists ids,
    encodeForGeneration isL isN tk text = Some (bos (specialTokens tk) :: ids) /\
    decode tk (bos (specialTokens tk) :: ids) = text.
Proof.
  intros Hsc Hhead Hcov Hinv.
  destruct (words_total isL isN tk text) as [words Hw].
  unfold encodeForGeneration. rewrite Hw. cbn [mbind option_bind].
  exists (concat words). split; [reflexivity |].
  unfold decode. fold (kept tk).
  change (fun token : list N => omap (fun char : N => UNICODE_TO_BYTE !! char) token)
    with (omap (M := list) (fun char : N => UNICODE_TO_BYTE !! char)).
  rewrite omap_cons_None.
  2: { unfold kept, is_special. rewrite Z.eqb_refl, orb_true_r. reflexivity. }
  apply mapM_Some_1 in Hw.
  rewrite (decode_words tk (pretokenize isL isN text) words); [| | exact Hinv | exact Hw].
  - rewrite Hcov. apply Utf8.decode_encode; assumption.
  - rewrite <- Hcov in Hsc. clear -Hsc.
    induction (pretokenize isL isN text) as [| w ws IH]; [constructor |].
    cbn [concat] in Hsc. apply Forall_app in Hsc. destruct Hsc as [Hw Hws].
    constructor; [exact Hw | apply IH; exact Hws].
Qed.

Lemma decode_encode_roundtrip_witness :
  exists ids,
    encodeForGeneration ascii_letter ascii_digit demo_tokenizer (str "ab b")
    = Some (bos (specialTokens demo_tokenizer) :: ids) /\
    decode demo_tokenizer (bos (specialTokens demo_tokenizer) :: ids) = str "ab b".
Proof.
  apply (decode_encode_roundtrip ascii_letter ascii_digit demo_tokenizer (str "ab b")).
  - repeat constructor.
  - vm_compute. discriminate.
  - vm_compute. reflexivity.
  - intros w symbols s Hin Hb Hs.
    assert (pretokenize ascii_letter ascii_digit (str "ab b") = [str "ab"; str " b"])
      as Hp by (vm_compute; reflexivity).
    rewrite Hp in Hin.
    apply elem_of_cons in Hin. destruct Hin as [-> | Hin].
    + assert (bpe demo_tokenizer (textToBytes (str "ab")) = Some [str "ab"]) as E
        by (vm_compute; reflexivity).
      rewrite E in Hb. injection Hb as <-.
      apply list_elem_of_singleton in Hs. subst s.
      exists 7%Z. repeat split; vm_compute; reflexivity.
    + apply list_elem_of_singleton in Hin. subst w.
      assert (bpe demo_tokenizer (textToBytes (str " b")) = Some [[288%N; 98%N]]) as E
        by (vm_compute; reflexivity).
      rewrite E in Hb. injection Hb as <-.
      apply list_elem_of_singleton in Hs. subst s.
      exists 8%Z. repeat split; vm_compute; reflexivity.
Defined.

(** *** The byte table, the loaded maps and the choice of the pair *)

(** What [initByteToUnicode] leaves in the two tables, entry by entry. *)
Definition byte_entry_ok (b c : N) : bool :=
  bool_decide (UNICODE_TO_BYTE !! c = Some b)
  && (b <? 256)%N && (33 <=? c)%N && (c <? 324)%N && negb (is_space c)
  && (if bool_decide (b ∈ initial_bs) then (c =? b)%N else (256 <=? c)%N).

Lemma byte_entries_ok :
  map_Forall (fun b c => byte_entry_ok b c = true) BYTE_TO_UNICODE.
Proof. apply (bool_decide_unpack _). vm_compute. exact I. Qed.

Lemma unicode_entries_ok :
  map_Forall (fun c b => BYTE_TO_UNICODE !! b = Some c) UNICODE_TO_BYTE.
Proof. apply (bool_decide_unpack _). vm_compute. exact I. Qed.

Lemma byte_table_entry (b c : N) :
  BYTE_TO_UNICODE !! b = Some c -> is_space c = false.
Proof.
  intros H. apply byte_entries_ok in H. unfold byte_entry_ok in H.
  rewrite !andb_true_iff in H. destruct H as [[_ H] _].
  apply negb_true_iff in H. exact H.
Qed.

(** X10: the two tables of [initByteToUnicode] are inverse bijections
    between the 256 byte values and 256 characters; a character of the
    table is never white space and lies from 33 below 324; the bytes of
    the three printable ranges stand for themselves and every other byte
    for a character from 256 on. *)
Theorem byte_table_bijection (b c : N) :
  (BYTE_TO_UNICODE !! b = Some c <-> UNICODE_TO_BYTE !! c = Some b) /\
  (is_Some (BYTE_TO_UNICODE !! b) <-> (b < 256)%N) /\
  (BYTE_TO_UNICODE !! b = Some c ->
     (33 <= c < 324)%N /\ is_space c = false /\
     (b ∈ initial_bs -> c = b) /\ (b ∉ initial_bs -> (256 <= c)%N)).
Proof.
  assert (forall b c, BYTE_TO_UNICODE !! b = Some c -> byte_entry_ok b c = true) as Hok
    by exact byte_entries_ok.
  split; [| split].
  - split.
    + intros H. apply Hok in H. unfold byte_entry_ok in H.
      rewrite !andb_true_iff in H. destruct H as [[[[[H _] _] _] _] _].
      apply bool_decide_eq_true in H. exact H.
    + apply unicode_entries_ok.
  - split.
    + intros [c' H]. apply Hok in H. unfold byte_entry_ok in H.
      rewrite !andb_true_iff in H. destruct H as [[[[[_ H] _] _] _] _].
      apply N.ltb_lt. exact H.
    + intros H. destruct (table_inverse b H) as (c' & Hc & _). eauto.
  - intros H. apply Hok in H. unfold byte_entry_ok in H.
    rewrite !andb_true_iff in H. destruct H as [[[[[_ _] H1] H2] H3] H4].
    apply N.leb_le in H1. apply N.ltb_lt in H2. apply negb_true_iff in H3.
    split; [lia |]. split; [exact H3 |]. split; intros Hb.
    + rewrite bool_decide_eq_true_2 in H4 by exact Hb. apply N.eqb_eq. exact H4.
    + rewrite bool_decide_eq_false_2 in H4 by exact Hb. apply N.leb_le. exact H4.
Qed.

(** The rank [merges] gives a pair. *)
Definition rank_of (merges : gmap (list N) nat) (pq : list N * list N) : option nat :=
  merges !! merge_key pq.1 pq.2.

(** What the loop over [pairs] holds in [(minPair, minRank)] after the
    pairs [l]. *)
Definition min_state (merges : gmap (list N) nat) (l : list (list N * list N))
    (acc : option (list N * list N) * option nat) : Prop :=
  match acc with
  | (None, None) => forall pq, pq ∈ l -> rank_of merges pq = None
  | (Some pq, Some r) =>
      exists i, l !! i = Some pq /\ rank_of merges pq = Some r /\
        forall j pq' r', l !! j = Some pq' -> rank_of merges pq' = Some r' ->
          (r <= r')%nat /\ ((j < i)%nat -> (r < r')%nat)
  | _ => False
  end.

Lemma min_fold_state merges pairs :
  min_state merges pairs (fold_left (min_step merges) pairs (None, None)).
Proof.
  induction pairs as [| x l IH] using rev_ind.
  - cbn. intros pq H. apply elem_of_nil in H. contradiction.
  - rewrite fold_left_app. cbn [fold_left].
    destruct (fold_left (min_step merges) l (None, None)) as [[pq |] [m |]];
      cbn [min_state] in IH; try contradiction.
    + destruct IH as (i & Hi & Hr & Hmin).
      unfold min_step. cbn [fst snd]. fold (rank_of merges x).
      destruct (rank_of merges x) as [rx |] eqn:Ex.
      * destruct (Nat.ltb_spec rx m) as [Hlt | Hge]; cbn [min_state].
        -- exists (length l). split; [apply list_lookup_middle; reflexivity |].
           split; [exact Ex |]. intros j pq' r' Hj Hr'.
           destruct (decide (j < length l)%nat) as [Hjl | Hjl].
           ++ rewrite lookup_app_l in Hj by exact Hjl.
              destruct (Hmin j pq' r' Hj Hr') as [Hle _]. lia.
           ++ apply lookup_lt_Some in Hj as Hb. rewrite length_app in Hb. cbn in Hb.
              assert (j = length l) as -> by lia.
              rewrite list_lookup_middle in Hj by reflexivity. injection Hj as <-.
              rewrite Ex in Hr'. injection Hr' as <-. lia.
        -- exists i. split; [apply lookup_app_l_Some; exact Hi |].
           split; [exact Hr |]. intros j pq' r' Hj Hr'.
           destruct (decide (j < length l)%nat) as [Hjl | Hjl].
           ++ rewrite lookup_app_l in Hj by exact Hjl. exact (Hmin j pq' r' Hj Hr').
           ++ apply lookup_lt_Some in Hj as Hb. rewrite length_app in Hb. cbn in Hb.
              assert (j = length l) as -> by lia.
              rewrite list_lookup_middle in Hj by reflexivity. injection Hj as <-.
              rewrite Ex in Hr'. injection Hr' as <-.
              apply lookup_lt_Some in Hi. lia.
      * cbn [min_state]. exists i. split; [apply lookup_app_l_Some; exact Hi |].
        split; [exact Hr |]. intros j pq' r' Hj Hr'.
        destruct (decide (j < length l)%nat) as [Hjl | Hjl].
        -- rewrite lookup_app_l in Hj by exact Hjl. exact (Hmin j pq' r' Hj Hr').
        -- apply lookup_lt_Some in Hj as Hb. rewrite length_app in Hb. cbn in Hb.
           assert (j = length l) as -> by lia.
           rewrite list_lookup_middle in Hj by reflexivity. injection Hj as <-.
           rewrite Ex in Hr'. discriminate.
    + unfold min_step. cbn [fst snd]. fold (rank_of merges x).
      destruct (rank_of merges x) as [rx |] eqn:Ex; cbn [min_state].
      * exists (length l). split; [apply list_lookup_middle; reflexivity |].
        split; [exact Ex |]. intros j pq' r' Hj Hr'.
        destruct (decide (j < length l)%nat) as [Hjl | Hjl].
        -- rewrite lookup_app_l in Hj by exact Hjl.
           apply list_elem_of_lookup_2 in Hj. rewrite (IH pq' Hj) in Hr'. discriminate.
        -- apply lookup_lt_Some in Hj as Hb. rewrite length_app in Hb. cbn in Hb.
           assert (j = length l) as -> by lia.
           rewrite list_lookup_middle in Hj by reflexivity. injection Hj as <-.
           rewrite Ex in Hr'. injection Hr' as <-. lia.
      * intros pq Hpq. apply elem_of_app in Hpq. destruct Hpq as [Hpq | Hpq].
        -- apply IH. exact Hpq.
        -- apply list_elem_of_singleton in Hpq. subst pq. exact Ex.
Qed.

(** X11: the pair the loop over [pairs] picks has the lowest rank of all
    the pairs that have one, and is the first of the list with that
    rank; no pair is picked exactly when none has a rank. *)
Theorem find_min_pair_lowest_rank (merges : gmap (list N) nat)
    (pairs : list (list N * list N)) :
  match find_min_pair merges pairs with
  | Some pq =>
      exists i r, pairs !! i = Some pq /\ rank_of merges pq = Some r /\
        forall j pq' r', pairs !! j = Some pq' -> rank_of merges pq' = Some r' ->
          (r <= r')%nat /\ ((j < i)%nat -> (r < r')%nat)
  | None => forall pq, pq ∈ pairs -> rank_of merges pq = None
  end.
Proof.
  unfold find_min_pair. pose proof (min_fold_state merges pairs) as H.
  destruct (fold_left (min_step merges) pairs (None, None)) as [[pq |] [m |]];
    cbn [min_state fst] in *; try contradiction.
  - destruct H as (i & H). exists i, m. exact H.
  - exact H.
Qed.

(** A loop of [set(key, value)] calls over a list, from the empty map:
    the value of a key is the one of the last element with that key. *)
Lemma fold_insert_last `{Countable K} {V X : Type} (f : gmap K V -> X -> gmap K V)
    (key : X -> K) (value : X -> V) (l : list X) (k : K) (v : V) :
  (forall m x, f m x = <[key x := value x]> m) ->
  fold_left f l ∅ !! k = Some v <->
  exists i x, l !! i = Some x /\ key x = k /\ value x = v /\
    forall j y, l !! j = Some y -> key y = k -> (j <= i)%nat.
Proof.
  intros Hf. revert v. induction l as [| x l IH] using rev_ind; intros v.
  - cbn [fold_left]. rewrite lookup_empty. split; [discriminate |].
    intros (i & x & Hi & _). rewrite lookup_nil in Hi. discriminate.
  - rewrite fold_left_app. cbn [fold_left]. rewrite Hf.
    destruct (decide (key x = k)) as [Hk | Hk].
    + subst k. rewrite lookup_insert_eq. split.
      * intros Hv. injection Hv as <-. exists (length l), x.
        split; [apply list_lookup_middle; reflexivity |].
        split; [reflexivity |]. split; [reflexivity |].
        intros j y Hj _. apply lookup_lt_Some in Hj. rewrite length_app in Hj.
        cbn in Hj. lia.
      * intros (i & x' & Hi & Hkey & Hv & Hlast).
        assert (length l <= i)%nat as Hle.
        { apply (Hlast (length l) x); [apply list_lookup_middle |]; reflexivity. }
        apply lookup_lt_Some in Hi as Hb. rewrite length_app in Hb. cbn in Hb.
        assert (i = length l) as -> by lia.
        rewrite list_lookup_middle in Hi by reflexivity. injection Hi as <-.
        rewrite Hv. reflexivity.
    + rewrite lookup_insert_ne by exact Hk. rewrite IH. split.
      * intros (i & x' & Hi & Hkey & Hv & Hlast). exists i, x'.
        split; [apply lookup_app_l_Some; exact Hi |].
        split; [exact Hkey |]. split; [exact Hv |].
        intros j y Hj Hy. destruct (decide (j < length l)%nat) as [Hjl | Hjl].
        -- rewrite lookup_app_l in Hj by exact Hjl. exact (Hlast j y Hj Hy).
        -- apply lookup_lt_Some in Hj as Hb. rewrite length_app in Hb. cbn in Hb.
           assert (j = length l) as -> by lia.
           rewrite list_lookup_middle in Hj by reflexivity. injection Hj as <-.
           contradiction.
      * intros (i & x' & Hi & Hkey & Hv & Hlast).
        destruct (decide (i < length l)%nat) as [Hil | Hil].
        -- rewrite lookup_app_l in Hi by exact Hil. exists i, x'.
           split; [exact Hi |]. split; [exact Hkey |]. split; [exact Hv |].
           intros j y Hj Hy. apply (Hlast j y); [| exact Hy].
           apply lookup_app_l_Some. exact Hj.
        -- apply lookup_lt_Some in Hi as Hb. rewrite length_app in Hb. cbn in Hb.
           assert (i = length l) as -> by lia.
           rewrite list_lookup_middle in Hi by reflexivity. injection Hi as <-.
           contradiction.
Qed.

(** The ids the added tokens give to one content, in file order. *)
Definition ids_named (name : list N) (tokens : list (list N * Z)) : list Z :=
  omap (fun t : list N * Z => if bool_decide (t.1 = name) then Some t.2 else None)
    tokens.

Lemma add_special_fold (tokens : list (list N * Z)) (st : SpecialTokens) :
  let st' := fold_left add_special tokens st in
  pad st' = default (pad st) (last (ids_named (str "<pad>") tokens)) /\
  unk st' = default (unk st) (last (ids_named (str "<unk>") tokens)) /\
  bos st' = default (bos st) (last (ids_named (str "<bos>") tokens)) /\
  eos st' = default (eos st) (last (ids_named (str "<eos>") tokens)).
Proof.
  induction tokens as [| [content tid] tokens IH] using rev_ind; [repeat split |].
  cbn zeta in *. rewrite fold_left_app. cbn [fold_left].
  unfold ids_named in *. rewrite !omap_app.
  destruct IH as (Hp & Hu & Hb & He).
  set (st0 := fold_left add_special tokens st) in *. clearbody st0.
  unfold add_special. simpl omap. cbn [fst snd].
  repeat case_bool_decide; subst;
    try match goal with
        | H : str _ = str _ |- _ => vm_compute in H; discriminate H
        end;
    rewrite ?app_nil_r, ?last_snoc; cbn [pad unk bos eos default from_option id];
    repeat split; assumption.
Qed.

(** X12: what [load] leaves in a new tokenizer.  The id of a token is
    the one of its last entry in [model.vocab] and the token of an id
    the one of the last entry with that id; when the ids of the file are
    all different the reverse vocabulary inverts the vocabulary.  The
    rank of a merge key is the position in [model.merges] of the last
    pair with that key.  Each special id is the one of the last added
    token with its content, or the constructor's default.  A second
    [load] changes nothing. *)
Theorem load_tables (data : TokenizerData) :
  let tk := load data new_tokenizer in
  let entries := default [] (model_vocab data) in
  let pairs := default [] (model_merges data) in
  (forall s i, vocab tk !! s = Some i <->
     exists n, entries !! n = Some (s, i) /\
       forall j s' i', entries !! j = Some (s', i') -> s' = s -> (j <= n)%nat) /\
  (forall s i, reverseVocab tk !! i = Some s <->
     exists n, entries !! n = Some (s, i) /\
       forall j s' i', entries !! j = Some (s', i') -> i' = i -> (j <= n)%nat) /\
  (NoDup (map snd entries) ->
     forall s i, vocab tk !! s = Some i -> reverseVocab tk !! i = Some s) /\
  (forall k index, merges tk !! k = Some index <->
     (exists a b, pairs !! index = Some (a, b) /\ merge_key a b = k) /\
     forall j a b, pairs !! j = Some (a, b) -> merge_key a b = k -> (j <= index)%nat) /\
  specialTokens tk
  = {| pad := default 0%Z (last (ids_named (str "<pad>") (added_tokens data)));
       unk := default 1%Z (last (ids_named (str "<unk>") (added_tokens data)));
       bos := default 2%Z (last (ids_named (str "<bos>") (added_tokens data)));
       eos := default 3%Z (last (ids_named (str "<eos>") (added_tokens data))) |} /\
  (forall data', load data' tk = tk).
Proof.
  cbn zeta. cbn [load new_tokenizer loaded vocab reverseVocab merges specialTokens].
  split; [| split; [| split; [| split; [| split]]]].
  - intros s i.
    rewrite (fold_insert_last _ fst snd) by (intros m [t id]; reflexivity). split.
    + intros (n & [s' i'] & Hn & Hk & Hv & Hlast). cbn [fst snd] in *. subst.
      exists n. split; [exact Hn |]. intros j s' i' Hj ->.
      exact (Hlast j (s, i') Hj eq_refl).
    + intros (n & Hn & Hlast). exists n, (s, i). repeat split; [exact Hn |].
      intros j [s' i'] Hj Hk. exact (Hlast j s' i' Hj Hk).
  - intros s i.
    rewrite (fold_insert_last _ snd fst) by (intros m [t id]; reflexivity). split.
    + intros (n & [s' i'] & Hn & Hk & Hv & Hlast). cbn [fst snd] in *. subst.
      exists n. split; [exact Hn |]. intros j s' i' Hj ->.
      exact (Hlast j (s', i) Hj eq_refl).
    + intros (n & Hn & Hlast). exists n, (s, i). repeat split; [exact Hn |].
      intros j [s' i'] Hj Hk. exact (Hlast j s' i' Hj Hk).
  - intros Hnd s i. apply load_maps_inverse; [exact Hnd |].
    intros s' i' H. rewrite lookup_empty in H. discriminate.
  - intros k index.
    rewrite (fold_insert_last _ (fun x : nat * (list N * list N) =>
                                   merge_key x.2.1 x.2.2) fst)
      by (intros m [n [a b]]; reflexivity). split.
    + intros (n & [n' [a b]] & Hn & Hk & Hv & Hlast). cbn [fst snd] in *. subst.
      rewrite list_lookup_imap in Hn.
      destruct (default [] (model_merges data) !! n) as [p |] eqn:Ep; [| discriminate].
      cbn in Hn. injection Hn as <- ->.
      split; [exists a, b; split; [exact Ep | reflexivity] |].
      intros j a' b' Hj Hk.
      apply (Hlast j (j, (a', b'))); [| exact Hk].
      rewrite list_lookup_imap, Hj. reflexivity.
    + intros [(a & b & Hi & Hk) Hlast]. exists index, (index, (a, b)).
      split; [rewrite list_lookup_imap, Hi; reflexivity |].
      split; [exact Hk |]. split; [reflexivity |].
      intros j [n' [a' b']] Hj Hk'. cbn [fst snd] in Hk'.
      rewrite list_lookup_imap in Hj.
      destruct (default [] (model_merges data) !! j) as [p |] eqn:Ep; [| discriminate].
      cbn in Hj. injection Hj as <- ->. exact (Hlast j a' b' Ep Hk').
  - destruct (add_special_fold (added_tokens data)
                {| pad := 0; unk := 1; bos := 2; eos := 3 |}) as (Hp & Hu & Hb & He).
    cbn zeta in *. cbn [pad unk bos eos] in *.
    destruct (fold_left add_special _ _) as [p u b e]. cbn [pad unk bos eos] in *.
    congruence.
  - intros data'. reflexivity.
Qed.

(** *** What one merge pass and the whole of [bpe] compute *)

(** Every occurrence of the pair replaced by the joined symbol, from
    left to right, an occurrence that overlaps the one before left
    alone. *)
Fixpoint merge_left_to_right (first second : list N) (word : list (list N)) :
    list (list N) :=
  match word with
  | [] => []
  | x :: rest =>
      match rest with
      | y :: rest' =>
          if bool_decide (x = first /\ y = second)
          then (first ++ second) :: merge_left_to_right first second rest'
          else x :: merge_left_to_right first second rest
      | [] => [x]
      end
  end.

Lemma merge_left_to_right_cons first second x y (rest : list (list N)) :
  merge_left_to_right first second (x :: y :: rest)
  = if bool_decide (x = first /\ y = second)
    then (first ++ second) :: merge_left_to_right first second rest
    else x :: merge_left_to_right first second (y :: rest).
Proof. reflexivity. Qed.

Lemma merge_left_to_right_skip first second (pre rest : list (list N)) :
  first ∉ pre ->
  merge_left_to_right first second (pre ++ rest)
  = pre ++ merge_left_to_right first second rest.
Proof.
  induction pre as [| x pre IH]; intros Hnot; [reflexivity |].
  apply not_elem_of_cons in Hnot. destruct Hnot as [Hx Hpre].
  specialize (IH Hpre). cbn [app].
  change (merge_left_to_right first second (x :: pre ++ rest))
    with (match pre ++ rest with
          | y :: rest' =>
              if bool_decide (x = first /\ y = second)
              then (first ++ second) :: merge_left_to_right first second rest'
              else x :: merge_left_to_right first second (pre ++ rest)
          | [] => [x]
          end).
  destruct (pre ++ rest) as [| y rest'] eqn:E.
  - apply app_eq_nil in E. destruct E as [-> ->]. reflexivity.
  - rewrite bool_decide_eq_false_2 by (intros [? _]; congruence).
    rewrite IH. reflexivity.
Qed.

Lemma merge_left_to_right_absent first second (l : list (list N)) :
  first ∉ l -> merge_left_to_right first second l = l.
Proof.
  intros H. pose proof (merge_left_to_right_skip first second l [] H) as E.
  cbn [merge_left_to_right] in E. rewrite !app_nil_r in E. exact E.
Qed.

Lemma merge_loop_left_to_right first second word fuel newWord i :
  (length word - i < fuel)%nat ->
  merge_loop fuel first second word newWord i
  = Some (newWord ++ merge_left_to_right first second (drop i word)).
Proof.
  revert newWord i. induction fuel as [| fuel IH]; intros newWord i Hfuel; [lia |].
  cbn [merge_loop]. destruct (Nat.ltb_spec i (length word)) as [Hi | Hi].
  2: { rewrite drop_ge by lia. cbn. by rewrite app_nil_r. }
  destruct (indexOf first word i) as [j |] eqn:Ej.
  2: { rewrite merge_left_to_right_absent; [reflexivity |].
       intros Hin. apply list_elem_of_lookup in Hin. destruct Hin as [k Hk].
       rewrite lookup_drop in Hk.
       exact (indexOf_None first word i (i + k) Ej ltac:(lia) Hk). }
  pose proof (indexOf_Some _ _ _ _ Ej) as [[Hij Hjl] Hj].
  assert (drop i word = take (j - i) (drop i word) ++ first :: drop (S j) word) as Hsplit.
  { rewrite <- (take_drop (j - i) (drop i word)) at 1. f_equal.
    rewrite drop_drop. replace (i + (j - i))%nat with j by lia.
    apply drop_S. exact Hj. }
  assert (first ∉ take (j - i) (drop i word)) as Hpre.
  { intros Hin. apply list_elem_of_lookup in Hin. destruct Hin as [k Hk].
    apply lookup_take_Some in Hk. destruct Hk as [Hk Hlt].
    rewrite lookup_drop in Hk.
    exact (indexOf_first first word i j (i + k) Ej ltac:(lia) Hk). }
  rewrite Hsplit at 3. rewrite (merge_left_to_right_skip _ _ _ _ Hpre).
  set (pre := take (j - i) (drop i word)) in *. clearbody pre.
  rewrite Hj. cbn [default from_option id].
  destruct (word !! (j + 1)%nat) as [y |] eqn:Ey.
  - apply lookup_lt_Some in Ey as Hb.
    assert (drop (S j) word = y :: drop (j + 2) word) as Hd.
    { replace (j + 2)%nat with (S (S j)) by lia. apply drop_S.
      replace (S j) with (j + 1)%nat by lia. exact Ey. }
    rewrite Hd, merge_left_to_right_cons.
    destruct (Nat.ltb_spec j (length word - 1)) as [_ | ?]; [| lia].
    cbn [andb]. destruct (decide (y = second)) as [-> | Hne].
    + rewrite bool_decide_eq_true_2 by reflexivity.
      rewrite bool_decide_eq_true_2 by (split; reflexivity).
      rewrite IH by lia. rewrite <- !app_assoc. reflexivity.
    + rewrite bool_decide_eq_false_2 by congruence.
      rewrite bool_decide_eq_false_2 by (intros [_ ?]; congruence).
      rewrite IH by lia. replace (j + 1)%nat with (S j) by lia. rewrite Hd.
      rewrite <- !app_assoc. reflexivity.
  - apply lookup_ge_None in Ey.
    rewrite (drop_ge word (S j)) by lia. cbn [merge_left_to_right].
    rewrite bool_decide_eq_false_2 by discriminate. rewrite andb_false_r.
    rewrite IH by lia. rewrite (drop_ge word (j + 1)) by lia.
    cbn [merge_left_to_right]. rewrite <- !app_assoc. reflexivity.
Qed.

Lemma merge_pass_returns (first second : list N) (word : list (list N)) :
  merge_pass first second word = Some (merge_left_to_right first second word).
Proof.
  unfold merge_pass. rewrite merge_loop_left_to_right by lia.
  rewrite drop_0. reflexivity.
Qed.

(** X13: the merge pass of [bpe], written with [indexOf], [slice] and an
    index that jumps, returns the word with every occurrence of the pair
    joined from left to right; it keeps the characters and is never
    longer than the word. *)
Theorem merge_pass_left_to_right (first second : list N) (word : list (list N)) :
  merge_pass first second word = Some (merge_left_to_right first second word) /\
  concat (merge_left_to_right first second word) = concat word /\
  (length (merge_left_to_right first second word) <= length word)%nat.
Proof.
  pose proof (merge_pass_returns first second word) as E.
  split; [exact E |].
  destruct (merge_pass_spec first second word) as (r & Hr & Hcat & Hlen & _).
  rewrite E in Hr. injection Hr as <-. split; assumption.
Qed.

Lemma merge_left_to_right_nonempty first second (word : list (list N)) :
  Forall (fun s => s <> []) word ->
  Forall (fun s => s <> []) (merge_left_to_right first second word).
Proof.
  remember (length word) as n eqn:Hn.
  assert (length word <= n)%nat as Hle by lia. clear Hn.
  revert word Hle. induction n as [| n IH]; intros word Hle Hall.
  - destruct word; [constructor | cbn in Hle; lia].
  - destruct word as [| x [| y rest]]; [constructor | exact Hall |].
    rewrite merge_left_to_right_cons.
    apply Forall_cons in Hall. destruct Hall as [Hx Hall].
    case_bool_decide as Hxy.
    + destruct Hxy as [-> ->]. constructor.
      * intros E. apply app_eq_nil in E. destruct E as [E _]. contradiction.
      * apply IH; [cbn in Hle |- *; lia |].
        apply Forall_cons in Hall. apply Hall.
    + constructor; [exact Hx |]. apply IH; [cbn in Hle |- *; lia | exact Hall].
Qed.

Lemma bpe_loop_result merges fuel word result :
  Forall (fun s => s <> []) word ->
  bpe_loop merges fuel word (getPairs word) = Some result ->
  Forall (fun s => s <> []) result /\
  find_min_pair merges (getPairs result) = None.
Proof.
  revert word. induction fuel as [| fuel IH]; intros word Hne; [discriminate |].
  cbn [bpe_loop].
  destruct (find_min_pair merges (getPairs word)) as [[first second] |] eqn:Emin.
  2: { intros H. injection H as <-. split; assumption. }
  rewrite merge_pass_returns.
  pose proof (merge_left_to_right_nonempty first second word Hne) as Hne'.
  destruct (Nat.eqb_spec (length (merge_left_to_right first second word)) 1) as [E | E].
  - intros H. injection H as <-. split; [exact Hne' |].
    destruct (merge_left_to_right first second word) as [| x [| y l]];
      try discriminate E. reflexivity.
  - apply IH. exact Hne'.
Qed.

Lemma length_concat_nonempty {A} (ls : list (list A)) :
  Forall (fun s => s <> []) ls -> (length ls <= length (concat ls))%nat.
Proof.
  induction 1 as [| s ls Hs _ IH]; [reflexivity |].
  cbn [concat length]. rewrite length_app.
  destruct s; [contradiction | cbn [length]; lia].
Qed.

(** X14: [bpe] returns symbols that spell the token; a token of the
    vocabulary comes back whole; a token that is not empty gives at
    least one and at most as many symbols as it has characters, none of
    them empty; and no two neighbours of the result have a merge rank
    left, so that nothing more could be merged. *)
Theorem bpe_result_stable (tk : Tokenizer) (token : list N) :
  exists symbols,
    bpe tk token = Some symbols /\
    concat symbols = token /\
    (is_Some (vocab tk !! token) -> symbols = [token]) /\
    (token <> [] ->
       Forall (fun s => s <> []) symbols /\
       (1 <= length symbols <= length token)%nat) /\
    (forall pq, pq ∈ getPairs symbols -> rank_of (merges tk) pq = None).
Proof.
  destruct (bpe_spec tk token) as (symbols & Hb & Hcat).
  exists symbols. split; [exact Hb |]. split; [exact Hcat |].
  assert (token <> [] ->
          Forall (fun s => s <> []) symbols /\
          find_min_pair (merges tk) (getPairs symbols) = None) as Hres.
  { intros Hne. unfold bpe in Hb. case_bool_decide as Hv.
    { injection Hb as <-. split; [repeat constructor; exact Hne | reflexivity]. }
    rewrite length_map in Hb. destruct token as [| c token]; [contradiction |].
    cbn [length Nat.eqb] in Hb.
    destruct (length (getPairs (map (fun c => [c]) (c :: token))) =? 0)%nat.
    { injection Hb as <-. split; [repeat constructor; exact Hne | reflexivity]. }
    apply bpe_loop_result in Hb; [exact Hb |].
    apply Forall_map. apply Forall_forall. intros d _. discriminate. }
  split; [| split].
  - intros Hv. unfold bpe in Hb.
    rewrite bool_decide_eq_true_2 in Hb by exact Hv. congruence.
  - intros Hne. destruct (Hres Hne) as [Hall _]. split; [exact Hall |].
    pose proof (length_concat_nonempty symbols Hall) as Hlen. rewrite Hcat in Hlen.
    split; [| exact Hlen].
    destruct symbols; [cbn in Hcat; congruence | cbn; lia].
  - destruct token as [| c token].
    + destruct symbols as [| s symbols].
      * intros pq H. apply elem_of_nil in H. contradiction.
      * unfold bpe in Hb. case_bool_decide.
        -- injection Hb as <- <-. intros pq Hpq. apply elem_of_nil in Hpq. contradiction.
        -- discriminate Hb.
    + destruct (Hres ltac:(discriminate)) as [_ Hmin].
      apply find_min_pair_None. exact Hmin.
Qed.

(** *** What [decode] passes over *)

Lemma decode_kept tk (ids ids' : list Z) :
  omap (kept tk) ids = omap (kept tk) ids' -> decode tk ids = decode tk ids'.
Proof. intros H. unfold decode. fold (kept tk). rewrite H. reflexivity. Qed.

Lemma kept_special tk (id : Z) :
  is_special (specialTokens tk) id = true -> kept tk id = None.
Proof. intros H. unfold kept. rewrite H. reflexivity. Qed.

Lemma is_special_ids tk :
  is_special (specialTokens tk) (pad (specialTokens tk)) = true /\
  is_special (specialTokens tk) (bos (specialTokens tk)) = true /\
  is_special (specialTokens tk) (eos (specialTokens tk)) = true /\
  is_special (specialTokens tk) (unk (specialTokens tk)) = true.
Proof.
  unfold is_special. repeat split; rewrite Z.eqb_refl, ?orb_true_r; reflexivity.
Qed.

Lemma kept_filter tk (ids : list Z) :
  omap (kept tk)
    (filter (fun id => is_special (specialTokens tk) id = false
                       /\ is_Some (reverseVocab tk !! id)) ids)
  = omap (kept tk) ids.
Proof.
  induction ids as [| id ids IH]; [reflexivity |].
  rewrite filter_cons. case_decide as Hd.
  - destruct (kept tk id) as [s |] eqn:E.
    + rewrite !(omap_cons_Some _ id s) by exact E. rewrite IH. reflexivity.
    + rewrite !omap_cons_None by exact E. exact IH.
  - rewrite omap_cons_None; [exact IH |].
    unfold kept. destruct (is_special (specialTokens tk) id) eqn:Es; [reflexivity |].
    destruct (reverseVocab tk !! id) eqn:Er; [| reflexivity].
    exfalso. apply Hd. split; [reflexivity | eauto].
Qed.

Lemma kept_replicate tk (id : Z) (n : nat) :
  is_special (specialTokens tk) id = true -> omap (kept tk) (replicate n id) = [].
Proof.
  intros H. induction n as [| n IH]; [reflexivity |].
  cbn [replicate]. rewrite omap_cons_None by (apply kept_special; exact H). exact IH.
Qed.

(** X15: [decode] passes over the four special ids and over every id
    the reverse vocabulary does not know: the text is the one of the
    remaining ids.  Pad ids appended to a sequence do not show, and the
    text decoded from [encode(text, L).inputIds] is the one decoded from
    the first [L] ids of [encodeForGeneration(text)]. *)
Theorem decode_ignores_special (isL isN : N -> bool) (tk : Tokenizer) :
  (forall ids,
     decode tk ids
     = decode tk (filter (fun id => is_special (specialTokens tk) id = false
                                    /\ is_Some (reverseVocab tk !! id)) ids)) /\
  (forall ids n,
     decode tk (ids ++ replicate n (pad (specialTokens tk))) = decode tk ids) /\
  (forall text L,
     exists inputIds attentionMask gen,
       encode isL isN tk text L = Some (inputIds, attentionMask) /\
       encodeForGeneration isL isN tk text = Some gen /\
       decode tk inputIds = decode tk (take L gen)).
Proof.
  destruct (is_special_ids tk) as (Hpad & Hbos & Heos & Hunk).
  split; [| split].
  - intros ids. apply decode_kept. symmetry. apply kept_filter.
  - intros ids n. apply decode_kept.
    rewrite omap_app, kept_replicate by exact Hpad. apply app_nil_r.
  - intros text L. destruct (words_total isL isN tk text) as [words Hw].
    unfold encode, encodeForGeneration. rewrite Hw. cbn [mbind option_bind].
    set (gen := bos (specialTokens tk) :: concat words).
    set (tokens := bos (specialTokens tk) :: concat words ++ [eos (specialTokens tk)]).
    set (cut := if (L <? length tokens)%nat then take L tokens else tokens).
    assert (cut = take L tokens) as Hcut.
    { unfold cut. destruct (Nat.ltb_spec L (length tokens)); [reflexivity |].
      symmetry. apply take_ge. lia. }
    rewrite pad_loop_spec. eexists _, _, gen.
    split; [reflexivity |]. split; [reflexivity |].
    apply decode_kept. rewrite omap_app, kept_replicate by exact Hpad.
    rewrite app_nil_r, Hcut.
    change tokens with (gen ++ [eos (specialTokens tk)]).
    rewrite take_app, omap_app.
    assert (omap (kept tk) (take (L - length gen) [eos (specialTokens tk)]) = []) as ->.
    { destruct (L - length gen)%nat; [reflexivity |]. cbn [take].
      rewrite take_nil. exact (kept_replicate tk _ 1 Heos). }
    apply app_nil_r.
Qed.

(** *** What the pattern leaves out *)

Section Coverage.

Variable isL : N -> bool.
Variable isN : N -> bool.

Lemma run_of_prefix (p : N -> bool) (s m : list N) :
  run_of p s = Some m -> m <> [] /\ exists rest, s = m ++ rest.
Proof.
  unfold run_of. intros H. pose proof (Coordinator.span_app p s) as (Hs & _ & _).
  destruct (span p s).1 as [| c run]; [discriminate |]. injection H as <-.
  split; [discriminate |]. eexists. exact Hs.
Qed.

Lemma opt_space_run_prefix (p : N -> bool) (s m : list N) :
  opt_space_run p s = Some m -> m <> [] /\ exists rest, s = m ++ rest.
Proof.
  unfold opt_space_run. destruct s as [| c rest]; [discriminate |].
  destruct (c =? 32)%N; [| apply run_of_prefix].
  destruct (run_of p rest) as [run |] eqn:E; [| apply run_of_prefix].
  intros H. injection H as <-. split; [discriminate |].
  apply run_of_prefix in E. destruct E as [_ [rest' ->]]. exists rest'. reflexivity.
Qed.

Lemma contraction_prefix (s m : list N) :
  contraction s = Some m -> m <> [] /\ exists rest, s = m ++ rest.
Proof.
  unfold contraction. destruct s as [| q [| c rest]]; try discriminate.
  destruct (q =? 39)%N; [| discriminate].
  destruct ((c =? 115) || (c =? 100) || (c =? 109) || (c =? 116))%N.
  { intros H. injection H as <-. split; [discriminate |]. exists rest. reflexivity. }
  destruct rest as [| d rest]; [discriminate |].
  destruct ((c =? 108) && (d =? 108) || (c =? 118) && (d =? 101)
            || (c =? 114) && (d =? 101))%N; [| discriminate].
  intros H. injection H as <-. split; [discriminate |]. exists rest. reflexivity.
Qed.

Lemma newline_run_prefix (s m : list N) :
  newline_run s = Some m -> m <> [] /\ exists rest, s = m ++ rest.
Proof.
  unfold newline_run. destruct s as [| c rest]; [discriminate |].
  destruct (is_newline c); [| discriminate]. intros H. injection H as <-.
  split; [discriminate |].
  pose proof (Coordinator.span_app is_space rest) as (Hs & _ & _).
  exists (drop 3 (span is_space rest).1 ++ (span is_space rest).2).
  cbn [app]. f_equal. rewrite app_assoc, take_drop. exact Hs.
Qed.

Lemma trailing_space_prefix (s m : list N) :
  trailing_space s = Some m -> m <> [] /\ exists rest, s = m ++ rest.
Proof.
  unfold trailing_space. intros H.
  pose proof (Coordinator.span_app is_space s) as (Hs & _ & _).
  destruct (span is_space s) as [[| c run] [| d b]]; try discriminate.
  injection H as <-. split; [discriminate |]. exists []. exact Hs.
Qed.

Lemma match_at_prefix (s m : list N) :
  match_at isL isN s = Some m -> m <> [] /\ exists rest, s = m ++ rest.
Proof.
  unfold match_at.
  destruct (contraction s) eqn:E1;
    [intros H; injection H as ->; exact (contraction_prefix _ _ E1) |].
  destruct (opt_space_run isL s) eqn:E2;
    [intros H; injection H as ->; exact (opt_space_run_prefix _ _ _ E2) |].
  destruct (opt_space_run isN s) eqn:E3;
    [intros H; injection H as ->; exact (opt_space_run_prefix _ _ _ E3) |].
  destruct (opt_space_run (is_other isL isN) s) eqn:E4;
    [intros H; injection H as ->; exact (opt_space_run_prefix _ _ _ E4) |].
  destruct (newline_run s) eqn:E5;
    [intros H; injection H as ->; exact (newline_run_prefix _ _ E5) |].
  apply trailing_space_prefix.
Qed.

Lemma run_of_head (p : N -> bool) (c : N) (s : list N) :
  p c = true -> is_Some (run_of p (c :: s)).
Proof.
  intros H. unfold run_of. cbn [span]. rewrite H.
  destruct (span p s) as [a b]. cbn [fst]. eauto.
Qed.

Lemma opt_space_run_head (p : N -> bool) (c : N) (s : list N) :
  p c = true -> is_Some (opt_space_run p (c :: s)).
Proof.
  intros H. unfold opt_space_run.
  destruct (c =? 32)%N; [| apply run_of_head; exact H].
  destruct (run_of p s); [eauto | apply run_of_head; exact H].
Qed.

(** Where nothing matches the text goes on with a white-space character
    and something else after it. *)
Lemma match_at_None (c : N) (s : list N) :
  match_at isL isN (c :: s) = None -> is_space c = true /\ s <> [].
Proof.
  unfold match_at.
  destruct (contraction (c :: s)); [discriminate |].
  destruct (opt_space_run isL (c :: s)) eqn:E2; [discriminate |].
  destruct (opt_space_run isN (c :: s)) eqn:E3; [discriminate |].
  destruct (opt_space_run (is_other isL isN) (c :: s)) eqn:E4; [discriminate |].
  destruct (newline_run (c :: s)); [discriminate |].
  intros E6.
  assert (is_space c = true) as Hc.
  { destruct (is_space c) eqn:Hsp; [reflexivity |]. exfalso.
    destruct (isL c) eqn:HL.
    { destruct (opt_space_run_head isL c s HL) as [? E]. congruence. }
    destruct (isN c) eqn:HN.
    { destruct (opt_space_run_head isN c s HN) as [? E]. congruence. }
    destruct (opt_space_run_head (is_other isL isN) c s) as [? E]; [| congruence].
    unfold is_other. rewrite Hsp, HL, HN. reflexivity. }
  split; [exact Hc |]. intros ->.
  unfold trailing_space in E6. cbn [span] in E6. rewrite Hc in E6. discriminate.
Qed.

Lemma scan_skip (pre rest : list N) :
  scan isL isN (pre ++ rest) (length pre) = scan isL isN rest 0.
Proof. induction pre as [| c pre IH]; [reflexivity | exact IH]. Qed.

Lemma scan_gaps (n : nat) (s : list N) :
  (length s <= n)%nat ->
  exists gaps,
    length gaps = length (scan isL isN s 0) /\
    Forall (Forall (fun c => is_space c = true)) gaps /\
    s = concat (zip_with app gaps (scan isL isN s 0)).
Proof.
  revert s. induction n as [| n IH]; intros s Hlen.
  { destruct s; [| cbn in Hlen; lia]. exists []. repeat split. constructor. }
  destruct s as [| c s]; [exists []; repeat split; constructor |].
  cbn [length] in Hlen. cbn [scan].
  destruct (match_at isL isN (c :: s)) as [m |] eqn:Em.
  - destruct (match_at_prefix _ _ Em) as [Hm [rest Hrest]].
    destruct m as [| c' m']; [contradiction |].
    cbn [app] in Hrest. injection Hrest as <- ->.
    replace (length (c :: m') - 1)%nat with (length m') by (cbn [length]; lia).
    rewrite scan_skip.
    destruct (IH rest) as (gaps & Hg & Hsp & Hcat).
    { rewrite length_app in Hlen. lia. }
    exists ([] :: gaps). split; [cbn [length]; congruence |].
    split; [constructor; [constructor | exact Hsp] |].
    cbn [zip_with concat app]. rewrite <- Hcat. reflexivity.
  - destruct (match_at_None c s Em) as [Hc Hs].
    destruct (IH s ltac:(lia)) as (gaps & Hg & Hsp & Hcat).
    destruct (scan isL isN s 0) as [| m ms].
    { destruct gaps; [| discriminate]. cbn in Hcat. contradiction. }
    destruct gaps as [| g gaps]; [discriminate |].
    exists ((c :: g) :: gaps). split; [exact Hg |].
    apply Forall_cons in Hsp. destruct Hsp as [Hg1 Hsp].
    split; [constructor; [constructor; assumption | exact Hsp] |].
    cbn [zip_with concat app] in *. rewrite <- Hcat. reflexivity.
Qed.

Lemma scan_nonempty (n : nat) (s : list N) (skip : nat) :
  (length s <= n)%nat -> Forall (fun m => m <> []) (scan isL isN s skip).
Proof.
  revert s skip. induction n as [| n IH]; intros s skip Hlen.
  { destruct s; [constructor | cbn in Hlen; lia]. }
  destruct s as [| c s]; [constructor |]. cbn [length] in Hlen. cbn [scan].
  destruct skip as [| k]; [| apply IH; lia].
  destruct (match_at isL isN (c :: s)) as [m |] eqn:Em; [| apply IH; lia].
  constructor; [exact (proj1 (match_at_prefix _ _ Em)) | apply IH; lia].
Qed.

Lemma gaps_filter (gaps ms : list (list N)) :
  Forall (Forall (fun c => is_space c = true)) gaps ->
  length gaps = length ms ->
  concat ms `sublist_of` concat (zip_with app gaps ms) /\
  filter (fun c => is_space c = false) (concat (zip_with app gaps ms))
  = filter (fun c => is_space c = false) (concat ms).
Proof.
  intros Hsp. revert ms. induction Hsp as [| g gaps Hg _ IH]; intros ms Hlen.
  - destruct ms; [| discriminate]. split; reflexivity.
  - destruct ms as [| m ms]; [discriminate |]. cbn [length] in Hlen.
    destruct (IH ms ltac:(lia)) as [Hsub Hfil].
    cbn [zip_with concat]. split.
    + rewrite <- app_assoc. apply sublist_inserts_l.
      apply sublist_app; [reflexivity | exact Hsub].
    + rewrite <- app_assoc, !filter_app, Hfil.
      assert (filter (fun c => is_space c = false) g = []) as ->; [| reflexivity].
      clear -Hg. induction Hg as [| c g Hc _ IHg]; [reflexivity |].
      rewrite filter_cons. case_decide; [congruence | exact IHg].
Qed.

End Coverage.

(** X16: the matches of the pattern are consecutive pieces of the text,
    none of them empty; what lies between two of them, or before the
    first, is white space only, and nothing is left after the last.  So
    the matches joined are the text with some white space taken out:
    every other character is kept, in order. *)
Theorem pretokenize_gaps (isL isN : N -> bool) (text : list N) :
  let matches := pretokenize isL isN text in
  Forall (fun m => m <> []) matches /\
  (exists gaps,
     length gaps = length matches /\
     Forall (Forall (fun c => is_space c = true)) gaps /\
     text = concat (zip_with app gaps matches)) /\
  concat matches `sublist_of` text /\
  filter (fun c => is_space c = false) (concat matches)
  = filter (fun c => is_space c = false) text.
Proof.
  cbn zeta. unfold pretokenize.
  destruct (scan_gaps isL isN (length text) text (le_n _)) as (gaps & Hg & Hsp & Hcat).
  destruct (gaps_filter gaps (scan isL isN text 0) Hsp Hg) as [Hsub Hfil].
  split; [apply (scan_nonempty isL isN (length text)); reflexivity |].
  split; [exists gaps; repeat split; assumption |].
  rewrite <- Hcat in Hsub, Hfil. split; [exact Hsub | symmetry; exact Hfil].
Qed.

(** Every white-space character of the text is a line break, or a space
    with a character after it that is not white space. *)
Fixpoint plain_spaces (s : list N) : bool :=
  match s with
  | [] => true
  | c :: s' =>
      (if is_space c && negb (is_newline c)
       then (c =? 32)%N && match s' with
                           | d :: _ => negb (is_space d)
                           | [] => false
                           end
       else true)
      && plain_spaces s'
  end.

Lemma plain_spaces_suffix (m rest : list N) :
  plain_spaces (m ++ rest) = true -> plain_spaces rest = true.
Proof.
  induction m as [| c m IH]; [trivial |]. cbn [app plain_spaces].
  intros H. apply andb_true_iff in H. apply IH. apply H.
Qed.

Lemma match_at_plain (isL isN : N -> bool) (c : N) (s : list N) :
  plain_spaces (c :: s) = true -> is_Some (match_at isL isN (c :: s)).
Proof.
  intros Hp. destruct (match_at isL isN (c :: s)) as [m |] eqn:Em; [eauto |].
  exfalso. pose proof (match_at_None isL isN c s Em) as [Hc _].
  unfold match_at in Em.
  destruct (contraction (c :: s)); [discriminate |].
  destruct (opt_space_run isL (c :: s)) eqn:E2; [discriminate |].
  destruct (opt_space_run isN (c :: s)) eqn:E3; [discriminate |].
  destruct (opt_space_run (is_other isL isN) (c :: s)) eqn:E4; [discriminate |].
  destruct (newline_run (c :: s)) eqn:E5; [discriminate |].
  cbn [plain_spaces] in Hp. rewrite Hc in Hp. cbn [andb] in Hp.
  unfold newline_run in E5. destruct (is_newline c); [discriminate |].
  cbn [negb] in Hp. destruct s as [| d s]; [rewrite andb_false_r in Hp; discriminate |].
  apply andb_true_iff in Hp. destruct Hp as [Hp _].
  apply andb_true_iff in Hp. destruct Hp as [Hc32 Hd].
  apply negb_true_iff in Hd.
  assert (forall p, p d = true -> opt_space_run p (c :: d :: s) <> None) as Hrun.
  { intros p Hpd. unfold opt_space_run. rewrite Hc32.
    destruct (run_of_head p d s Hpd) as [run ->]. discriminate. }
  destruct (isL d) eqn:HL; [exact (Hrun isL HL E2) |].
  destruct (isN d) eqn:HN; [exact (Hrun isN HN E3) |].
  apply (Hrun (is_other isL isN)); [| exact E4].
  unfold is_other. rewrite Hd, HL, HN. reflexivity.
Qed.

(** X17: when every white-space character of the text is a line break,
    or a single space followed by a character that is not white space,
    the pattern leaves nothing out: the matches joined are the text,
    whatever the tables behind [\p{L}] and [\p{N}]. *)
Theorem pretokenize_covers_plain (isL isN : N -> bool) (text : list N) :
  plain_spaces text = true ->
  concat (pretokenize isL isN text) = text.
Proof.
  unfold pretokenize. intros Hp.
  assert (exists n, length text <= n)%nat as [n Hlen] by (exists (length text); lia).
  revert text Hp Hlen. induction n as [| n IH]; intros s Hp Hlen.
  { destruct s; [reflexivity | cbn in Hlen; lia]. }
  destruct s as [| c s]; [reflexivity |]. cbn [length] in Hlen. cbn [scan].
  destruct (match_at_plain isL isN c s Hp) as [m Em]. rewrite Em.
  destruct (match_at_prefix isL isN _ _ Em) as [Hm [rest Hrest]].
  destruct m as [| c' m']; [contradiction |].
  cbn [app] in Hrest. injection Hrest as <- ->.
  replace (length (c :: m') - 1)%nat with (length m') by (cbn [length]; lia).
  rewrite scan_skip. cbn [concat]. rewrite IH; [reflexivity | |].
  - apply (plain_spaces_suffix (c :: m')). exact Hp.
  - rewrite length_app in Hlen. lia.
Qed.

Lemma pretokenize_covers_plain_witness :
  concat (pretokenize ascii_letter ascii_digit (str "it's 4 pm"))
  = str "it's 4 pm".
Proof.
  apply (pretokenize_covers_plain ascii_letter ascii_digit (str "it's 4 pm")).
  vm_compute. reflexivity.
Defined.

Lemma merge_key_inj (a b a' b' : list N) :
  32%N ∉ a -> 32%N ∉ a' -> merge_key a b = merge_key a' b' -> a = a' /\ b = b'.
Proof.
  unfold merge_key. revert a'. induction a as [| c a IH]; intros a' Ha Ha' E.
  - destruct a' as [| c' a']; cbn [app] in E.
    + injection E as ->. split; reflexivity.
    + injection E as <- _. exfalso. apply Ha'. left.
  - apply not_elem_of_cons in Ha. destruct Ha as [Hc Ha].
    destruct a' as [| c' a']; cbn [app] in E.
    + injection E as -> _. congruence.
    + injection E as -> E. apply not_elem_of_cons in Ha'. destruct Ha' as [_ Ha'].
      destruct (IH a' Ha Ha' E) as [-> ->]. split; reflexivity.
Qed.

Lemma textToBytes_no_space (w : list N) :
  Forall (fun c => is_space c = false) (textToBytes w).
Proof.
  unfold textToBytes. induction (Utf8.encode w) as [| b bytes IH]; [constructor |].
  destruct (BYTE_TO_UNICODE !! b) as [c |] eqn:E.
  - rewrite (omap_cons_Some _ b c) by exact E. constructor; [| exact IH].
    apply (byte_table_entry b c). exact E.
  - rewrite omap_cons_None by exact E. exact IH.
Qed.

(** X18: the key [`${a} ${b}`] under which [merges] holds a pair names
    one pair only, as long as the first symbol has no space in it; and
    the symbols [bpe] makes of a byte-encoded word never have one, since
    no character of the byte table is white space. *)
Theorem merge_key_unambiguous (tk : Tokenizer) :
  (forall a b a' b',
     32%N ∉ a -> 32%N ∉ a' -> merge_key a b = merge_key a' b' ->
     a = a' /\ b = b') /\
  (forall w, Forall (fun c => is_space c = false) (textToBytes w)) /\
  (forall w symbols s,
     bpe tk (textToBytes w) = Some symbols -> s ∈ symbols -> 32%N ∉ s).
Proof.
  split; [exact merge_key_inj |]. split; [exact textToBytes_no_space |].
  intros w symbols s Hb Hs Hin.
  destruct (bpe_spec tk (textToBytes w)) as (symbols' & Hb' & Hcat).
  rewrite Hb in Hb'. injection Hb' as <-.
  pose proof (textToBytes_no_space w) as Hno. rewrite <- Hcat in Hno.
  rewrite Forall_forall in Hno.
  assert (is_space 32 = false) as Habs; [| vm_compute in Habs; discriminate].
  apply Hno. apply list_elem_of_In, in_concat. exists s.
  split; apply list_elem_of_In; assumption.
Qed.

End Tokenizer.

(** ** Fenced code blocks (codeDetection.ts) *)

Module CodeDetection.

Import Text.

(** The three backticks. *)
Definition fence : list N := [96; 96; 96]%N.

(** The three backticks at the start of [s]: what follows them. *)
Definition after_fence (s : list N) : option (list N) :=
  match s with
  | a :: b :: c :: rest =>
      if ((a =? 96) && (b =? 96) && (c =? 96))%N then Some rest else None
  | _ => None
  end.

(** [[\s\S]*?```] at the start of [s]: the shortest run of characters
    that three backticks follow. *)
Fixpoint lazy_body (s : list N) : option (list N) :=
  match after_fence s with
  | Some _ => Some []
  | None =>
      match s with
      | [] => None
      | c :: s' => cons c <$> lazy_body s'
      end
  end.

(** [\w]. *)
Definition is_word (c : N) : bool :=
  ((48 <=? c) && (c <=? 57) || (65 <=? c) && (c <=? 90)
   || (97 <=? c) && (c <=? 122) || (c =? 95))%N.

(** [\w*\n] at the start of [s]: what follows it.  The run is the
    longest one; a shorter run is followed by a word character, not by
    the line feed. *)
Definition tag_line (s : list N) : option (list N) :=
  match (span is_word s).2 with
  | c :: rest => if (c =? 10)%N then Some rest else None
  | [] => None
  end.

(** The pattern of [containsCode] at the start of [s]. *)
Definition match_contains (s : list N) : option unit :=
  rest ← after_fence s;
  _ ← lazy_body rest;
  Some tt.

(** The pattern of [extractCode] at the start of [s]: the captured
    group.  The optional tag line is tried first; when the rest does not
    match behind it the pattern is tried again without it. *)
Definition match_extract (s : list N) : option (list N) :=
  rest ← after_fence s;
  match after ← tag_line rest; lazy_body after with
  | Some body => Some body
  | None => lazy_body rest
  end.

(** The search of a pattern without the [g] flag: the first position
    where it matches. *)
Fixpoint search {A} (m : list N -> option A) (s : list N) : option A :=
  match m s with
  | Some r => Some r
  | None =>
      match s with
      | [] => None
      | _ :: s' => search m s'
      end
  end.

Definition containsCode (text : list N) : bool :=
  match search match_contains text with
  | Some _ => true
  | None => false
  end.

(** [extractCode]; [None] is [null]. *)
Definition extractCode (text : list N) : option (list N) :=
  trim <$> search match_extract text.

Example extractCode_demo :
  extractCode (str "see ```js
let x = 1;
``` and more") = Some (str "let x = 1;").
Proof. vm_compute. reflexivity. Qed.

(** A block of one word is taken for its language tag. *)
Example extractCode_tag_only :
  extractCode (str "```ls
```") = Some [].
Proof. vm_compute. reflexivity. Qed.

(** [s] has three backticks in a row somewhere. *)
Definition has_fence (s : list N) : Prop := exists a c, s = a ++ fence ++ c.

Lemma after_fence_Some (s rest : list N) :
  after_fence s = Some rest <-> s = fence ++ rest.
Proof.
  unfold after_fence, fence. split.
  - destruct s as [| a [| b [| c s]]]; try discriminate.
    destruct (N.eqb_spec a 96); [| discriminate].
    destruct (N.eqb_spec b 96); [| discriminate].
    destruct (N.eqb_spec c 96); [| discriminate].
    cbn. intros H. injection H as <-. subst. reflexivity.
  - intros ->. reflexivity.
Qed.

Lemma after_fence_head (c : N) (s : list N) :
  c <> 96%N -> after_fence (c :: s) = None.
Proof.
  intros H. unfold after_fence. destruct s as [| b [| d s]]; try reflexivity.
  destruct (N.eqb_spec c 96); [contradiction | reflexivity].
Qed.

Lemma lazy_body_Some (s body : list N) :
  lazy_body s = Some body ->
  (exists rest, s = body ++ fence ++ rest) /\ ~ has_fence body.
Proof.
  revert body. induction s as [| c s IH]; intros body.
  - cbn. discriminate.
  - cbn [lazy_body]. destruct (after_fence (c :: s)) as [rest |] eqn:E.
    + intros H. injection H as <-. apply after_fence_Some in E. split.
      * exists rest. exact E.
      * intros (a & d & Habs). destruct a; discriminate Habs.
    + destruct (lazy_body s) as [body' |]; [| discriminate].
      cbn. intros H. injection H as <-.
      destruct (IH body' eq_refl) as [[rest Hs] Hno]. split.
      * exists rest. change (c :: s = c :: (body' ++ fence ++ rest)).
        f_equal. exact Hs.
      * intros (a & d & Habs). destruct a as [| x a].
        -- cbn [app] in Habs.
           assert (c :: s = fence ++ (d ++ fence ++ rest)) as Hx.
           { rewrite Hs. change ((c :: body') ++ fence ++ rest = fence ++ d ++ fence ++ rest).
             rewrite Habs, <- app_assoc. reflexivity. }
           apply after_fence_Some in Hx. congruence.
        -- cbn [app] in Habs. injection Habs as _ ->. apply Hno. exists a, d.
           reflexivity.
Qed.

Lemma lazy_body_has_fence (s : list N) :
  has_fence s -> is_Some (lazy_body s).
Proof.
  intros (a & c & ->). induction a as [| x a IH].
  - cbn [app]. unfold fence. cbn. eauto.
  - cbn [app lazy_body]. destruct (after_fence (x :: a ++ fence ++ c)); [eauto |].
    destruct IH as [body ->]. cbn. eauto.
Qed.

Lemma lazy_body_first (body rest : list N) :
  96%N ∉ body -> lazy_body (body ++ fence ++ rest) = Some body.
Proof.
  induction body as [| c body IH]; intros Hno.
  - reflexivity.
  - apply not_elem_of_cons in Hno. destruct Hno as [Hc Hno].
    cbn [app lazy_body]. rewrite after_fence_head by congruence.
    rewrite IH by exact Hno. reflexivity.
Qed.

Lemma search_Some {A} (m : list N -> option A) (s : list N) (r : A) :
  search m s = Some r -> exists pre suf, s = pre ++ suf /\ m suf = Some r.
Proof.
  induction s as [| c s IH]; cbn [search].
  - destruct (m []) eqn:E; [| discriminate]. intros H. injection H as <-.
    exists [], []. split; [reflexivity | exact E].
  - destruct (m (c :: s)) eqn:E.
    + intros H. injection H as <-. exists [], (c :: s). split; [reflexivity | exact E].
    + intros H. destruct (IH H) as (pre & suf & -> & Hm).
      exists (c :: pre), suf. split; [reflexivity | exact Hm].
Qed.

Lemma search_found {A} (m : list N -> option A) (pre suf : list N) :
  is_Some (m suf) -> is_Some (search m (pre ++ suf)).
Proof.
  intros Hm. induction pre as [| c pre IH].
  - cbn [app]. destruct suf; cbn [search]; destruct Hm as [r ->]; eauto.
  - cbn [app search]. destruct (m (c :: pre ++ suf)); [eauto | exact IH].
Qed.

Lemma search_first {A} (m : list N -> option A) (pre suf : list N) :
  (forall a b, pre = a ++ b -> b <> [] -> m (b ++ suf) = None) ->
  search m (pre ++ suf) = search m suf.
Proof.
  induction pre as [| c pre IH]; intros H; [reflexivity |].
  pose proof (H [] (c :: pre) eq_refl ltac:(discriminate)) as E.
  cbn [app search] in *. rewrite E.
  apply IH. intros a b -> Hb. apply (H (c :: a) b); [reflexivity | exact Hb].
Qed.

Lemma match_extract_contains (s : list N) :
  is_Some (match_extract s) <-> is_Some (match_contains s).
Proof.
  unfold match_extract, match_contains.
  destruct (after_fence s) as [rest |]; cbn [mbind option_bind];
    [| split; intros [? ?]; discriminate].
  destruct (tag_line rest) as [after |] eqn:Et; cbn [mbind option_bind].
  - destruct (lazy_body after) as [body |] eqn:Eb.
    + split; [| eauto]. intros _.
      assert (is_Some (lazy_body rest)) as [b ->]; [| cbn; eauto].
      apply lazy_body_has_fence. apply lazy_body_Some in Eb.
      destruct Eb as [[rest' ->] _]. unfold tag_line in Et.
      pose proof (Coordinator.span_app is_word rest) as (Hs & _ & _).
      destruct (span is_word rest).2 as [| c x]; [discriminate |].
      destruct (c =? 10)%N; [| discriminate]. injection Et as ->.
      exists ((span is_word rest).1 ++ c :: body), rest'.
      rewrite Hs at 1. rewrite <- !app_assoc. reflexivity.
    + destruct (lazy_body rest); cbn; split; intros [? ?]; eauto; discriminate.
  - destruct (lazy_body rest); cbn; split; intros [? ?]; eauto; discriminate.
Qed.

Lemma search_is_Some_ext {A B} (m : list N -> option A) (m' : list N -> option B)
    (s : list N) :
  (forall t, is_Some (m t) <-> is_Some (m' t)) ->
  is_Some (search m s) <-> is_Some (search m' s).
Proof.
  intros H. induction s as [| c s IH]; cbn [search].
  - specialize (H []). destruct (m []), (m' []); split; intros [? ?];
      eauto; try discriminate;
      [ destruct (proj1 H (ltac:(eauto))) | destruct (proj2 H (ltac:(eauto))) ];
      discriminate.
  - specialize (H (c :: s)). destruct (m (c :: s)) eqn:E, (m' (c :: s)) eqn:E'.
    + split; eauto.
    + destruct (proj1 H (ltac:(eauto))); discriminate.
    + destruct (proj2 H (ltac:(eauto))); discriminate.
    + exact IH.
Qed.

(** X19: [containsCode] is true exactly on the texts that hold three
    backticks twice, the second time after the end of the first; and
    [extractCode] returns a string on these texts and [null] on all
    others. *)
Theorem extractCode_iff_containsCode (text : list N) :
  (containsCode text = true <->
   exists a b c, text = a ++ fence ++ b ++ fence ++ c) /\
  (is_Some (extractCode text) <-> containsCode text = true).
Proof.
  assert (containsCode text = true <-> is_Some (search match_contains text)) as Hc.
  { unfold containsCode. destruct (search match_contains text); split;
      eauto; try discriminate. intros [? ?]. discriminate. }
  split.
  - rewrite Hc. split.
    + intros [[] H]. apply search_Some in H. destruct H as (pre & suf & -> & Hm).
      unfold match_contains in Hm.
      destruct (after_fence suf) as [rest |] eqn:Ef; [| discriminate].
      cbn [mbind option_bind] in Hm.
      destruct (lazy_body rest) as [body |] eqn:Eb; [| discriminate].
      apply after_fence_Some in Ef. apply lazy_body_Some in Eb.
      destruct Eb as [[rest' ->] _]. subst suf. exists pre, body, rest'. reflexivity.
    + intros (a & b & c & ->). apply search_found. unfold match_contains.
      assert (after_fence (fence ++ b ++ fence ++ c) = Some (b ++ fence ++ c)) as ->
        by (apply after_fence_Some; reflexivity).
      cbn [mbind option_bind].
      destruct (lazy_body_has_fence (b ++ fence ++ c)) as [body ->];
        [exists b, c; reflexivity |]. cbn. eauto.
  - rewrite Hc. unfold extractCode. rewrite fmap_is_Some.
    apply search_is_Some_ext. exact match_extract_contains.
Qed.

Lemma trim_end_prefix (s : list N) :
  exists trail, s = trim_end s ++ trail.
Proof.
  induction s as [| c s [trail IH]]; [exists []; reflexivity |].
  cbn [trim_end]. destruct (trim_end s) as [| x t].
  - destruct (is_space c); [exists (c :: s) | exists s]; reflexivity.
  - exists trail. cbn [app] in *. congruence.
Qed.

Lemma trim_end_last (s : list N) (c : N) :
  last (trim_end s) = Some c -> is_space c = false.
Proof.
  induction s as [| d s IH]; [discriminate |].
  cbn [trim_end]. destruct (trim_end s) as [| x t].
  - destruct (is_space d) eqn:E; cbn; [discriminate |]. intros H. congruence.
  - change (last (d :: x :: t)) with (last (x :: t)). exact IH.
Qed.

Lemma trim_end_head (c : N) (s : list N) : head (trim_end (c :: s)) = Some c \/ trim_end (c :: s) = [].
Proof.
  cbn [trim_end]. destruct (trim_end s); [| left; reflexivity].
  destruct (is_space c); [right | left]; reflexivity.
Qed.

(** What [trim] returns is a piece of the string that neither starts
    nor ends with white space. *)
Lemma trim_spec (s : list N) :
  (exists lead trail, s = lead ++ trim s ++ trail) /\
  (forall c, head (trim s) = Some c -> is_space c = false) /\
  (forall c, last (trim s) = Some c -> is_space c = false).
Proof.
  unfold trim. pose proof (Coordinator.span_app is_space s) as (Hs & _ & Hnext).
  split; [| split].
  - destruct (trim_end_prefix (span is_space s).2) as [trail Ht].
    exists (span is_space s).1, trail. rewrite <- Ht. exact Hs.
  - intros c Hc. destruct (span is_space s).2 as [| d rest]; [discriminate |].
    destruct (trim_end_head d rest) as [H | H]; rewrite H in Hc; [| discriminate].
    injection Hc as <-. apply (Hnext d rest). reflexivity.
  - apply trim_end_last.
Qed.

Lemma search_here {A} (m : list N -> option A) (s : list N) (r : A) :
  m s = Some r -> search m s = Some r.
Proof. intros H. destruct s; cbn [search]; rewrite H; reflexivity. Qed.

Lemma span_stop (p : N -> bool) (run : list N) (c : N) (rest : list N) :
  Forall (fun x => p x = true) run -> p c = false ->
  span p (run ++ c :: rest) = (run, c :: rest).
Proof.
  intros Hrun Hc. induction Hrun as [| x run Hx _ IH]; cbn [app span].
  - rewrite Hc. reflexivity.
  - rewrite Hx, IH. reflexivity.
Qed.

(** X20: what [extractCode] returns is a piece of the text that follows
    three backticks; it holds no three backticks in a row and neither
    starts nor ends with white space. *)
Theorem extractCode_trimmed (text code : list N) :
  extractCode text = Some code ->
  (exists a c, text = a ++ fence ++ c /\ exists l r, c = l ++ code ++ r) /\
  ~ has_fence code /\
  (forall c, head code = Some c -> is_space c = false) /\
  (forall c, last code = Some c -> is_space c = false).
Proof.
  unfold extractCode. intros H. apply fmap_Some in H. destruct H as (body & Hm & ->).
  apply search_Some in Hm. destruct Hm as (pre & suf & -> & Hm).
  unfold match_extract in Hm.
  destruct (after_fence suf) as [rest |] eqn:Ef; [| discriminate].
  apply after_fence_Some in Ef. subst suf. cbn [mbind option_bind] in Hm.
  destruct (trim_spec body) as ((lead & trail & Hbody) & Hhead & Hlast).
  assert ((exists l r, rest = l ++ body ++ r) /\ ~ has_fence body) as [Hsub Hno].
  { destruct (tag_line rest) as [after |] eqn:Et; cbn [mbind option_bind] in Hm.
    - destruct (lazy_body after) as [body' |] eqn:Eb.
      + injection Hm as ->. apply lazy_body_Some in Eb.
        destruct Eb as [[rest' ->] Hno]. split; [| exact Hno].
        unfold tag_line in Et.
        pose proof (Coordinator.span_app is_word rest) as (Hs & _ & _).
        destruct (span is_word rest).2 as [| c x]; [discriminate |].
        destruct (c =? 10)%N; [| discriminate]. injection Et as ->.
        exists ((span is_word rest).1 ++ [c]), (fence ++ rest').
        rewrite Hs at 1. rewrite <- !app_assoc. reflexivity.
      + apply lazy_body_Some in Hm. destruct Hm as [[rest' ->] Hno].
        split; [exists [], (fence ++ rest'); reflexivity | exact Hno].
    - apply lazy_body_Some in Hm. destruct Hm as [[rest' ->] Hno].
      split; [exists [], (fence ++ rest'); reflexivity | exact Hno]. }
  split; [| split; [| split; assumption]].
  - exists pre, rest. split; [reflexivity |].
    destruct Hsub as (l & r & ->). exists (l ++ lead), (trail ++ r).
    rewrite Hbody at 1. rewrite <- !app_assoc. reflexivity.
  - intros (a & c & Hc). apply Hno. exists (lead ++ a), (c ++ trail).
    rewrite Hbody, Hc, <- !app_assoc. reflexivity.
Qed.

Lemma extractCode_trimmed_witness :
  ~ has_fence (str "let x = 1;").
Proof.
  apply (extractCode_trimmed (str "see ```js
let x = 1;
``` and more") (str "let x = 1;")).
  vm_compute. reflexivity.
Defined.

(** X21: a block that opens with three backticks, a language tag of
    word characters (or none) and a line feed, and whose code has no
    backtick, is extracted whole, without the white space around it,
    whatever follows the closing backticks and whatever text without a
    backtick comes before the block. *)
Theorem extractCode_block (pre tag code post : list N) :
  96%N ∉ pre ->
  Forall (fun c => is_word c = true) tag ->
  96%N ∉ code ->
  containsCode (pre ++ fence ++ tag ++ 10%N :: code ++ fence ++ post) = true /\
  extractCode (pre ++ fence ++ tag ++ 10%N :: code ++ fence ++ post)
  = Some (trim code).
Proof.
  intros Hpre Htag Hcode.
  assert (forall A (m : list N -> option A) suf,
            (forall c s, c <> 96%N -> m (c :: s) = None) ->
            search m (pre ++ suf) = search m suf) as Hskip.
  { intros A m suf Hm. apply search_first. intros a b -> Hb.
    destruct b as [| c b]; [contradiction |]. cbn [app]. apply Hm.
    intros ->. apply Hpre. apply elem_of_app. right. left. }
  split.
  - unfold containsCode. rewrite Hskip.
    2: { intros c s Hc. unfold match_contains. rewrite after_fence_head by exact Hc.
         reflexivity. }
    rewrite (search_here _ _ tt); [reflexivity |].
    unfold match_contains.
    assert (after_fence (fence ++ tag ++ 10%N :: code ++ fence ++ post)
            = Some (tag ++ 10%N :: code ++ fence ++ post)) as ->
      by (apply after_fence_Some; reflexivity).
    cbn [mbind option_bind].
    destruct (lazy_body_has_fence (tag ++ 10%N :: code ++ fence ++ post)) as [b ->];
      [| reflexivity].
    exists (tag ++ 10%N :: code), post. rewrite <- app_assoc. reflexivity.
  - unfold extractCode. rewrite Hskip.
    2: { intros c s Hc. unfold match_extract. rewrite after_fence_head by exact Hc.
         reflexivity. }
    rewrite (search_here _ _ code); [reflexivity |].
    unfold match_extract.
    assert (after_fence (fence ++ tag ++ 10%N :: code ++ fence ++ post)
            = Some (tag ++ 10%N :: code ++ fence ++ post)) as ->
      by (apply after_fence_Some; reflexivity).
    cbn [mbind option_bind]. unfold tag_line.
    rewrite (span_stop is_word tag 10) by (exact Htag || reflexivity).
    cbn [snd]. change (10 =? 10)%N with true. cbn [mbind option_bind].
    rewrite lazy_body_first by exact Hcode. reflexivity.
Qed.

Lemma extractCode_block_witness :
  extractCode (str "run ```sh
 ls -l
``` now") = Some (str "ls -l").
Proof.
  apply (extractCode_block (str "run ") (str "sh") (str " ls -l
") (str " now"));
    [ vm_compute; intros H; repeat (apply elem_of_cons in H; destruct H as [H | H];
                                    [discriminate H |]);
      apply elem_of_nil in H; exact H
    | repeat constructor
    | vm_compute; intros H; repeat (apply elem_of_cons in H; destruct H as [H | H];
                                    [discriminate H |]);
      apply elem_of_nil in H; exact H ].
Defined.

End CodeDetection.

(** ** The classifier engine (inference.ts) *)

Module Inference.

Import Sampling.
Local Open Scope Q_scope.

(** A label is the string the metadata holds for a class. *)
Record ModelMetadata := {
  num_classes : nat;
  id_to_label : gmap nat (list N)
}.

(** [label] is [None] where [id_to_label] has no entry and the property
    read is [undefined]. *)
Record Prediction := { label : option (list N); score : Q }.

Section WithExp.

Variable exp : Q -> Q.

(** [softmax]; [None] stands for a result whose entries are not finite,
    which takes a sum of the exponentials that is zero. *)
Definition softmax (logits : list Q) : option (list Q) :=
  match logits with
  | [] => Some []
  | x :: l =>
      let max := maxOf x l in
      let exps := map (fun l => exp (l - max)) logits in
      let sum := fold_left Qplus exps 0 in
      if Qeq_bool sum 0 then None else Some (map (fun e => e / sum) exps)
  end.

End WithExp.

(** The comparator [(a, b) => b.score - a.score]. *)
Definition compareScore (a b : Prediction) : Q := score b - score a.

(** [Array.prototype.sort], stable, as an insertion from the right. *)
Fixpoint insert_prediction (x : Prediction) (l : list Prediction) : list Prediction :=
  match l with
  | [] => [x]
  | y :: l' =>
      if Qlt_bool 0 (compareScore x y) then y :: insert_prediction x l'
      else x :: y :: l'
  end.

Definition sortPredictions (l : list Prediction) : list Prediction :=
  foldr insert_prediction [] l.

(** The engine: [session.run] maps the two tensors to the logits, or
    fails; both fields are [None] before [load]. *)
Record InferenceEngine := {
  session : option (list Z -> list Z -> option (list Q));
  metadata : option ModelMetadata
}.

(** How [classify] ends: with the predictions, with scores that are not
    finite numbers, or rejected (not loaded, or the session failed). *)
Inductive Classified :=
| Predictions (ps : list Prediction)
| NonFinite
| Rejected.

Definition classify (exp : Q -> Q) (engine : InferenceEngine)
    (inputIds attentionMask : list Z) : Classified :=
  match session engine, metadata engine with
  | Some run, Some meta =>
      match run inputIds attentionMask with
      | None => Rejected
      | Some logits =>
          match softmax exp logits with
          | None => NonFinite
          | Some probs =>
              let predictions :=
                imap (fun i score =>
                        {| label := id_to_label meta !! i; score := score |}) probs in
              Predictions (sortPredictions predictions)
          end
      end
  | _, _ => Rejected
  end.

(** A classifier of three classes that returns fixed logits. *)
Definition demo_classifier : InferenceEngine :=
  {| session := Some (fun _ _ => Some [1; 3; 2]);
     metadata :=
       Some {| num_classes := 3;
               id_to_label :=
                 {[ 0%nat := Text.str "easy"; 1%nat := Text.str "hard";
                    2%nat := Text.str "medium" ]} |} |}.

Example classify_demo :
  classify exp_poly demo_classifier [2; 5; 3]%Z [1; 1; 1]%Z
  = Predictions [ {| label := Some (Text.str "easy"); score := 5 # 8 |};
                  {| label := Some (Text.str "medium"); score := 2 # 8 |};
                  {| label := Some (Text.str "hard"); score := 1 # 8 |} ].
Proof. vm_compute. reflexivity. Qed.

(** *** Sums of a loop of additions *)

Lemma sum_from (l : list Q) (a : Q) :
  fold_left Qplus l a == a + fold_left Qplus l 0.
Proof.
  revert a. induction l as [| x l IH]; intros a; cbn [fold_left]; [lra |].
  rewrite (IH (a + x)), (IH (0 + x)). lra.
Qed.

Lemma sum_bounds (l : list Q) :
  Forall (fun x => 0 < x) l ->
  0 <= fold_left Qplus l 0 /\
  (l <> [] -> 0 < fold_left Qplus l 0) /\
  Forall (fun x => x <= fold_left Qplus l 0) l.
Proof.
  induction 1 as [| x l Hx Hl (H0 & _ & Hall)]; cbn [fold_left].
  - split; [lra |]. split; [congruence | constructor].
  - rewrite sum_from. split; [lra |]. split; [intros _; lra |].
    constructor; [rewrite sum_from; lra |]. eapply Forall_impl; [exact Hall |].
    cbn beta. intros y Hy. rewrite sum_from. lra.
Qed.

Lemma sum_scaled (l : list Q) (s : Q) :
  fold_left Qplus (map (fun e => e / s) l) 0 == fold_left Qplus l 0 / s.
Proof.
  induction l as [| x l IH]; cbn [map fold_left].
  - unfold Qdiv. lra.
  - rewrite sum_from, IH, (sum_from l (0 + x)). unfold Qdiv. lra.
Qed.

Section Distribution.

Variable exp : Q -> Q.
Hypothesis exp_pos : forall x, 0 < exp x.

Lemma softmax_total (logits : list Q) :
  exists probs,
    softmax exp logits = Some probs /\
    length probs = length logits /\
    Forall (fun p => 0 < p /\ p <= 1) probs /\
    (logits <> [] -> fold_left Qplus probs 0 == 1).
Proof.
  destruct logits as [| x l].
  { exists []. repeat split; [constructor | congruence]. }
  unfold softmax.
  set (exps := map (fun y => exp (y - maxOf x l)) (x :: l)).
  assert (Forall (fun e => 0 < e) exps) as Hpos.
  { apply Forall_map. apply Forall_forall. intros y _. apply exp_pos. }
  destruct (sum_bounds exps Hpos) as (_ & Hs & Hle).
  specialize (Hs ltac:(discriminate)).
  set (sum := fold_left Qplus exps 0) in *.
  destruct (Qeq_bool sum 0) eqn:E.
  { apply Qeq_bool_iff in E. lra. }
  exists (map (fun e => e / sum) exps). split; [reflexivity |].
  split; [unfold exps; rewrite !length_map; reflexivity |]. split.
  - apply Forall_map. rewrite Forall_forall in Hpos, Hle |- *. intros e He.
    specialize (Hpos e He). specialize (Hle e He). cbn beta in *. split.
    + apply Qlt_shift_div_l; lra.
    + apply Qle_shift_div_r; lra.
  - intros _. rewrite sum_scaled. fold sum. field. lra.
Qed.


End Distribution.


(** *** The order of the predictions *)

(** The prediction made of an indexed probability. *)
Definition labelled (meta : ModelMetadata) (e : Indexed) : Prediction :=
  {| label := id_to_label meta !! idx e; score := val e |}.

Lemma insert_prediction_labelled meta (x : Indexed) (l : list Indexed) :
  insert_prediction (labelled meta x) (map (labelled meta) l)
  = map (labelled meta) (sort_insert x l).
Proof.
  induction l as [| y l IH]; [reflexivity |].
  cbn [map insert_prediction sort_insert].
  change (compareScore (labelled meta x) (labelled meta y)) with (compareDesc x y).
  destruct (Qlt_bool 0 (compareDesc x y)); [| reflexivity].
  rewrite IH. reflexivity.
Qed.

Lemma sortPredictions_labelled meta (l : list Indexed) :
  sortPredictions (map (labelled meta) l) = map (labelled meta) (sortDesc l).
Proof.
  induction l as [| x l IH]; [reflexivity |].
  cbn [map]. unfold sortPredictions, sortDesc in *. cbn [foldr].
  rewrite IH. apply insert_prediction_labelled.
Qed.

Lemma predictions_labelled meta (probs : list Q) :
  imap (fun i score => {| label := id_to_label meta !! i; score := score |}) probs
  = map (labelled meta) (imap (fun i v => {| val := v; idx := i |}) probs).
Proof.
  rewrite fmap_imap. apply imap_ext. intros i x _. reflexivity.
Qed.

(** X23: on a loaded engine whose session returns logits, and with
    [Math.exp] positive, [classify] returns one prediction for each
    logit, in the order [topKFilter] gives the probabilities when
    nothing is cut: by score from high to low, equal scores in class
    order.  The scores are the probabilities of [softmax], each with
    the label of its class, and the first prediction has the highest
    score. *)
Theorem classify_ranked (exp : Q -> Q) (engine : InferenceEngine)
    (run : list Z -> list Z -> option (list Q)) (meta : ModelMetadata)
    (inputIds attentionMask : list Z) (logits : list Q) :
  (forall x, 0 < exp x) ->
  session engine = Some run ->
  metadata engine = Some meta ->
  run inputIds attentionMask = Some logits ->
  exists probs ps,
    softmax exp logits = Some probs /\
    classify exp engine inputIds attentionMask = Predictions ps /\
    length ps = length logits /\
    ps ≡ₚ imap (fun i p => {| label := id_to_label meta !! i; score := p |}) probs /\
    map score ps = topk_logits (topKFilter probs (length probs)) /\
    map label ps
    = map (fun i => id_to_label meta !! i)
        (indices (topKFilter probs (length probs))) /\
    (forall i j a b, (i < j)%nat -> ps !! i = Some a -> ps !! j = Some b ->
       score b <= score a).
Proof.
  intros Hexp Hs Hm Hrun.
  destruct (softmax_total exp Hexp logits) as (probs & Hp & Hlen & _).
  exists probs. eexists. split; [exact Hp |].
  unfold classify. rewrite Hs, Hm, Hrun, Hp.
  split; [reflexivity |].
  rewrite predictions_labelled, sortPredictions_labelled.
  fold (sortedIndexed probs).
  assert (length (sortedIndexed probs) = length probs) as Hn.
  { unfold sortedIndexed. rewrite sortDesc_perm. apply length_imap. }
  split; [rewrite length_map; congruence |].
  split; [apply fmap_Permutation; apply sortDesc_perm |].
  unfold topKFilter. fold (sortedIndexed probs). cbn [topk_logits indices].
  rewrite <- Hn, firstn_all.
  split; [rewrite <- list_fmap_compose; reflexivity |].
  split; [rewrite <- !list_fmap_compose; reflexivity |].
  intros i j a b Hij Ha Hb.
  rewrite list_lookup_fmap in Ha, Hb.
  destruct (sortedIndexed probs !! i) as [x |] eqn:Ex; [| discriminate].
  destruct (sortedIndexed probs !! j) as [y |] eqn:Ey; [| discriminate].
  cbn in Ha, Hb. injection Ha as <-. injection Hb as <-. cbn [labelled score].
  apply before_val.
  exact (StronglySorted_lookup_lt before _ i j x y (sortedIndexed_sorted probs) Hij Ex Ey).
Qed.

Lemma classify_ranked_witness :
  exists probs ps,
    softmax exp_poly [1; 3; 2] = Some probs /\
    classify exp_poly demo_classifier [2; 5; 3]%Z [1; 1; 1]%Z = Predictions ps /\
    length ps = 3%nat.
Proof.
  destruct (classify_ranked exp_poly demo_classifier (fun _ _ => Some [1; 3; 2])
              {| num_classes := 3;
                 id_to_label :=
                   {[ 0%nat := Text.str "easy"; 1%nat := Text.str "hard";
                      2%nat := Text.str "medium" ]} |}
              [2; 5; 3]%Z [1; 1; 1]%Z [1; 3; 2]
              exp_poly_pos eq_refl eq_refl eq_refl)
    as (probs & ps & H1 & H2 & H3 & _).
  exists probs, ps. repeat split; assumption.
Defined.

End Inference.

(** ** The key handler of the terminal client (index.ts) *)

Module Client.

Import Text Coordinator.

Section Keys.

(** [ClassificationResults], which the handler only ever clears. *)
Variable Results : Type.

(** [key.toString("utf-8")], from the bytes of the chunk to the code
    units of the string. *)
Variable toString : list N -> list N.

(** What one call of [render] draws. *)
Record Frame := {
  shown_input : list N;
  shown_suggestion : list N;
  shown_results : option Results;
  shown_status : list N
}.

(** The module-level variables of the client, with the prompts handed
    to [classifyPrompt] and the frames drawn so far, oldest first. *)
Record Client := {
  core : State;
  results : option Results;
  status : list N;
  classified : list (list N);
  frames : list Frame
}.

Definition set_core (st : State) (c : Client) : Client :=
  {| core := st; results := results c; status := status c;
     classified := classified c; frames := frames c |}.

Definition with_core (f : State -> State) (c : Client) : Client :=
  set_core (f (core c)) c.

Definition set_results (r : option Results) (c : Client) : Client :=
  {| core := core c; results := r; status := status c;
     classified := classified c; frames := frames c |}.

Definition set_status (s : list N) (c : Client) : Client :=
  {| core := core c; results := results c; status := s;
     classified := classified c; frames := frames c |}.

Definition snapshot (c : Client) : Frame :=
  {| shown_input := input (core c); shown_suggestion := suggestion (core c);
     shown_results := results c; shown_status := status c |}.

Definition render (c : Client) : Client :=
  {| core := core c; results := results c; status := status c;
     classified := classified c; frames := frames c ++ [snapshot c] |}.

(** [classifyPrompt(text)] up to its first [await]: the prompt is on its
    way to the classifiers. *)
Definition classifyPrompt (text : list N) (c : Client) : Client :=
  {| core := core c; results := results c; status := status c;
     classified := classified c ++ [text]; frames := frames c |}.

(** [s.startsWith(p)]. *)
Definition startsWith (s p : list N) : bool :=
  bool_decide (take (length p) s = p).

(** [key[0] === x]; the first byte of an empty chunk is [undefined]. *)
Definition first_is (key : list N) (x : N) : bool :=
  match key with
  | b :: _ => (b =? x)%N
  | [] => false
  end.

(** [key[1] === x]. *)
Definition second_is (key : list N) (x : N) : bool :=
  match key with
  | _ :: b :: _ => (b =? x)%N
  | _ => false
  end.

(** [b < 0x20]. *)
Definition is_control (key : list N) : bool :=
  match key with
  | b :: _ => (b <? 32)%N
  | [] => false
  end.

(** [input += s]. *)
Definition append_input (s : list N) (st : State) : State :=
  set_input (input st ++ s) st.

(** The branch of [handleKey] for the Tab key. *)
Definition tabKey (c : Client) : Client :=
  match suggestion (core c) with
  | [] => c
  | _ =>
      let '(accepted, st1) := acceptSuggestion (core c) in
      let accepted :=
        if endsWith_space (input st1) && startsWith_space accepted
        then drop 1 accepted else accepted in
      let c := render (set_core (append_input accepted st1) c) in
      match suggestion (core c) with
      | [] => with_core (requestAutocomplete (input (core c))) c
      | _ => c
      end
  end.

(** The branch for a printable chunk. *)
Definition typeKey (key : list N) (c : Client) : Client :=
  let str := toString key in
  let st := core c in
  let pending :=
    negb (bool_decide (suggestion st = [])) && (0 <? length (suggestion st))%nat in
  if pending && startsWith (suggestion st) str then
    let c := with_core (set_suggestion (drop (length str) (suggestion st))) c in
    let c := with_core (append_input str) c in
    render c
  else if pending && endsWith_space (input st) && startsWith_space (suggestion st)
          && startsWith (drop 1 (suggestion st)) str then
    let c := with_core (set_suggestion (drop (1 + length str) (suggestion st))) c in
    let c := with_core (append_input str) c in
    render c
  else
    let c := with_core (append_input str) c in
    let c := with_core cancelAutocomplete c in
    let c := with_core (set_suggestion []) c in
    let c := set_results None c in
    let c := render c in
    with_core (requestAutocomplete (input (core c))) c.

(** [handleKey]; [None] is the exit of the process on Ctrl+C. *)
Definition handleKey (key : list N) (c : Client) : option Client :=
  if first_is key 3 then None
  else if first_is key 21 then
    let c := with_core (set_input []) c in
    let c := with_core (set_suggestion []) c in
    let c := set_results None c in
    let c := set_status [] c in
    let c := with_core cancelAutocomplete c in
    Some (render c)
  else if first_is key 9 then Some (tabKey c)
  else if first_is key 13 || first_is key 10 then
    match trim (input (core c)) with
    | [] => Some c
    | _ =>
        let c := with_core cancelAutocomplete c in
        let c := with_core (set_suggestion []) c in
        let c := set_status (str "classifying...") c in
        let c := render c in
        Some (classifyPrompt (input (core c)) c)
    end
  else if first_is key 27 && (length key =? 2)%nat
          && (second_is key 13 || second_is key 10) then
    let c := with_core cancelAutocomplete c in
    let c := with_core (set_suggestion []) c in
    let c := set_results None c in
    let c := with_core (append_input [10%N]) c in
    let c := render c in
    Some (with_core (requestAutocomplete (input (core c))) c)
  else if first_is key 27 && (length key =? 1)%nat then
    let c := with_core cancelAutocomplete c in
    let c := with_core (set_suggestion []) c in
    let c := set_status [] c in
    Some (render c)
  else if first_is key 127 || first_is key 8 then
    if (0 <? length (input (core c)))%nat then
      let c :=
        with_core (fun st => set_input (Generation.js_slice (input st) 0 (-1)) st) c in
      let c := with_core cancelAutocomplete c in
      let c := with_core (set_suggestion []) c in
      let c := set_results None c in
      let c := render c in
      match trim (input (core c)) with
      | [] => Some c
      | _ => Some (with_core (requestAutocomplete (input (core c))) c)
      end
    else Some c
  else if first_is key 27 && (1 <? length key)%nat then Some c
  else if is_control key then Some c
  else Some (typeKey key c).

End Keys.

Arguments shown_input {Results} _.
Arguments shown_suggestion {Results} _.
Arguments shown_results {Results} _.
Arguments shown_status {Results} _.
Arguments core {Results} _.
Arguments results {Results} _.
Arguments status {Results} _.
Arguments classified {Results} _.
Arguments frames {Results} _.
Arguments snapshot {Results} _.
Arguments render {Results} _.
Arguments tabKey {Results} _.
Arguments typeKey {Results} _ _ _.
Arguments handleKey {Results} _ _ _.

(** A client with the suggestion [" world peace now"] pending after
    [hello], whose chunks are ASCII text. *)
Definition demo_client : Client unit :=
  {| core := {| input := str "hello"; suggestion := str " world peace now";
                autocompleteTimer := None; isGenerating := true;
                engineLoaded := true |};
     results := Some tt; status := str "Tab to accept";
     classified := []; frames := [] |}.

Example type_along_demo :
  (fun c => (input (core c), suggestion (core c), isGenerating (core c)))
    <$> handleKey id (str " w") demo_client
  = Some (str "hello w", str "orld peace now", true).
Proof. vm_compute. reflexivity. Qed.

Example type_away_demo :
  (fun c => (input (core c), suggestion (core c), autocompleteTimer (core c)))
    <$> handleKey id (str "!") demo_client
  = Some (str "hello!", [], Some (str "hello!")).
Proof. vm_compute. reflexivity. Qed.

(** *** What a key does to the screen *)

Lemma requestAutocomplete_fields (text : list N) (st : State) :
  input (requestAutocomplete text st) = input st /\
  suggestion (requestAutocomplete text st) = [] /\
  engineLoaded (requestAutocomplete text st) = engineLoaded st /\
  isGenerating (requestAutocomplete text st) = false /\
  autocompleteTimer (requestAutocomplete text st)
  = match trim text with
    | [] => None
    | t => if engineLoaded st then Some t else None
    end.
Proof.
  unfold requestAutocomplete. cbn [set_suggestion cancelAutocomplete engineLoaded].
  destruct (trim text); [repeat split |].
  destruct (engineLoaded st) eqn:E; cbn; rewrite ?E; repeat split.
Qed.

Section Screen.

Context {Results : Type}.
Variable toString : list N -> list N.

Implicit Types c : Client Results.

(** What a key leaves of a client: nothing drawn and nothing changed,
    or one more frame that shows the variables as they are at the end. *)
Definition drawn c c' : Prop :=
  c' = c \/ frames c' = frames c ++ [snapshot c'].

Lemma drawn_render c c1 :
  frames c1 = frames c -> drawn c (render c1).
Proof. intros H. right. cbn. rewrite H. reflexivity. Qed.

Lemma snapshot_request (text : list N) c :
  suggestion (core c) = [] ->
  snapshot (with_core Results (requestAutocomplete text) c) = snapshot c.
Proof.
  intros Hs. unfold snapshot, with_core, set_core. cbn [core results status].
  destruct (requestAutocomplete_fields text (core c)) as (Hi & Hs' & _).
  rewrite Hi, Hs', Hs. reflexivity.
Qed.

Lemma drawn_request (text : list N) c c1 :
  frames c1 = frames c -> suggestion (core c1) = [] ->
  drawn c (with_core Results (requestAutocomplete text) (render c1)).
Proof.
  intros H Hs. right. rewrite snapshot_request by exact Hs.
  change (frames c1 ++ [snapshot c1] = frames c ++ [snapshot c1]).
  rewrite H. reflexivity.
Qed.

Lemma tabKey_drawn c : drawn c (tabKey c).
Proof.
  unfold tabKey. destruct (suggestion (core c)) eqn:Es; [left; reflexivity |].
  destruct (acceptSuggestion (core c)) as [accepted st1].
  set (acc := if endsWith_space (input st1) && startsWith_space accepted
              then drop 1 accepted else accepted).
  set (c1 := set_core Results (append_input acc st1) c).
  destruct (suggestion (core (render c1))) eqn:E.
  - apply drawn_request; [reflexivity | exact E].
  - apply drawn_render. reflexivity.
Qed.

Lemma typeKey_drawn key c : drawn c (typeKey toString key c).
Proof.
  unfold typeKey.
  repeat match goal with
         | |- drawn _ (if ?b then _ else _) => destruct b
         end;
    first [ apply drawn_render; reflexivity
          | apply drawn_request; reflexivity ].
Qed.

(** X24: only Ctrl+C ends the process.  Any other key either changes
    nothing and draws nothing, or draws exactly one frame, and that
    frame shows the input, the suggestion, the results and the status
    as they are when the handler returns. *)
Theorem handleKey_renders (key : list N) c :
  (handleKey toString key c = None <-> first_is key 3 = true) /\
  (forall c', handleKey toString key c = Some c' -> drawn c c').
Proof.
  unfold handleKey. split.
  - destruct (first_is key 3); [split; reflexivity |].
    repeat match goal with
           | |- context [if ?b then _ else _] => destruct b
           | |- context [match ?x with [] => _ | _ :: _ => _ end] => destruct x
           end; split; discriminate.
  - intros c'. destruct (first_is key 3); [discriminate |].
    destruct (first_is key 21).
    { intros H. injection H as <-. apply drawn_render. reflexivity. }
    destruct (first_is key 9).
    { intros H. injection H as <-. apply tabKey_drawn. }
    destruct (first_is key 13 || first_is key 10).
    { destruct (trim (input (core c))); intros H; injection H as <-;
        [left; reflexivity |]. right. reflexivity. }
    destruct (first_is key 27 && (length key =? 2)%nat
              && (second_is key 13 || second_is key 10)).
    { intros H. injection H as <-. apply drawn_request; reflexivity. }
    destruct (first_is key 27 && (length key =? 1)%nat).
    { intros H. injection H as <-. apply drawn_render. reflexivity. }
    destruct (first_is key 127 || first_is key 8).
    { destruct (0 <? length (input (core c)))%nat;
        [| intros H; injection H as <-; left; reflexivity].
      match goal with
      | |- context [trim ?x] => destruct (trim x)
      end; intros H; injection H as <-.
      - apply drawn_render. reflexivity.
      - apply drawn_request; reflexivity. }
    destruct (first_is key 27 && (1 <? length key)%nat).
    { intros H. injection H as <-. left. reflexivity. }
    destruct (is_control key).
    { intros H. injection H as <-. left. reflexivity. }
    intros H. injection H as <-. apply typeKey_drawn.
Qed.

End Screen.

(** *** Typing, accepting and deleting *)

Lemma startsWith_prefix (s p : list N) :
  startsWith s p = true <-> exists rest, s = p ++ rest.
Proof.
  unfold startsWith. rewrite bool_decide_eq_true. split.
  - intros H. exists (drop (length p) s). rewrite <- H at 1.
    rewrite take_drop. reflexivity.
  - intros [rest ->]. rewrite take_app_length. reflexivity.
Qed.

Lemma startsWith_after_space (s p : list N) :
  startsWith_space s && startsWith (drop 1 s) p = true
  <-> exists rest, s = 32%N :: p ++ rest.
Proof.
  rewrite andb_true_iff, startsWith_prefix. unfold startsWith_space. split.
  - intros [Hc [rest Hrest]]. destruct s as [| c s]; [discriminate |].
    apply N.eqb_eq in Hc. subst c. cbn [drop] in Hrest. exists rest.
    rewrite <- Hrest. reflexivity.
  - intros [rest ->]. split; [reflexivity |]. exists rest. reflexivity.
Qed.

(** A chunk that is typed: its first byte is no control character and
    not the delete character. *)
Definition is_text (key : list N) : bool :=
  match key with
  | b :: _ => (32 <=? b)%N && negb (b =? 127)%N
  | [] => true
  end.

Lemma match_next_word_nonempty (s m : list N) :
  match_next_word s = Some m -> m <> [].
Proof.
  unfold match_next_word. destruct (span is_space s) as [lead rest].
  destruct (span (fun c => negb (is_space c)) rest) as [word rest'].
  destruct word as [| c word]; [discriminate |]. intros H. injection H as <-.
  intros E. apply app_eq_nil in E. destruct E as [_ E]. discriminate E.
Qed.

Lemma flatten_from_no_newline (in_run : bool) (s : list N) :
  Forall (fun c => is_newline c = false) (flatten_from in_run s).
Proof.
  revert in_run. induction s as [| c s IH]; intros in_run; [constructor |].
  cbn [flatten_from]. destruct (is_newline c) eqn:E.
  - destruct in_run; [apply IH |]. constructor; [reflexivity | apply IH].
  - constructor; [exact E | apply IH].
Qed.

Lemma trim_end_no_newline (s : list N) :
  Forall (fun c => is_newline c = false) s ->
  Forall (fun c => is_newline c = false) (trim_end s).
Proof.
  intros H. destruct (CodeDetection.trim_end_prefix s) as [trail Hs].
  rewrite Hs in H. apply Forall_app in H. apply H.
Qed.

(** What [acceptSuggestion] does to a suggestion that is not empty: it
    takes a first piece off, and returns text without a line break. *)
Lemma acceptSuggestion_spec (st : State) :
  suggestion st <> [] ->
  exists n,
    (0 < n)%nat /\
    (acceptSuggestion st).2 = set_suggestion (drop n (suggestion st)) st /\
    Forall (fun c => is_newline c = false) (acceptSuggestion st).1.
Proof.
  intros Hne. unfold acceptSuggestion.
  destruct (suggestion st) as [| c s] eqn:Es; [contradiction |].
  set (raw := default (c :: s) (match_next_word (c :: s))).
  assert (raw <> []) as Hraw.
  { unfold raw. destruct (match_next_word (c :: s)) eqn:E; [| discriminate].
    exact (match_next_word_nonempty _ _ E). }
  exists (length raw). split; [destruct raw; [contradiction | cbn; lia] |].
  pose proof (trim_end_no_newline _ (flatten_from_no_newline false raw)) as Hno.
  fold (flatten_newlines raw) in Hno.
  destruct (trim_end (flatten_newlines raw)) as [| a acc] eqn:Ea.
  { split; [reflexivity | constructor]. }
  destruct (0 <? length (drop (length raw) (c :: s)))%nat; cbn [fst snd];
    (split; [reflexivity |]); [| exact Hno].
  apply Forall_app. split; [exact Hno | repeat constructor].
Qed.

Section Editing.

Context {Results : Type}.
Variable toString : list N -> list N.

Implicit Types c : Client Results.

Lemma tabKey_core c : core (tabKey c) = handleTab (core c).
Proof.
  unfold tabKey, handleTab. destruct (suggestion (core c)); [reflexivity |].
  destruct (acceptSuggestion (core c)) as [accepted st1].
  unfold append_input, with_core. cbn [render set_core core].
  match goal with
  | |- context [suggestion ?s] => destruct (suggestion s)
  end; reflexivity.
Qed.

Lemma handleKey_text (key : list N) c :
  is_text key = true -> handleKey toString key c = Some (typeKey toString key c).
Proof.
  intros H. unfold handleKey. destruct key as [| b rest]; [reflexivity |].
  cbn [is_text] in H. apply andb_true_iff in H. destruct H as [H32 H127].
  apply N.leb_le in H32. apply negb_true_iff, N.eqb_neq in H127.
  unfold first_is, is_control.
  repeat match goal with
         | |- context [(b =? ?x)%N] =>
             destruct (N.eqb_spec b x); [lia || contradiction |]
         end.
  destruct (N.ltb_spec b 32); [lia |]. reflexivity.
Qed.

(** The variables of a pending or running generation, the results and
    the status are as they were. *)
Definition undisturbed c c' : Prop :=
  autocompleteTimer (core c') = autocompleteTimer (core c) /\
  isGenerating (core c') = isGenerating (core c) /\
  results c' = results c /\ status c' = status c.

(** X25: a typed chunk is always appended to the input.  When the
    pending suggestion starts with it, the chunk is taken off the
    suggestion, so that input and suggestion together read as before,
    and nothing is cancelled or cleared; the same holds when the input
    ends with a space and the suggestion starts with a space followed
    by the chunk, the space then being dropped.  In every other case
    the suggestion and the results are cleared, a generation pending or
    running is cancelled, and a new one is scheduled for the trimmed
    input if it is not empty and the engine is loaded. *)
Theorem handleKey_typing (key : list N) c :
  is_text key = true ->
  exists c',
    handleKey toString key c = Some c' /\
    input (core c') = input (core c) ++ toString key /\
    classified c' = classified c /\
    (suggestion (core c) <> [] ->
     (exists rest, suggestion (core c) = toString key ++ rest) ->
     input (core c') ++ suggestion (core c')
     = input (core c) ++ suggestion (core c) /\ undisturbed c c') /\
    (suggestion (core c) <> [] ->
     ~ (exists rest, suggestion (core c) = toString key ++ rest) ->
     endsWith_space (input (core c)) = true ->
     (exists rest, suggestion (core c) = 32%N :: toString key ++ rest) ->
     input (core c') ++ suggestion (core c')
     = input (core c) ++ drop 1 (suggestion (core c)) /\ undisturbed c c') /\
    (suggestion (core c) = [] \/
     (~ (exists rest, suggestion (core c) = toString key ++ rest) /\
      ~ (endsWith_space (input (core c)) = true /\
         exists rest, suggestion (core c) = 32%N :: toString key ++ rest)) ->
     suggestion (core c') = [] /\ results c' = None /\
     isGenerating (core c') = false /\
     autocompleteTimer (core c')
     = match trim (input (core c) ++ toString key) with
       | [] => None
       | t => if engineLoaded (core c) then Some t else None
       end).
Proof.
  intros Htext. exists (typeKey toString key c).
  split; [apply handleKey_text; exact Htext |].
  unfold typeKey. set (str := toString key). set (st := core c).
  assert (negb (bool_decide (suggestion st = [])) && (0 <? length (suggestion st))%nat
          = negb (bool_decide (suggestion st = []))) as ->.
  { destruct (suggestion st); reflexivity. }
  destruct (bool_decide (suggestion st = [])) eqn:Eempty.
  { apply bool_decide_eq_true in Eempty. cbn [negb andb].
    destruct (requestAutocomplete_fields (input st ++ str)
                (set_suggestion [] (cancelAutocomplete (append_input str st))))
      as (Hi & Hs & _ & Hg & Ht).
    cbn [with_core set_core render set_results core results classified
         append_input set_input set_suggestion cancelAutocomplete input].
    split; [exact Hi |]. split; [reflexivity |].
    split; [intros Hne; contradiction |]. split; [intros Hne; contradiction |].
    intros _. split; [exact Hs |]. split; [reflexivity |]. split; [exact Hg |].
    exact Ht. }
  apply bool_decide_eq_false in Eempty. cbn [negb andb].
  destruct (startsWith (suggestion st) str) eqn:E1.
  { apply startsWith_prefix in E1 as Hpre. destruct Hpre as [rest Hrest].
    cbn [with_core set_core render core results classified status
         append_input set_input set_suggestion input suggestion
         autocompleteTimer isGenerating].
    split; [reflexivity |]. split; [reflexivity |]. split; [| split].
    - intros _ _. split; [| repeat split].
      rewrite Hrest, drop_app_length, <- app_assoc. reflexivity.
    - intros _ Hno. exfalso. apply Hno. exists rest. exact Hrest.
    - intros [H | [Hno _]]; [contradiction |]. exfalso. apply Hno.
      exists rest. exact Hrest. }
  assert (~ (exists rest, suggestion st = str ++ rest)) as Hno1.
  { intros H. apply startsWith_prefix in H. congruence. }
  destruct (endsWith_space (input st)) eqn:Eend; cbn [andb].
  - destruct (startsWith_space (suggestion st) && startsWith (drop 1 (suggestion st)) str)
      eqn:E2.
    + apply startsWith_after_space in E2 as Hpre. destruct Hpre as [rest Hrest].
      cbn [with_core set_core render core results classified status
           append_input set_input set_suggestion input suggestion
           autocompleteTimer isGenerating].
      split; [reflexivity |]. split; [reflexivity |]. split; [| split].
      * intros _ H. contradiction.
      * intros _ _ _ _. split; [| repeat split].
        rewrite Hrest. change (1 + length str)%nat with (S (length str)).
        cbn [drop]. rewrite drop_0, drop_app_length, <- app_assoc. reflexivity.
      * intros [H | [_ Hno]]; [contradiction |]. exfalso. apply Hno.
        split; [reflexivity |]. exists rest. exact Hrest.
    + assert (~ (exists rest, suggestion st = 32%N :: str ++ rest)) as Hno2.
      { intros H. apply startsWith_after_space in H. congruence. }
      destruct (requestAutocomplete_fields (input st ++ str)
                  (set_suggestion [] (cancelAutocomplete (append_input str st))))
        as (Hi & Hs & _ & Hg & Ht).
      cbn [with_core set_core render set_results core results classified
           append_input set_input set_suggestion cancelAutocomplete input].
      split; [exact Hi |]. split; [reflexivity |].
      split; [intros _ H; contradiction |].
      split; [intros _ _ _ H; contradiction |].
      intros _. split; [exact Hs |]. split; [reflexivity |]. split; [exact Hg |].
      exact Ht.
  - destruct (requestAutocomplete_fields (input st ++ str)
                (set_suggestion [] (cancelAutocomplete (append_input str st))))
      as (Hi & Hs & _ & Hg & Ht).
    cbn [with_core set_core render set_results core results classified
         append_input set_input set_suggestion cancelAutocomplete input].
    split; [exact Hi |]. split; [reflexivity |].
    split; [intros _ H; contradiction |].
    split; [intros _ _ H; discriminate |].
    intros _. split; [exact Hs |]. split; [reflexivity |]. split; [exact Hg |].
    exact Ht.
Qed.

End Editing.

Lemma handleKey_typing_witness :
  exists c',
    handleKey id (str " w") demo_client = Some c' /\
    input (core c') = str "hello w".
Proof.
  destruct (handleKey_typing id (str " w") demo_client eq_refl)
    as (c' & H & Hi & _).
  exists c'. split; [exact H | exact Hi].
Defined.

Section Accepting.

Context {Results : Type}.
Variable toString : list N -> list N.

Implicit Types c : Client Results.

(** The Tab branch on a suggestion that is not empty, in one piece. *)
Lemma tabKey_spec c :
  suggestion (core c) <> [] ->
  exists n accepted,
    (0 < n)%nat /\
    Forall (fun ch => is_newline ch = false) accepted /\
    let st2 := set_input (input (core c) ++ accepted)
                 (set_suggestion (drop n (suggestion (core c))) (core c)) in
    tabKey c
    = match drop n (suggestion (core c)) with
      | [] => with_core Results (requestAutocomplete (input st2))
                (render (set_core Results st2 c))
      | _ => render (set_core Results st2 c)
      end.
Proof.
  intros Hne. destruct (acceptSuggestion_spec (core c) Hne) as (n & Hn & Hst & Hacc).
  unfold tabKey. destruct (suggestion (core c)) as [| x s] eqn:Es; [contradiction |].
  destruct (acceptSuggestion (core c)) as [accepted st1]. cbn [fst snd] in Hst, Hacc.
  subst st1. cbn [input set_suggestion].
  set (acc := if endsWith_space (input (core c)) && startsWith_space accepted
              then drop 1 accepted else accepted).
  exists n, acc. split; [exact Hn |]. split.
  { unfold acc. destruct (_ && _); [apply Forall_drop |]; exact Hacc. }
  unfold append_input. cbn [render set_core core set_input set_suggestion
                              input suggestion].
  reflexivity.
Qed.

(** X26: accepting with Tab when a suggestion is pending.  The handler
    does to input, suggestion and scheduling what [handleTab] does, and
    leaves results, status and submitted prompts alone.  The suggestion
    gets strictly shorter, and what is appended to the input holds no
    line break. *)
Theorem handleKey_tab c :
  suggestion (core c) <> [] ->
  handleKey toString [9%N] c = Some (tabKey c) /\
  core (tabKey c) = handleTab (core c) /\
  results (tabKey c) = results c /\
  status (tabKey c) = status c /\
  classified (tabKey c) = classified c /\
  (length (suggestion (core (tabKey c))) < length (suggestion (core c)))%nat /\
  exists accepted,
    input (core (tabKey c)) = input (core c) ++ accepted /\
    Forall (fun ch => is_newline ch = false) accepted.
Proof.
  intros Hne. split; [reflexivity |]. split; [apply tabKey_core |].
  destruct (tabKey_spec c Hne) as (n & accepted & Hn & Hacc & Htab).
  cbn zeta in Htab. rewrite Htab.
  assert (length (drop n (suggestion (core c))) < length (suggestion (core c)))%nat
    as Hlen.
  { rewrite length_drop. destruct (suggestion (core c)); [contradiction |].
    cbn [length]. lia. }
  destruct (drop n (suggestion (core c))) as [| x rest] eqn:Ed.
  - destruct (requestAutocomplete_fields
                (input (core c) ++ accepted)
                (set_input (input (core c) ++ accepted)
                   (set_suggestion [] (core c)))) as (Hi & Hs & _).
    cbn [with_core set_core render core results status classified input set_input]
      in *.
    repeat split; try reflexivity.
    + rewrite Hs. exact Hlen.
    + exists accepted. split; [exact Hi | exact Hacc].
  - cbn [with_core set_core render core results status classified input suggestion
         set_input set_suggestion] in *.
    repeat split; try reflexivity; [exact Hlen |].
    exists accepted. split; [reflexivity | exact Hacc].
Qed.

End Accepting.

Lemma handleKey_tab_witness :
  (suggestion (core (tabKey demo_client)), input (core (tabKey demo_client)))
  = (str "peace now", str "hello world ") /\
  core (tabKey demo_client) = handleTab (core demo_client).
Proof.
  split; [reflexivity |].
  apply (handleKey_tab id demo_client). discriminate.
Defined.

(** *** What no key does *)

(** Nothing runs or is shown, and the only request pending, if any, is
    for the trimmed input as it is now, not blank, on a loaded engine. *)
Definition rescheduled (st : State) : Prop :=
  isGenerating st = false /\ suggestion st = [] /\
  (autocompleteTimer st = None \/
   autocompleteTimer st = Some (trim (input st)) /\
   trim (input st) <> [] /\ engineLoaded st = true).

Lemma request_rescheduled (text : list N) (st : State) :
  text = input st -> rescheduled (requestAutocomplete text st).
Proof.
  intros ->. destruct (requestAutocomplete_fields (input st) st)
    as (Hi & Hs & He & Hg & Ht).
  unfold rescheduled. rewrite Hi, Hs, Hg, He, Ht.
  split; [reflexivity |]. split; [reflexivity |].
  destruct (trim (input st)) as [| x t]; [left; reflexivity |].
  destruct (engineLoaded st); [right | left]; repeat split. discriminate.
Qed.

Section Steps.

Context {Results : Type}.
Variable toString : list N -> list N.

Implicit Types c : Client Results.

(** What a key that submits nothing may do to the suggestion and to
    the generation. *)
Definition quiet_step c c' : Prop :=
  suggestion (core c') `suffix_of` suggestion (core c) /\
  engineLoaded (core c') = engineLoaded (core c) /\
  (autocompleteTimer (core c') = autocompleteTimer (core c) /\
   isGenerating (core c') = isGenerating (core c)
   \/ rescheduled (core c')) /\
  classified c' = classified c.

Lemma quiet_refl c : quiet_step c c.
Proof. repeat split; [reflexivity | left; split; reflexivity]. Qed.

Lemma quiet_request (text : list N) c c1 :
  text = input (core c1) ->
  engineLoaded (core c1) = engineLoaded (core c) ->
  classified c1 = classified c ->
  quiet_step c (with_core Results (requestAutocomplete text) c1).
Proof.
  intros Ht He Hc. unfold quiet_step. cbn [with_core set_core core classified].
  destruct (requestAutocomplete_fields text (core c1)) as (_ & Hs & He' & _).
  rewrite Hs, He', He, Hc. split; [apply suffix_nil |]. split; [reflexivity |].
  split; [| reflexivity]. right. apply request_rescheduled. exact Ht.
Qed.

Lemma quiet_cancelled c c1 :
  suggestion (core c1) = [] -> autocompleteTimer (core c1) = None ->
  isGenerating (core c1) = false ->
  engineLoaded (core c1) = engineLoaded (core c) ->
  classified c1 = classified c ->
  quiet_step c c1.
Proof.
  intros Hs Ht Hg He Hc. unfold quiet_step, rescheduled.
  rewrite Hs, Ht, Hg, He, Hc. split; [apply suffix_nil |].
  split; [reflexivity |]. split; [| reflexivity]. right. repeat split. left.
  reflexivity.
Qed.

Lemma tabKey_quiet c : quiet_step c (tabKey c).
Proof.
  destruct (suggestion (core c)) as [| x s] eqn:Es.
  { unfold tabKey. rewrite Es. apply quiet_refl. }
  destruct (tabKey_spec c) as (n & accepted & _ & _ & Htab); [congruence |].
  cbn zeta in Htab. rewrite Htab. destruct (drop n (suggestion (core c))) eqn:Ed.
  - apply quiet_request; reflexivity.
  - unfold quiet_step.
    cbn [render set_core core classified set_input set_suggestion suggestion
         engineLoaded autocompleteTimer isGenerating].
    rewrite <- Ed. split; [apply suffix_drop |]. split; [reflexivity |].
    split; [left; split; reflexivity | reflexivity].
Qed.

Lemma typeKey_quiet (key : list N) c : quiet_step c (typeKey toString key c).
Proof.
  unfold typeKey.
  repeat match goal with
         | |- quiet_step _ (if ?b then _ else _) => destruct b
         end;
    try (apply quiet_request; reflexivity);
    unfold quiet_step;
    cbn [with_core render set_core core classified append_input set_input
         set_suggestion suggestion engineLoaded autocompleteTimer isGenerating];
    (split; [apply suffix_drop |]); (split; [reflexivity |]);
    (split; [left; split; reflexivity | reflexivity]).
Qed.

(** X27: whatever the key, the suggestion never grows: what is left of
    it is an end piece of what it was.  A generation pending or running
    is either left as it was or cancelled, and then nothing runs, the
    suggestion is empty and the only request pending, if any, is for the
    trimmed input as it now is, which is not blank, on a loaded engine.
    A prompt is submitted by Enter only, if the input is not blank, and
    it is the input, which Enter leaves as it is. *)
Theorem handleKey_step (key : list N) c c' :
  handleKey toString key c = Some c' ->
  suggestion (core c') `suffix_of` suggestion (core c) /\
  engineLoaded (core c') = engineLoaded (core c) /\
  (autocompleteTimer (core c') = autocompleteTimer (core c) /\
   isGenerating (core c') = isGenerating (core c)
   \/ rescheduled (core c')) /\
  (classified c' = classified c
   \/ classified c' = classified c ++ [input (core c)] /\
      trim (input (core c)) <> [] /\ input (core c') = input (core c) /\
      first_is key 13 || first_is key 10 = true).
Proof.
  assert (forall c1, quiet_step c c1 ->
            suggestion (core c1) `suffix_of` suggestion (core c) /\
            engineLoaded (core c1) = engineLoaded (core c) /\
            (autocompleteTimer (core c1) = autocompleteTimer (core c) /\
             isGenerating (core c1) = isGenerating (core c)
             \/ rescheduled (core c1)) /\
            (classified c1 = classified c
             \/ classified c1 = classified c ++ [input (core c)] /\
                trim (input (core c)) <> [] /\ input (core c1) = input (core c) /\
                first_is key 13 || first_is key 10 = true)) as Hquiet.
  { intros c1 (H1 & H2 & H3 & H4). repeat split; try assumption. left. exact H4. }
  unfold handleKey. destruct (first_is key 3); [discriminate |].
  destruct (first_is key 21).
  { intros H. injection H as <-. apply Hquiet. apply quiet_cancelled; reflexivity. }
  destruct (first_is key 9).
  { intros H. injection H as <-. apply Hquiet. apply tabKey_quiet. }
  destruct (first_is key 13 || first_is key 10) eqn:Eenter.
  { destruct (trim (input (core c))) as [| x t] eqn:Et; intros H; injection H as <-.
    - apply Hquiet. apply quiet_refl.
    - cbn [classifyPrompt render set_status with_core set_core core classified
           set_suggestion cancelAutocomplete suggestion engineLoaded input].
      split; [apply suffix_nil |]. split; [reflexivity |].
      split; [right; repeat split; left; reflexivity |].
      right. repeat split. discriminate. }
  destruct (first_is key 27 && (length key =? 2)%nat
            && (second_is key 13 || second_is key 10)).
  { intros H. injection H as <-. apply Hquiet. apply quiet_request; reflexivity. }
  destruct (first_is key 27 && (length key =? 1)%nat).
  { intros H. injection H as <-. apply Hquiet. apply quiet_cancelled; reflexivity. }
  destruct (first_is key 127 || first_is key 8).
  { destruct (0 <? length (input (core c)))%nat;
      [| intros H; injection H as <-; apply Hquiet; apply quiet_refl].
    match goal with
    | |- context [trim ?x] => destruct (trim x)
    end; intros H; injection H as <-; apply Hquiet.
    - apply quiet_cancelled; reflexivity.
    - apply quiet_request; reflexivity. }
  destruct (first_is key 27 && (1 <? length key)%nat).
  { intros H. injection H as <-. apply Hquiet. apply quiet_refl. }
  destruct (is_control key).
  { intros H. injection H as <-. apply Hquiet. apply quiet_refl. }
  intros H. injection H as <-. apply Hquiet. apply typeKey_quiet.
Qed.



End Steps.

Lemma handleKey_step_witness :
  suggestion (core (tabKey demo_client))
  `suffix_of` suggestion (core demo_client).
Proof.
  apply (handleKey_step id [9%N] demo_client (tabKey demo_client) eq_refl).
Defined.


End Client.

(** ** The library functions (lib.ts) *)

Module Lib.

Import Text.

(** The ids [decode] reads in what [generate] yielded: [undefined] is
    no special id and has no entry in the reverse vocabulary, and is
    passed over like an unknown id. *)
Definition token_ids (tokens : list Generation.Token) : list Z :=
  omap (fun t => match t with
                 | Generation.Tok z => Some z
                 | Generation.Undefined => None
                 end) tokens.

Record AutocompleteResult := {
  text : list N;
  tokens : list Generation.Token
}.

Section Api.

Variable isL : N -> bool.
Variable isN : N -> bool.
Variable exp : Q -> Q.

(** [autocomplete], with tokenizer and engine loaded; [None] is the
    rejection of the promise when [generate] throws. *)
Definition autocomplete (tokenizer : Tokenizer.Tokenizer)
    (engine : Generation.AutocompleteEngine)
    (aborted : nat -> bool) (draw : nat -> Q)
    (prompt : list N) (opts : Generation.GenerateOptions) :
    option AutocompleteResult :=
  inputIds ← Tokenizer.encodeForGeneration isL isN tokenizer (trim prompt);
  let '(tokens, ending) :=
    Generation.generate exp engine aborted draw inputIds opts in
  match ending with
  | Generation.Faulted => None
  | _ => Some {| text := Tokenizer.decode tokenizer (token_ids tokens);
                 tokens := tokens |}
  end.

(** [autocompleteStream]: the strings it yields, and how it ends. *)
Definition autocompleteStream (tokenizer : Tokenizer.Tokenizer)
    (engine : Generation.AutocompleteEngine)
    (aborted : nat -> bool) (draw : nat -> Q)
    (prompt : list N) (opts : Generation.GenerateOptions) :
    option (list (list N) * Generation.Ending) :=
  inputIds ← Tokenizer.encodeForGeneration isL isN tokenizer (trim prompt);
  let '(tokens, ending) :=
    Generation.generate exp engine aborted draw inputIds opts in
  Some (map (fun tokenId => Tokenizer.decode tokenizer (token_ids [tokenId])) tokens,
        ending).

End Api.

(** An engine over the ten ids of the demo vocabulary that scores every
    position alike and likes the id of ["ab"] best. *)
Definition demo_engine : Generation.AutocompleteEngine :=
  {| Generation.session :=
       Some (fun zs => Some (concat (map (fun _ => [0; 0; 0; 0; 1; 1; 2; 5; 3; 1]%Q) zs)));
     Generation.metadata :=
       Some {| Generation.vocab_size := 10;
               Generation.generation_defaults :=
                 {| Generation.max_new_tokens := 3;
                    Generation.default_temperature := 1;
                    Generation.top_k := 1 |};
               Generation.eos := 3 |} |}.

Example autocomplete_demo :
  autocomplete Tokenizer.ascii_letter Tokenizer.ascii_digit Sampling.exp_poly
    Tokenizer.demo_tokenizer demo_engine Generation.never_raised (fun _ => 1 # 2)
    (str " ab ") Generation.no_options
  = Some {| text := str "ababab";
            tokens := [Generation.Tok 7; Generation.Tok 7; Generation.Tok 7] |}.
Proof. vm_compute. reflexivity. Qed.

(** The bytes [decode] hands to the decoder. *)
Definition bytes_of (tk : Tokenizer.Tokenizer) (ids : list Z) : list N :=
  concat (map (omap (fun char => Tokenizer.UNICODE_TO_BYTE !! char))
            (omap (Tokenizer.kept tk) ids)).

Lemma decode_bytes_of tk (ids : list Z) :
  Tokenizer.decode tk ids = Utf8.decode (bytes_of tk ids).
Proof. reflexivity. Qed.

Lemma bytes_of_app tk (a b : list Z) :
  bytes_of tk (a ++ b) = bytes_of tk a ++ bytes_of tk b.
Proof. unfold bytes_of. rewrite omap_app, map_app, concat_app. reflexivity. Qed.

Lemma decode_from_ascii (bytes : list N) :
  Forall (fun b => (b < 128)%N) bytes -> Utf8.decode_from None bytes = bytes.
Proof.
  induction 1 as [| b bytes Hb _ IH]; [reflexivity |].
  cbn [Utf8.decode_from]. unfold Utf8.lead.
  destruct (N.leb_spec b 127) as [_ | ?]; [| lia].
  cbn [app]. rewrite IH. reflexivity.
Qed.

Lemma decode_ascii (bytes : list N) :
  Forall (fun b => (b < 128)%N) bytes -> Utf8.decode bytes = bytes.
Proof.
  intros H. unfold Utf8.decode.
  destruct bytes as [| b0 [| b1 [| b2 rest]]]; try (apply decode_from_ascii; exact H).
  apply Forall_cons in H as Hb. destruct Hb as [Hb0 _].
  destruct (N.eqb_spec b0 239) as [-> | _]; [lia |].
  cbn [andb]. apply decode_from_ascii. exact H.
Qed.

(** Every symbol of the reverse vocabulary stands for ASCII bytes. *)
Definition ascii_vocabulary (tk : Tokenizer.Tokenizer) : Prop :=
  map_Forall
    (fun (_ : Z) (s : list N) =>
       Forall (fun b => (b < 128)%N)
         (omap (fun char => Tokenizer.UNICODE_TO_BYTE !! char) s))
    (Tokenizer.reverseVocab tk).

Lemma bytes_of_ascii tk (ids : list Z) :
  ascii_vocabulary tk -> Forall (fun b => (b < 128)%N) (bytes_of tk ids).
Proof.
  intros Hv. unfold bytes_of. induction ids as [| id ids IH]; [constructor |].
  destruct (Tokenizer.kept tk id) as [s |] eqn:E.
  - rewrite (Tokenizer.omap_cons_Some _ id s) by exact E. cbn [map concat].
    apply Forall_app. split; [| exact IH].
    unfold Tokenizer.kept in E.
    destruct (Tokenizer.is_special _ id); [discriminate |].
    exact (Hv id s E).
  - rewrite Tokenizer.omap_cons_None by exact E. exact IH.
Qed.

Lemma token_ids_cons (t : Generation.Token) (ts : list Generation.Token) :
  token_ids (t :: ts) = token_ids [t] ++ token_ids ts.
Proof. destruct t; reflexivity. Qed.

(** X29: over a vocabulary whose symbols all stand for ASCII bytes, the
    strings [autocompleteStream] yields, joined, are the text
    [autocomplete] returns for the same prompt, options, signal reads
    and draws, one string for each token; and [autocomplete] rejects
    exactly when the stream ends by throwing. *)
Theorem autocompleteStream_joined (isL isN : N -> bool) (exp : Q -> Q)
    (tokenizer : Tokenizer.Tokenizer) (engine : Generation.AutocompleteEngine)
    (aborted : nat -> bool) (draw : nat -> Q)
    (prompt : list N) (opts : Generation.GenerateOptions) :
  ascii_vocabulary tokenizer ->
  exists chunks ending,
    autocompleteStream isL isN exp tokenizer engine aborted draw prompt opts
    = Some (chunks, ending) /\
    (ending = Generation.Faulted <->
     autocomplete isL isN exp tokenizer engine aborted draw prompt opts = None) /\
    (forall r,
       autocomplete isL isN exp tokenizer engine aborted draw prompt opts = Some r ->
       text r = concat chunks /\ length chunks = length (tokens r)).
Proof.
  intros Hv. unfold autocompleteStream, autocomplete.
  destruct (Tokenizer.words_total isL isN tokenizer (trim prompt)) as [words Hw].
  unfold Tokenizer.encodeForGeneration. rewrite Hw. cbn [mbind option_bind].
  destruct (Generation.generate exp engine aborted draw _ opts) as [toks ending].
  eexists _, ending. split; [reflexivity |]. split.
  - destruct ending; split; intros H; congruence.
  - intros r Hr.
    assert (r = {| text := Tokenizer.decode tokenizer (token_ids toks);
                   tokens := toks |}) as -> by (destruct ending; congruence).
    cbn [text tokens]. rewrite length_map. split; [| reflexivity].
    rewrite decode_bytes_of, decode_ascii by (apply bytes_of_ascii; exact Hv).
    clear Hr. induction toks as [| t toks IH]; [reflexivity |].
    rewrite token_ids_cons, bytes_of_app, IH. cbn [map concat]. f_equal.
    rewrite decode_bytes_of, decode_ascii by (apply bytes_of_ascii; exact Hv).
    reflexivity.
Qed.

Lemma demo_ascii_vocabulary : ascii_vocabulary Tokenizer.demo_tokenizer.
Proof. apply (bool_decide_unpack _). vm_compute. exact I. Qed.

Lemma autocompleteStream_joined_witness :
  exists chunks ending,
    autocompleteStream Tokenizer.ascii_letter Tokenizer.ascii_digit Sampling.exp_poly
      Tokenizer.demo_tokenizer demo_engine Generation.never_raised (fun _ => 1 # 2)
      (str " ab ") Generation.no_options
    = Some (chunks, ending).
Proof.
  destruct (autocompleteStream_joined Tokenizer.ascii_letter Tokenizer.ascii_digit
              Sampling.exp_poly Tokenizer.demo_tokenizer demo_engine
              Generation.never_raised (fun _ => 1 # 2) (str " ab ")
              Generation.no_options demo_ascii_vocabulary)
    as (chunks & ending & H & _).
  exists chunks, ending. exact H.
Defined.

End Lib.

(** ** A generation of the terminal client, from timer to end (index.ts) *)

Module Suggestion.

Import Text Coordinator Client.

(** [isGenerating = b]. *)
Definition set_generating (b : bool) (st : State) : State :=
  {| input := input st; suggestion := suggestion st;
     autocompleteTimer := autocompleteTimer st;
     isGenerating := b; engineLoaded := engineLoaded st |}.

(** The timer has fired: nothing is scheduled any more. *)
Definition fired (st : State) : State :=
  {| input := input st; suggestion := suggestion st;
     autocompleteTimer := None;
     isGenerating := isGenerating st; engineLoaded := engineLoaded st |}.

(** The options of the call of [generate]. *)
Definition run_options : Generation.GenerateOptions :=
  {| Generation.maxNewTokens := None; Generation.temperature := None;
     Generation.topK := None; Generation.minConfidence := Some (95 # 100);
     Generation.repetitionPenalty := Some (15 # 10) |}.

Section Run.

Context {Results : Type}.
Variable isL : N -> bool.
Variable isN : N -> bool.
Variable exp : Q -> Q.
Variable tokenizer : Tokenizer.Tokenizer.
Variable engine : Generation.AutocompleteEngine.

(** The body of the loop over the stream, the signal not aborted. *)
Definition onToken (c : Client Results) (tokenId : Generation.Token) : Client Results :=
  let tokenText := Tokenizer.decode tokenizer (Lib.token_ids [tokenId]) in
  let c := with_core Results
             (fun st => set_suggestion (suggestion st ++ tokenText) st) c in
  let c := set_status Results (str "Tab to accept") c in
  render c.

(** The callback of the timer set by [requestAutocomplete], run to its
    end with no key handled in between: the signal is never aborted,
    and what [generate] throws is caught. *)
Definition generationRun (draw : nat -> Q) (trimmed : list N)
    (c : Client Results) : Client Results :=
  let c := with_core Results fired c in
  let c := with_core Results (set_generating true) c in
  let c := set_status Results (str "generating...") c in
  let c := render c in
  let c :=
    match Tokenizer.encodeForGeneration isL isN tokenizer trimmed with
    | Some inputIds =>
        fold_left onToken
          (Generation.generate exp engine Generation.never_raised draw inputIds
             run_options).1 c
    | None => c
    end in
  let c := with_core Results (set_generating false) c in
  let c :=
    set_status Results
      (match suggestion (core c) with
       | [] => []
       | _ => str "Tab to accept"
       end) c in
  render c.

(** The strings the run appends, one for each token of the stream. *)
Definition chunks_of (stream : list Generation.Token) : list (list N) :=
  map (fun tokenId => Tokenizer.decode tokenizer (Lib.token_ids [tokenId])) stream.

Lemma onToken_fold (stream : list Generation.Token) (c : Client Results) :
  let c' := fold_left onToken stream c in
  suggestion (core c') = suggestion (core c) ++ concat (chunks_of stream) /\
  input (core c') = input (core c) /\
  autocompleteTimer (core c') = autocompleteTimer (core c) /\
  isGenerating (core c') = isGenerating (core c) /\
  engineLoaded (core c') = engineLoaded (core c) /\
  results c' = results c /\ classified c' = classified c /\
  (stream = [] -> status c' = status c) /\
  exists drawn,
    frames c' = frames c ++ drawn /\
    map shown_suggestion drawn
    = map (fun n => suggestion (core c) ++ concat (take (S n) (chunks_of stream)))
        (seq 0 (length stream)) /\
    Forall (fun f => shown_input f = input (core c)
                     /\ shown_status f = str "Tab to accept") drawn.
Proof.
  revert c. induction stream as [| t stream IH]; intros c.
  - cbn. rewrite app_nil_r. repeat split. exists []. rewrite app_nil_r.
    repeat split. constructor.
  - cbn [fold_left]. specialize (IH (onToken c t)). cbn zeta in IH |- *.
    destruct IH as (Hs & Hi & Ht & Hg & He & Hr & Hc & _ & drawn & Hf & Hd & Hall).
    rewrite Hs, Hi, Ht, Hg, He, Hr, Hc.
    cbn [onToken with_core set_core set_status render core results classified
         set_suggestion suggestion input autocompleteTimer isGenerating engineLoaded
         frames] in *.
    cbn [chunks_of map concat]. fold (chunks_of stream).
    split; [rewrite <- app_assoc; reflexivity |].
    repeat (split; [reflexivity |]). split; [discriminate |].
    eexists (_ :: drawn). split; [rewrite Hf, <- app_assoc; reflexivity |]. split.
    + cbn [map length seq snapshot shown_suggestion core set_core suggestion
           set_suggestion take concat].
      rewrite take_0. cbn [concat]. rewrite app_nil_r. f_equal.
      rewrite Hd, <- seq_shift, map_map. apply map_ext. intros n.
      cbn [take concat]. rewrite <- app_assoc. reflexivity.
    + constructor; [split; reflexivity | exact Hall].
Qed.

(** X30: a generation that runs from the timer to its end with no key
    in between appends to the suggestion, in order, the text of each
    token [generate] yields, whether the stream ends or throws; it
    draws one frame at the start, one for each token, showing the
    suggestion as grown so far, and one at the end.  The input and the
    results are left alone, nothing is generating or scheduled
    afterwards, and the status is ["Tab to accept"] exactly when the
    suggestion is not empty. *)
Theorem generationRun_appends (draw : nat -> Q) (trimmed : list N)
    (c : Client Results) :
  let c' := generationRun draw trimmed c in
  exists inputIds stream,
    Tokenizer.encodeForGeneration isL isN tokenizer trimmed = Some inputIds /\
    stream = (Generation.generate exp engine Generation.never_raised draw inputIds
                run_options).1 /\
    suggestion (core c') = suggestion (core c) ++ concat (chunks_of stream) /\
    input (core c') = input (core c) /\ results c' = results c /\
    classified c' = classified c /\
    isGenerating (core c') = false /\ autocompleteTimer (core c') = None /\
    (status c' = [] <-> suggestion (core c') = []) /\
    (suggestion (core c') <> [] -> status c' = str "Tab to accept") /\
    length (frames c') = (length (frames c) + length stream + 2)%nat /\
    last (frames c') = Some (snapshot c').
Proof.
  intros c'.
  destruct (Tokenizer.words_total isL isN tokenizer trimmed) as [words Hw].
  set (inputIds := Tokenizer.bos (Tokenizer.specialTokens tokenizer) :: concat words).
  assert (Tokenizer.encodeForGeneration isL isN tokenizer trimmed = Some inputIds)
    as Henc.
  { unfold Tokenizer.encodeForGeneration. rewrite Hw. reflexivity. }
  set (stream := (Generation.generate exp engine Generation.never_raised draw inputIds
                    run_options).1).
  exists inputIds, stream. split; [exact Henc |]. split; [reflexivity |].
  subst c'. unfold generationRun. rewrite Henc. fold stream.
  set (c0 := render (set_status Results (str "generating...")
                       (with_core Results (set_generating true)
                          (with_core Results fired c)))).
  destruct (onToken_fold stream c0)
    as (Hs & Hi & Ht & Hg & He & Hr & Hc & _ & drawn & Hf & Hd & _).
  cbn zeta in *. set (c1 := fold_left onToken stream c0) in *.
  cbn [with_core set_core set_status render core results classified status frames
       set_generating suggestion input autocompleteTimer isGenerating].
  rewrite Hs, Hi, Hr, Hc, Ht, Hf.
  split; [reflexivity |]. split; [reflexivity |]. split; [reflexivity |].
  split; [reflexivity |]. split; [reflexivity |]. split; [reflexivity |].
  split; [| split; [| split]].
  - destruct (suggestion (core c0) ++ concat (chunks_of stream)); split;
      intros H; try reflexivity; discriminate.
  - destruct (suggestion (core c0) ++ concat (chunks_of stream));
      [intros H; contradiction | reflexivity].
  - rewrite !length_app. cbn [length frames c0 render].
    rewrite length_app. cbn [length].
    assert (length drawn = length stream) as ->.
    { rewrite <- (length_map shown_suggestion drawn), Hd, length_map, length_seq.
      reflexivity. }
    cbn [with_core set_core set_status frames]. lia.
  - rewrite last_snoc. reflexivity.
Qed.

End Run.

Example generationRun_demo :
  (fun c => (suggestion (core c), status c, length (frames c)))
    (generationRun Tokenizer.ascii_letter Tokenizer.ascii_digit Sampling.exp_poly
       Tokenizer.demo_tokenizer Lib.demo_engine (fun _ => 1 # 2) (str "ab")
       {| core := {| input := str "ab"; suggestion := [];
                     autocompleteTimer := Some (str "ab"); isGenerating := false;
                     engineLoaded := true |};
          results := Some tt; status := []; classified := []; frames := [] |})
  = (str "ab bab", str "Tab to accept", 5%nat).
Proof. vm_compute. reflexivity. Qed.

End Suggestion.
